(** * Slide step controller (step_ctrl.js)

    A shallow embedding of [Animation] and [StepCtrl] from
    [WebContent/tcBundle/js/slide_step/step_ctrl.js], and the properties
    of the navigation cursor and of the prepare/play/finish life cycle.

    The script is JavaScript: objects are bags of properties that the
    constructor fills from an arbitrary [options] object, property reads
    of an absent key give [undefined], conditions test truthiness, and a
    call on [undefined] raises a TypeError.  The embedding keeps all of
    that: values are dynamically typed, animation objects live in a heap
    and are addressed by reference (a [set] animation and a step can
    share a child), and every function is a state transformer that may
    end in an exception.

    The collaborators of the script are the page (jQuery and Snap.svg
    selections, element markup), the console and the host's page
    navigation.  Their calls are recorded, in program order, in a trace;
    of the page itself the model keeps which elements a selector
    addresses and the markup inside every element.  What lies beyond:

    - numbers are integers;
    - a selector addresses the same elements throughout, and markup
      written to an element is read back as written;
    - the running transitions of the page are not kept: starting and
      finishing one is an event of the trace, and whether jQuery takes
      a transition it is asked to start or raises on its arguments is
      given with the page (see [takes]);
    - functions of the page author are opaque (see [FHost]);
    - the script recurses through [set] animations, which the heap may
      tie into a cycle: the methods take a bound on the depth of calls. *)

From Stdlib Require Import ZArith Lia.
From stdpp Require Import base tactics option list strings gmap.

Set Warnings "-register-all".

Local Open Scope Z_scope.

(** ** Values *)

Definition loc := positive.
Definition elem := nat.

(** Function values.  [FEmpty] is the literal [function(anim) {}] (and
    [function() {}]) of the script, [FMoveOutside] the closure the
    constructor stores in [moveOutside], [FHost] a function written by
    the page author: the script cannot look into it, so its call is
    recorded in the trace and taken to return [undefined] and to leave
    the controller and the animation objects as they are. *)
Inductive func :=
| FEmpty
| FMoveOutside
| FHost (name : string).

(** Numbers are the integers: the script only counts and compares. *)
Inductive value :=
| VUndef
| VNull
| VBool (b : bool)
| VNum (n : Z)
| VStr (s : string)
| VFun (f : func)
| VRef (l : loc)
| VArr (xs : list value).

(** ToBoolean. *)
Definition truthy (v : value) : bool :=
  match v with
  | VUndef | VNull => false
  | VBool b => b
  | VNum n => negb (n =? 0)
  | VStr s => negb (String.eqb s "")
  | VFun _ | VRef _ | VArr _ => true
  end.

(** [v === "lit"], as the [case] labels of a [switch] compare. *)
Definition is_str (v : value) (lit : string) : bool :=
  match v with
  | VStr s => String.eqb s lit
  | _ => false
  end.

(** ** Objects and the heap *)

Inductive proto := PlainObject | AnimationPrototype.

Record obj := Obj { obj_proto : proto; obj_props : gmap string value }.

(** The methods of [Animation.prototype]. *)
Inductive meth := Play | Prepare | Finish | BeforePlay | AfterPlay.

Definition meth_name (m : meth) : string :=
  match m with
  | Play => "play"
  | Prepare => "prepare"
  | Finish => "finish"
  | BeforePlay => "beforePlay"
  | AfterPlay => "afterPlay"
  end.

(** ** The page and the trace *)

(** What the script hands to its collaborators.  [Invoke l m] is not a
    call to a collaborator: it marks that the script called method [m]
    of [Animation.prototype] on object [l]. *)
Inductive event :=
| Invoke (l : loc) (m : meth)
| HostCall (name : string) (this : value) (args : list value)
| JqCss (target : value) (property value_ : string)
| JqHide (target : value)
| JqFadeIn (target duration easing : value)
| JqFadeOut (target duration second third : value)
| JqAnimateTopLeft (target duration easing : value)
| JqFinish (target : value)
| JqMoveOutside (target : value) (direction : string)
| JqHtml (target : value) (markup : string)
| JqRemoveClass (selector class : string)
| PrettyPrint
| SnapHide (e : elem)
| SnapFadeIn (e : elem) (duration : value)
| SnapTranslate (e : elem) (x y : value)
| SnapAnimateTranslate (e : elem) (x y duration : value)
| SnapStopAll (e : elem)
| NextPage
| PreviousPage
| ConsoleError (message : string)
| ConsoleLog (v : value).

(** The events that touch what the page shows. *)
Definition visual (e : event) : bool :=
  match e with
  | Invoke _ _ | HostCall _ _ _ | NextPage | PreviousPage
  | ConsoleError _ | ConsoleLog _ => false
  | _ => true
  end.

(** The part of the page the script reads but never changes: the
    elements [$(selector)] holds, the element [Snap.select(selector)]
    wraps ([None] is [null]), and the global variable [easing], if the
    page declares one.  [takes] tells of a call that starts a transition
    of jQuery ([fadeIn], [fadeOut], [animate]) whether jQuery takes it:
    these calls look their easing argument up among the easing functions
    jQuery has, and raise a TypeError when there is something to animate
    and the argument names none of them. *)
Record page := Page {
  jq : value → list elem;
  snap : value → option elem;
  easing_global : option value;
  takes : event → bool
}.

Record state := State {
  heap : gmap loc obj;
  steps : list value;            (* StepCtrl.steps *)
  currentStep : Z;               (* StepCtrl.currentStep *)
  content : gmap elem string;    (* markup inside each element *)
  trace : list event;            (* oldest first *)
  host : page
}.

Definition set_heap (h : gmap loc obj) (s : state) : state :=
  State h (steps s) (currentStep s) (content s) (trace s) (host s).
Definition set_currentStep (i : Z) (s : state) : state :=
  State (heap s) (steps s) i (content s) (trace s) (host s).
Definition set_content (c : gmap elem string) (s : state) : state :=
  State (heap s) (steps s) (currentStep s) c (trace s) (host s).
Definition set_trace (t : list event) (s : state) : state :=
  State (heap s) (steps s) (currentStep s) (content s) t (host s).

(** A reference always denotes an object; a location the heap does not
    list reads as an object without properties. *)
Definition object (s : state) (l : loc) : obj :=
  default (Obj PlainObject ∅) (heap s !! l).

(** [o.k] for a data property: the own property, else [undefined]. *)
Definition prop (s : state) (l : loc) (k : string) : value :=
  default VUndef (obj_props (object s l) !! k).

Definition markup (c : gmap elem string) (e : elem) : string :=
  default EmptyString (c !! e).

(** ** Computations *)

Inductive exn := TypeError | ReferenceError.

(** How a call ends.  [OutOfFuel] is a recursion that was cut off,
    [Unmodelled] a coercion of the JavaScript engine or of jQuery that
    the embedding does not follow. *)
Inductive result (A : Type) :=
| Ok (a : A)
| Throw (e : exn)
| OutOfFuel
| Unmodelled.
Arguments Ok {A} a.
Arguments Throw {A} e.
Arguments OutOfFuel {A}.
Arguments Unmodelled {A}.

Definition M (A : Type) : Type := state → result A * state.

Definition ret {A} (a : A) : M A := λ s, (Ok a, s).

Definition bind {A B} (m : M A) (f : A → M B) : M B :=
  λ s, match m s with
       | (Ok a, s') => f a s'
       | (Throw e, s') => (Throw e, s')
       | (OutOfFuel, s') => (OutOfFuel, s')
       | (Unmodelled, s') => (Unmodelled, s')
       end.

Declare Scope js_scope.
Delimit Scope js_scope with js.
Notation "x <- m ;; k" := (bind m (λ x, k))
  (at level 100, m at next level, right associativity) : js_scope.
Notation "m ;; k" := (bind m (λ _, k))
  (at level 100, right associativity) : js_scope.
Local Open Scope js_scope.

Definition throw {A} (e : exn) : M A := λ s, (Throw e, s).
Definition out_of_fuel {A} : M A := λ s, (OutOfFuel, s).
Definition unmodelled {A} : M A := λ s, (Unmodelled, s).

Definition read (l : loc) (k : string) : M value :=
  λ s, (Ok (prop s l k), s).

(** The own property [k] of [l], if it has one, and the prototype of [l]. *)
Definition own (l : loc) (k : string) : M (option value) :=
  λ s, (Ok (obj_props (object s l) !! k), s).

Definition prototype (l : loc) : M proto :=
  λ s, (Ok (obj_proto (object s l)), s).

(** [l.k = v] *)
Definition store (l : loc) (k : string) (v : value) (s : state) : state :=
  let o := object s l in
  set_heap (<[l := Obj (obj_proto o) (<[k := v]> (obj_props o))]> (heap s)) s.

Definition write (l : loc) (k : string) (v : value) : M unit :=
  λ s, (Ok tt, store l k v s).

Definition log (e : event) (s : state) : state :=
  set_trace (trace s ++ [e]) s.

Definition emit (e : event) : M unit :=
  λ s, (Ok tt, log e s).

(** A call that starts a transition of jQuery: the call is made, and
    raises when jQuery does not take it. *)
Definition start (e : event) : M unit :=
  λ s, if takes (host s) e then (Ok tt, log e s) else (Throw TypeError, log e s).

Definition when (b : bool) (m : M unit) : M unit :=
  if b then m else ret tt.

Fixpoint for_each {A} (f : A → M unit) (xs : list A) : M unit :=
  match xs with
  | [] => ret tt
  | x :: rest => f x ;; for_each f rest
  end.

(** ** jQuery and Snap.svg *)

(** [$(target)] *)
Definition select (target : value) : M (list elem) :=
  λ s, (Ok (jq (host s) target), s).

Definition get_markup (e : elem) : M string :=
  λ s, (Ok (markup (content s) e), s).

Definition fill (t : string) (es : list elem) (c : gmap elem string) : gmap elem string :=
  foldr (λ e c, <[e := t]> c) c es.

Definition set_markup (es : list elem) (t : string) : M unit :=
  λ s, (Ok tt, set_content (fill t es (content s)) s).

(** [$(target).html()]: the markup of the first element, [undefined]
    when the selection is empty. *)
Definition html_get (target : value) : M value :=
  es <- select target ;;
  match es with
  | [] => ret VUndef
  | e :: _ => t <- get_markup e ;; ret (VStr t)
  end.

(** [$(target).html(v)]: a string becomes the markup of every selected
    element; [undefined] makes the call a getter, which changes nothing. *)
Definition html_set (target v : value) : M unit :=
  match v with
  | VUndef => ret tt
  | VStr t =>
      es <- select target ;;
      set_markup es t ;;
      emit (JqHtml target t)
  | _ => unmodelled
  end.

(** [Snap.select(target)] followed by a method call on the result:
    the call raises when the result is [null]. *)
Definition snap_select (target : value) : M elem :=
  λ s, match snap (host s) target with
       | Some e => (Ok e, s)
       | None => (Throw TypeError, s)
       end.

(** The variable [easing] of the global scope. *)
Definition global_easing : M value :=
  λ s, match easing_global (host s) with
       | Some v => (Ok v, s)
       | None => (Throw ReferenceError, s)
       end.

Definition is_direction (d : string) : bool :=
  String.eqb d "up" || String.eqb d "down" || String.eqb d "left" || String.eqb d "right".

(** [this.moveOutside(target, direction)]: every branch of the switch
    reads [$(target).position().top] (or [.left]), and [position()] of
    an empty selection is [undefined]. *)
Definition moveOutside (target direction : value) : M unit :=
  match direction with
  | VStr d =>
      if is_direction d then
        es <- select target ;;
        match es with
        | [] => throw TypeError
        | _ :: _ => emit (JqMoveOutside target d)
        end
      else ret tt
  | _ => ret tt
  end.

(** ** Calls *)

Definition call_fun (f : func) (this : value) (args : list value) : M unit :=
  match f with
  | FEmpty => ret tt
  | FMoveOutside => moveOutside (nth 0 args VUndef) (nth 1 args VUndef)
  | FHost name => emit (HostCall name this args)
  end.

(** [this.k(args)] for a property the prototype does not define. *)
Definition call_prop (this : loc) (k : string) (args : list value) : M unit :=
  f <- read this k ;;
  match f with
  | VFun g => call_fun g (VRef this) args
  | _ => throw TypeError
  end.

(** [v.m()] for a method [m] of [Animation.prototype]: an own property
    of that name shadows the prototype. *)
Definition call_method (self : meth → loc → M unit) (v : value) (m : meth) : M unit :=
  match v with
  | VRef l =>
      shadow <- own l (meth_name m) ;;
      match shadow with
      | Some (VFun f) => call_fun f v []
      | Some _ => throw TypeError
      | None =>
          p <- prototype l ;;
          match p with
          | AnimationPrototype => emit (Invoke l m) ;; self m l
          | PlainObject => throw TypeError
          end
      end
  | _ => throw TypeError
  end.

(** [for (i = 0; i < this.animations.length; i++) this.animations[i].m()].
    Neither the script nor its collaborators write to an array, so the
    loop runs over the elements the array has on entry. *)
Definition each_animation (self : meth → loc → M unit) (this : loc) (m : meth) : M unit :=
  a <- read this "animations" ;;
  match a with
  | VArr xs => for_each (λ child, call_method self child m) xs
  | VUndef | VNull => throw TypeError
  | VStr s => if String.eqb s "" then ret tt else throw TypeError
  | VBool _ | VNum _ => ret tt
  | VFun _ | VRef _ => unmodelled
  end.

(** ** Animation *)

Inductive kind :=
| KFadeIn | KFadeOut | KMoveIn | KSvgFadeIn | KSvgMove | KSet | KChangeText | KCustom
| KUnsupported.

(** The [case] labels of [switch (this.type)] in [play] and [prepare]. *)
Definition kind_of (ty : value) : kind :=
  if is_str ty "fadeIn" then KFadeIn
  else if is_str ty "fadeOut" then KFadeOut
  else if is_str ty "moveIn" then KMoveIn
  else if is_str ty "svg.fadeIn" then KSvgFadeIn
  else if is_str ty "svg.move" then KSvgMove
  else if is_str ty "set" then KSet
  else if is_str ty "changeText" then KChangeText
  else if is_str ty "custom" then KCustom
  else KUnsupported.

Module Animation.

(** [var Animation = function(type, target, duration=500, easing="swing", options={})].
    A default applies when the argument is [undefined]; [None] is an
    omitted [options].  Of [options] the map holds what [for ... in]
    enumerates. *)
Definition or_default (v d : value) : value :=
  match v with VUndef => d | _ => v end.

(** [this[key] = v] on the object under construction.  The name
    [__proto__] is the accessor of [Object.prototype]: the assignment
    goes to its setter and leaves no own property ([new] below tells
    when the setter acts). *)
Definition assign (key : string) (v : value) (this : gmap string value) : gmap string value :=
  if String.eqb key "__proto__" then this else <[key := v]> this.

Definition constructor (type target duration easing : value)
    (options : option (gmap string value)) : gmap string value :=
  let this : gmap string value := ∅ in
  let this := <["type" := type]> this in
  let this := <["target" := target]> this in
  let this := <["duration" := or_default duration (VNum 500)]> this in
  let this := <["easing" := or_default easing (VStr "swing")]> this in
  (* for (var key in options) this[key] = options[key]; *)
  let this := map_fold assign this (default ∅ options) in
  let this := <["ready" := VBool false]> this in
  let this := <["played" := VBool false]> this in
  let this := <["playCustomAnimation" := VFun FEmpty]> this in
  let this := <["prepareCustomAnimation" := VFun FEmpty]> this in
  let this := <["finishCustomAnimation" := VFun FEmpty]> this in
  <["moveOutside" := VFun FMoveOutside]> this.

(** The setter of [__proto__] ignores a value that is neither an object
    nor [null]. *)
Definition prototype_stays (options : gmap string value) : bool :=
  match options !! "__proto__" with
  | None | Some VUndef | Some (VBool _) | Some (VNum _) | Some (VStr _) => true
  | Some VNull | Some (VFun _) | Some (VRef _) | Some (VArr _) => false
  end.

(** [new Animation(...)].  An instance whose prototype [options] has
    replaced is outside the embedding. *)
Definition new (type target duration easing : value)
    (options : option (gmap string value)) : M loc :=
  if prototype_stays (default ∅ options) then
    λ s, let l := fresh (dom (heap s)) in
         (Ok l, set_heap (<[l := Obj AnimationPrototype
                                  (constructor type target duration easing options)]> (heap s)) s)
  else unmodelled.

Section Methods.
(** The prototype methods call each other, and those of the children
    of a [set], through [self]. *)
Variable self : meth → loc → M unit.

(** [Animation.prototype.finish] *)
Definition finish (this : loc) : M unit :=
  ty <- read this "type" ;;
  svg <- match ty with
         | VStr s => ret (String.prefix "svg" s)
         | VRef l =>
             f <- own l "startsWith" ;;
             match f with
             | None => throw TypeError
             | Some _ => unmodelled
             end
         | _ => throw TypeError
         end ;;
  if svg : bool then
    target <- read this "target" ;;
    e <- snap_select target ;;
    emit (SnapStopAll e)
  (* [ty] is a string from here on: [==] compares strings *)
  else if is_str ty "set" then
    each_animation self this Finish
  else if is_str ty "custom" then
    call_prop this "finishCustomAnimation" [VRef this]
  else
    target <- read this "target" ;;
    emit (JqFinish target).

(** The body of [Animation.prototype.prepare] below its two guards. *)
Definition prepare_unguarded (this : loc) : M unit :=
  call_method self (VRef this) Finish ;;
  ty <- read this "type" ;;
  match kind_of ty with
  | KFadeIn =>
      target <- read this "target" ;;
      emit (JqCss target "visibility" "hidden")
  | KFadeOut =>
      target <- read this "target" ;;
      emit (JqCss target "visibility" "visible")
  | KMoveIn =>
      target <- read this "target" ;;
      emit (JqCss target "position" "relative") ;;
      target <- read this "target" ;;
      from <- read this "from" ;;
      call_prop this "moveOutside" [target; from]
  | KSvgFadeIn =>
      target <- read this "target" ;;
      e <- snap_select target ;;
      emit (SnapHide e)
  | KSvgMove =>
      target <- read this "target" ;;
      e <- snap_select target ;;
      x <- read this "fromX" ;;
      y <- read this "fromY" ;;
      emit (SnapTranslate e x y)
  | KSet =>
      each_animation self this Prepare
  | KChangeText =>
      old <- read this "__old_text" ;;
      match old with
      | VUndef =>
          target <- read this "target" ;;
          now <- html_get target ;;
          write this "__old_text" now
      | _ =>
          target <- read this "target" ;;
          html_set target old
      end
  | KCustom =>
      call_prop this "prepareCustomAnimation" [VRef this]
  | KUnsupported => ret tt
  end ;;
  write this "ready" (VBool true).

(** [Animation.prototype.prepare] *)
Definition prepare (this : loc) : M unit :=
  late_prepare <- read this "late_prepare" ;;
  ready <- read this "ready" ;;
  if truthy late_prepare && negb (truthy ready) then ret tt
  else
    no_reverse <- read this "no_reverse" ;;
    played <- read this "played" ;;
    if truthy no_reverse && truthy ready && truthy played then ret tt
    else prepare_unguarded this.

(** [switch (this.type)] of [Animation.prototype.play] *)
Definition play_switch (this : loc) : M unit :=
  ty <- read this "type" ;;
  match kind_of ty with
  | KFadeIn =>
      target <- read this "target" ;;
      emit (JqCss target "visibility" "visible") ;;
      target <- read this "target" ;;
      emit (JqHide target) ;;
      duration <- read this "duration" ;;
      easing <- read this "easing" ;;
      start (JqFadeIn target duration easing)
  | KFadeOut =>
      (* fadeOut(this.duration, this,easing, function...): the second
         argument is the animation itself and the third the variable
         [easing], not [this.easing]; jQuery reads its second argument
         as the easing *)
      target <- read this "target" ;;
      duration <- read this "duration" ;;
      third <- global_easing ;;
      start (JqFadeOut target duration (VRef this) third)
  | KMoveIn =>
      target <- read this "target" ;;
      duration <- read this "duration" ;;
      easing <- read this "easing" ;;
      start (JqAnimateTopLeft target duration easing)
  | KSvgFadeIn =>
      target <- read this "target" ;;
      e <- snap_select target ;;
      duration <- read this "duration" ;;
      emit (SnapFadeIn e duration)
  | KSvgMove =>
      target <- read this "target" ;;
      e <- snap_select target ;;
      x <- read this "toX" ;;
      y <- read this "toY" ;;
      duration <- read this "duration" ;;
      emit (SnapAnimateTranslate e x y duration)
  | KSet =>
      each_animation self this Play
  | KChangeText =>
      target <- read this "target" ;;
      now <- html_get target ;;
      write this "__old_text" now ;;
      target <- read this "target" ;;
      text <- read this "text" ;;
      html_set target text ;;
      emit (JqRemoveClass ".prettyprinted" "prettyprinted") ;;
      emit PrettyPrint
  | KCustom =>
      call_prop this "playCustomAnimation" [VRef this]
  | KUnsupported =>
      emit (ConsoleError "Unsupported animation: ") ;;
      emit (ConsoleLog (VRef this))
  end.

(** [Animation.prototype.play] *)
Definition play (this : loc) : M unit :=
  call_method self (VRef this) BeforePlay ;;
  late_prepare <- read this "late_prepare" ;;
  when (truthy late_prepare)
    (write this "ready" (VBool true) ;;
     write this "played" (VBool false) ;;
     call_method self (VRef this) Prepare) ;;
  play_switch this ;;
  write this "played" (VBool true) ;;
  call_method self (VRef this) AfterPlay.

(** [Animation.prototype.beforePlay = function() {}] *)
Definition beforePlay (this : loc) : M unit := ret tt.

(** [Animation.prototype.afterPlay = function() {}] *)
Definition afterPlay (this : loc) : M unit := ret tt.

(** The prototype. *)
Definition body (m : meth) (this : loc) : M unit :=
  match m with
  | Play => play this
  | Prepare => prepare this
  | Finish => finish this
  | BeforePlay => beforePlay this
  | AfterPlay => afterPlay this
  end.
End Methods.

(** Method [m] of the prototype run on [this], with at most [fuel]
    nested calls. *)
Fixpoint invoke (fuel : nat) (m : meth) (this : loc) : M unit :=
  match fuel with
  | O => out_of_fuel
  | S fuel' => body (invoke fuel') m this
  end.

End Animation.

(** ** StepCtrl *)

Module StepCtrl.

(** [steps[i]]: [undefined] outside the array. *)
Definition nth_step (sts : list value) (i : Z) : value :=
  if i <? 0 then VUndef else nth (Z.to_nat i) sts VUndef.

(** [this.steps[this.currentStep]] *)
Definition current : M value :=
  λ s, (Ok (nth_step (steps s) (currentStep s)), s).

(** [this.currentStep = i] *)
Definition move_to (i : Z) : M unit :=
  λ s, (Ok tt, set_currentStep i s).

(** [ty] is one of the three kinds the controller knows. *)
Definition known_kind (ty : value) : bool :=
  is_str ty "prevPage" || is_str ty "nextPage" || is_str ty "anim".

(** [step.k] for [k] one of "type", "animation". *)
Definition get (step : value) (k : string) : M value :=
  match step with
  | VUndef | VNull => throw TypeError
  | VRef l => read l k
  | _ => ret VUndef
  end.

Section Navigation.
Variable self : meth → loc → M unit.

(** The first switch of [nextStep]: "pre execution". *)
Definition leave (step : value) : M unit :=
  ty <- get step "type" ;;
  when (is_str ty "anim")
    (animation <- get step "animation" ;;
     call_method self animation Finish).

(** The second switch of [nextStep]: "real execution". *)
Definition execute (step : value) : M unit :=
  ty <- get step "type" ;;
  if is_str ty "prevPage" then ret tt
  else if is_str ty "nextPage" then emit NextPage
  else if is_str ty "anim" then
    animation <- get step "animation" ;;
    call_method self animation Play
  else
    emit (ConsoleError "Unsupported step operation: ") ;;
    emit (ConsoleLog step).

(** The switch of [previousStep]. *)
Definition reverse (step : value) : M unit :=
  ty <- get step "type" ;;
  if is_str ty "prevPage" then emit PreviousPage
  else if is_str ty "nextPage" then ret tt
  else if is_str ty "anim" then
    animation <- get step "animation" ;;
    call_method self animation Prepare
  else
    emit (ConsoleError "Unsupported step operation: ") ;;
    emit (ConsoleLog step).

(** [if (++this.currentStep >= this.steps.length)
       this.currentStep = this.steps.length - 1;] *)
Definition advance : M unit :=
  λ s, let s1 := set_currentStep (currentStep s + 1) s in
       if currentStep s1 >=? Z.of_nat (length (steps s1))
       then (Ok tt, set_currentStep (Z.of_nat (length (steps s1)) - 1) s1)
       else (Ok tt, s1).

(** [if (--this.currentStep < 0) this.currentStep = 0;] *)
Definition retreat : M unit :=
  λ s, let s1 := set_currentStep (currentStep s - 1) s in
       if currentStep s1 <? 0
       then (Ok tt, set_currentStep 0 s1)
       else (Ok tt, s1).

Definition nextStep : M unit :=
  step <- current ;;
  leave step ;;
  advance ;;
  step <- current ;;
  execute step.

Definition previousStep : M unit :=
  step <- current ;;
  reverse step ;;
  retreat.

(** [ty == "anim"], the comparison of [init].  A string equals the word
    when it is the word; [undefined], [null], a boolean and a number
    equal no word that is not a numeral.  An object is converted first,
    by its [valueOf] and [toString]: with neither of its own it becomes
    the text [object Object].  The conversion of an array and of a
    function is not followed. *)
Definition is_anim (ty : value) : M bool :=
  match ty with
  | VStr x => ret (String.eqb x "anim")
  | VUndef | VNull | VBool _ | VNum _ => ret false
  | VRef l =>
      by_value <- own l "valueOf" ;;
      by_text <- own l "toString" ;;
      match by_value, by_text with
      | None, None => ret false
      | _, _ => unmodelled
      end
  | VFun _ | VArr _ => unmodelled
  end.

(** One round of the loop of [init]. *)
Definition init_step (step : value) : M unit :=
  ty <- get step "type" ;;
  anim <- is_anim ty ;;
  when anim
    (animation <- get step "animation" ;;
     call_method self animation Prepare).

(** [init].  The loop reads [this.steps.length] and [this.steps[i]] in
    every round; nothing a round calls writes to the controller, so the
    rounds are those of the list the call starts with. *)
Definition init : M unit :=
  λ s, for_each init_step (steps s) s.
End Navigation.

End StepCtrl.

(** ** Navigation events *)

Inductive nav := Next | Previous.

Definition navigate (fuel : nat) (n : nav) : M unit :=
  match n with
  | Next => StepCtrl.nextStep (Animation.invoke fuel)
  | Previous => StepCtrl.previousStep (Animation.invoke fuel)
  end.

(** Every navigation event runs in a handler of its own: an exception
    ends that handler and the next event is served from the state the
    failed one left behind. *)
Fixpoint run (fuel : nat) (ns : list nav) (s : state) : state :=
  match ns with
  | [] => s
  | n :: rest => run fuel rest (navigate fuel n s).2
  end.

(** ** The vocabulary of the properties *)

(** The animation methods write three properties: [ready] (only ever
    [true]), [played] and [__old_text].  They never touch the
    controller, the selections of the page, the prototype of an object
    or any other property. *)
Record frame (s s' : state) : Prop := Frame {
  frame_steps : steps s' = steps s;
  frame_cursor : currentStep s' = currentStep s;
  frame_host : host s' = host s;
  frame_proto : ∀ l, obj_proto (object s' l) = obj_proto (object s l);
  frame_props : ∀ l k, k ≠ "ready" → k ≠ "played" → k ≠ "__old_text" →
    obj_props (object s' l) !! k = obj_props (object s l) !! k;
  frame_ready : ∀ l, prop s l "ready" = VBool true → prop s' l "ready" = VBool true
}.

Definition keeps {A} (m : M A) : Prop := ∀ s, frame s (m s).2.

Definition writable (k : string) (v : value) : Prop :=
  (k = "ready" ∧ v = VBool true) ∨ k = "played" ∨ k = "__old_text".

Definition in_range (s : state) : Prop :=
  0 ≤ currentStep s ≤ Z.of_nat (length (steps s)) - 1.

(** [step.type] can be read and is none of "prevPage", "nextPage",
    "anim". *)
Definition unknown_kind (s : state) (step : value) : bool :=
  match step with
  | VUndef | VNull => false
  | VRef l => negb (StepCtrl.known_kind (prop s l "type"))
  | _ => true
  end.

(** What both [default] branches do. *)
Definition report (step : value) (s : state) : state :=
  log (ConsoleLog step) (log (ConsoleError "Unsupported step operation: ") s).

(** The properties the constructor assigns below the loop. *)
Definition assigned_after_options (k : string) : bool :=
  bool_decide (k ∈ ["ready"; "played"; "playCustomAnimation"; "prepareCustomAnimation";
                    "finishCustomAnimation"; "moveOutside"]%string).

(** An instance of [Animation] whose [play], [prepare] and [finish] are
    the prototype's, and whose hooks [beforePlay] and [afterPlay] are the
    prototype's or functions assigned to the instance. *)
Definition intact (s : state) (l : loc) : bool :=
  match obj_proto (object s l) with
  | AnimationPrototype =>
      forallb (λ m, match obj_props (object s l) !! meth_name m with
                    | None => true
                    | Some _ => false
                    end)
              [Play; Prepare; Finish]
      && forallb (λ m, match obj_props (object s l) !! meth_name m with
                       | None | Some (VFun _) => true
                       | Some _ => false
                       end)
                 [BeforePlay; AfterPlay]
  | PlainObject => false
  end.

(** What a call of the hook [m] of [l] adds to the trace: the mark of
    the prototype's empty method, or the call of the author's function. *)
Definition hook_events (s : state) (l : loc) (m : meth) : list event :=
  match obj_props (object s l) !! meth_name m with
  | None => [Invoke l m]
  | Some (VFun (FHost name)) => [HostCall name (VRef l) []]
  | Some _ => []
  end.

(** The state after that call. *)
Definition hooked (l : loc) (m : meth) (s : state) : state :=
  set_trace (trace s ++ hook_events s l m) s.

(** What [$(target).html()] returns in state [s]. *)
Definition shown (s : state) (target : value) : value :=
  match jq (host s) target with
  | [] => VUndef
  | e :: _ => VStr (markup (content s) e)
  end.

(** The state after [$(target).html(v)] for a string or [undefined]. *)
Definition written (target v : value) (s : state) : state :=
  match v with
  | VStr t => log (JqHtml target t) (set_content (fill t (jq (host s) target) (content s)) s)
  | _ => s
  end.

Definition string_or_undefined (v : value) : bool :=
  match v with
  | VStr _ | VUndef => true
  | _ => false
  end.

(** A kind whose [finish()] is jQuery's: a string that does not start
    with "svg" and is neither "set" nor "custom". *)
Definition jquery_kind (ty : value) : bool :=
  match ty with
  | VStr x => negb (String.prefix "svg" x) && negb (String.eqb x "set")
              && negb (String.eqb x "custom")
  | _ => false
  end.

(** The state after [this.finish()] on such a kind. *)
Definition finished (this : loc) (s : state) : state :=
  log (JqFinish (prop s this "target")) (log (Invoke this Finish) s).

(** The state after the body of [prepare()] on a change-text instance:
    the first call captures, a later one restores. *)
Definition prepared (this : loc) (s : state) : state :=
  let target := prop s this "target" in
  store this "ready" (VBool true)
    match prop s this "__old_text" with
    | VUndef => store this "__old_text" (shown s target) (finished this s)
    | old => written target old (finished this s)
    end.

(** The state after the change-text case of the switch of [play()]. *)
Definition switched (this : loc) (s : state) : state :=
  let target := prop s this "target" in
  log PrettyPrint
    (log (JqRemoveClass ".prettyprinted" "prettyprinted")
       (written target (prop s this "text")
          (store this "__old_text" (shown s target) s))).

(** The state in which the prepare pass of [play()] starts. *)
Definition armed (this : loc) (s : state) : state :=
  log (Invoke this Prepare)
    (store this "played" (VBool false) (store this "ready" (VBool true) s)).

(** The state after [play()] on a change-text instance. *)
Definition played_text (this : loc) (s : state) : state :=
  let s1 := hooked this BeforePlay s in
  let s2 := if truthy (prop s this "late_prepare") then prepared this (armed this s1) else s1 in
  hooked this AfterPlay (store this "played" (VBool true) (switched this s2)).

(** The state after the [default] branch of the switch of [play()],
    [played = true] and [afterPlay()]. *)
Definition reported_unsupported (this : loc) (s : state) : state :=
  hooked this AfterPlay
    (store this "played" (VBool true)
       (log (ConsoleLog (VRef this))
          (log (ConsoleError "Unsupported animation: ") s))).

(** A relation between the state before a call and the state after it
    that holds however the call ends. *)
Definition respects (R : state → state → Prop) {A} (m : M A) : Prop :=
  ∀ s, R s (m s).2.

(** The calls of the host's page navigation. *)
Definition page_call (e : event) : bool :=
  match e with
  | NextPage | PreviousPage => true
  | _ => false
  end.

(** [s'] continues the trace of [s], with no call of the page
    navigation. *)
Definition appends (s s' : state) : Prop :=
  ∃ evs, trace s' = trace s ++ evs ∧ Forall (λ e, page_call e = false) evs.

(** The first guard of [prepare()]: [late_prepare && !ready]. *)
Definition deferred (s : state) (l : loc) : bool :=
  truthy (prop s l "late_prepare") && negb (truthy (prop s l "ready")).

(** The second guard: [no_reverse && ready && played]. *)
Definition one_way_done (s : state) (l : loc) : bool :=
  truthy (prop s l "no_reverse") && truthy (prop s l "ready") && truthy (prop s l "played").

(** [prepare()] on [l] gets past both guards. *)
Definition prepares (s : state) (l : loc) : bool :=
  negb (deferred s l) && negb (one_way_done s l).

Definition stays_deferred (l : loc) (s s' : state) : Prop :=
  deferred s l = true → deferred s' l = true.

Definition stays_ready (s s' : state) : Prop :=
  ∀ l, truthy (prop s l "ready") = true → truthy (prop s' l "ready") = true.

(** Nothing but the trace has changed. *)
Definition same_but_trace (s s' : state) : Prop :=
  heap s' = heap s ∧ steps s' = steps s ∧ currentStep s' = currentStep s ∧
  content s' = content s ∧ host s' = host s.

(** What the author of the page has set up in the script is as it was:
    the steps, the prototype of every object and every property but the
    three the methods keep their state in. *)
Definition same_configuration (s s' : state) : Prop :=
  steps s' = steps s ∧
  (∀ l, obj_proto (object s' l) = obj_proto (object s l)) ∧
  (∀ l k, k ≠ "ready" → k ≠ "played" → k ≠ "__old_text" →
          obj_props (object s' l) !! k = obj_props (object s l) !! k).

(** [step.type] where it can be read. *)
Definition step_type (s : state) (step : value) : value :=
  match step with
  | VRef l => prop s l "type"
  | _ => VUndef
  end.


(** A step [init] passes over: its type can be read and is a string
    other than "anim", or no string and no object at all. *)
Definition passed_over (s : state) (step : value) : bool :=
  match step with
  | VUndef | VNull => false
  | VRef l =>
      match prop s l "type" with
      | VStr x => negb (String.eqb x "anim")
      | VUndef | VNull | VBool _ | VNum _ => true
      | _ => false
      end
  | _ => true
  end.

(** The cursor is off the list. *)
Definition off_list (s : state) : Prop :=
  currentStep s < 0 ∨ Z.of_nat (length (steps s)) ≤ currentStep s.

(** The list holds no step at the cursor: [steps[currentStep]] is
    [undefined] or [null]. *)
Definition no_step (s : state) : Prop :=
  StepCtrl.nth_step (steps s) (currentStep s) = VUndef ∨
  StepCtrl.nth_step (steps s) (currentStep s) = VNull.

(** A type on which [this.type.startsWith] is no function. *)
Definition no_startsWith (s : state) (ty : value) : bool :=
  match ty with
  | VStr _ => false
  | VRef l => bool_decide (obj_props (object s l) !! "startsWith" = None)
  | _ => true
  end.

(** A type that starts with "svg". *)
Definition svg_kind (ty : value) : bool :=
  match ty with
  | VStr x => String.prefix "svg" x
  | _ => false
  end.

(** What a call [this.hook(this)] of a custom hook adds to the trace. *)
Definition custom_events (this : loc) (hook : value) : list event :=
  match hook with
  | VFun (FHost name) => [HostCall name (VRef this) [VRef this]]
  | _ => []
  end.

Definition logs (evs : list event) (s : state) : state :=
  set_trace (trace s ++ evs) s.

(** The same for the calls that return. *)
Definition respects_ok (R : state → state → Prop) {A} (m : M A) : Prop :=
  ∀ s a s', m s = (Ok a, s') → R s s'.

Definition same_played (s s' : state) : Prop :=
  ∀ l, prop s' l "played" = prop s l "played".

Definition keeps_played (l : loc) (s s' : state) : Prop :=
  prop s l "played" = VBool true → prop s' l "played" = VBool true.

(** The instance [this] is an intact set that lists itself. *)
Definition lists_itself (s : state) (this : loc) : Prop :=
  intact s this = true ∧ prop s this "type" = VStr "set" ∧
  ∃ xs, prop s this "animations" = VArr xs ∧ VRef this ∈ xs.

(** The instance [this] is an intact set and its own first child. *)
Definition heads_itself (s : state) (this : loc) : Prop :=
  intact s this = true ∧ prop s this "type" = VStr "set" ∧
  ∃ rest, prop s this "animations" = VArr (VRef this :: rest).

(** ** A sample page *)

Module Sample.

(** The easing functions of jQuery: "swing", which is also what an
    omitted easing stands for, and "linear". *)
Definition known_easing (v : value) : bool :=
  match v with
  | VUndef => true
  | VStr x => String.eqb x "swing" || String.eqb x "linear"
  | _ => false
  end.

(** [$(selector)] on the sample page. *)
Definition elements (target : value) : list elem :=
  if is_str target "#a" then [0%nat]
  else if is_str target "#b" then [1%nat] else [].

(** jQuery takes a transition on an empty selection, and on the
    elements of the page with an easing it has. *)
Definition transition_taken (e : event) : bool :=
  match e with
  | JqFadeIn target _ easing | JqFadeOut target _ easing _
  | JqAnimateTopLeft target _ easing =>
      known_easing easing || bool_decide (elements target = [])
  | _ => true
  end.

(** Two elements: [#a] is element 0 and [#b] is element 1, which
    shows "old".  The page has no SVG element and declares no variable
    [easing]. *)
Definition the_page : page :=
  Page elements (λ _, None) None transition_taken.

Definition plain (props : list (string * value)) : obj :=
  Obj PlainObject (list_to_map props).

(** [new Animation(type, target, undefined, undefined, options)] *)
Definition animation (type target : string) (options : list (string * value)) : obj :=
  Obj AnimationPrototype
    (Animation.constructor (VStr type) (VStr target) VUndef VUndef
       (Some (list_to_map options))).

(** The same instance with some properties assigned afterwards. *)
Definition with_props (props : list (string * value)) (o : obj) : obj :=
  Obj (obj_proto o) (foldr (λ kv m, <[kv.1 := kv.2]> m) (obj_props o) props).

Definition page_with (objs : list (loc * obj)) (sts : list value) (i : Z) : state :=
  State (list_to_map objs) sts i {[ 1%nat := "old"%string ]} [] the_page.

(** One animation, at location 1, and no steps. *)
Definition only (o : obj) : state := page_with [(1%positive, o)] [] 0.

(** steps = [prevPage, anim(fadeIn, "#a"), anim(changeText, "#b", text="hi"), nextPage] *)
Definition deck (i : Z) : state :=
  page_with
    [(1%positive, plain [("type", VStr "prevPage")]);
     (2%positive, plain [("type", VStr "anim"); ("animation", VRef 10%positive)]);
     (3%positive, plain [("type", VStr "anim"); ("animation", VRef 11%positive)]);
     (4%positive, plain [("type", VStr "nextPage")]);
     (10%positive, animation "fadeIn" "#a" []);
     (11%positive, animation "changeText" "#b" [("text", VStr "hi")])]
    [VRef 1%positive; VRef 2%positive; VRef 3%positive; VRef 4%positive] i.

(** steps = [prevPage, {type: "bogus"}, nextPage] *)
Definition bogus_deck (i : Z) : state :=
  page_with
    [(1%positive, plain [("type", VStr "prevPage")]);
     (2%positive, plain [("type", VStr "bogus")]);
     (3%positive, plain [("type", VStr "nextPage")])]
    [VRef 1%positive; VRef 2%positive; VRef 3%positive] i.

(** A fade-in that has been prepared and played and must not be
    reverted. *)
Definition one_way : state :=
  only (with_props [("ready", VBool true); ("played", VBool true)]
          (animation "fadeIn" "#a" [("no_reverse", VBool true)])).

Definition late : state :=
  only (animation "fadeIn" "#a" [("late_prepare", VBool true)]).

Definition late_one_way : state :=
  only (animation "fadeIn" "#a" [("late_prepare", VBool true); ("no_reverse", VBool true)]).

Definition text_swap : state :=
  only (animation "changeText" "#b" [("text", VStr "hi")]).

Definition text_swap_one_way : state :=
  only (animation "changeText" "#b" [("text", VStr "hi"); ("no_reverse", VBool true)]).

Definition bogus : state :=
  only (animation "bogus" "#a" []).

(** [afterPlay] is a function of the page author. *)
Definition bogus_counted : state :=
  only (with_props [("afterPlay", VFun (FHost "count"))] (animation "bogus" "#a" [])).

Definition late_bogus : state :=
  only (animation "bogus" "#a" [("late_prepare", VBool true)]).

Definition late_svg_bogus : state :=
  only (animation "svg.spin" "#a" [("late_prepare", VBool true)]).

(** The controller as the script declares it:
    steps = [prevPage, nextPage], cursor on 0. *)
Definition declared : state :=
  page_with
    [(1%positive, plain [("type", VStr "prevPage")]);
     (2%positive, plain [("type", VStr "nextPage")])]
    [VRef 1%positive; VRef 2%positive] 0.

(** steps = [prevPage, anim(fadeIn, "#a", late_prepare),
             anim(set of that fade-in and a changeText on "#b"), nextPage] *)
Definition late_deck (i : Z) : state :=
  page_with
    [(1%positive, plain [("type", VStr "prevPage")]);
     (2%positive, plain [("type", VStr "anim"); ("animation", VRef 10%positive)]);
     (3%positive, plain [("type", VStr "anim"); ("animation", VRef 12%positive)]);
     (4%positive, plain [("type", VStr "nextPage")]);
     (10%positive, animation "fadeIn" "#a" [("late_prepare", VBool true)]);
     (11%positive, animation "changeText" "#b" [("text", VStr "hi")]);
     (12%positive, animation "set" "" [("animations", VArr [VRef 10%positive; VRef 11%positive])])]
    [VRef 1%positive; VRef 2%positive; VRef 3%positive; VRef 4%positive] i.


(** steps = [prevPage, undefined, nextPage] *)
Definition holed_deck (i : Z) : state :=
  page_with
    [(1%positive, plain [("type", VStr "prevPage")]);
     (3%positive, plain [("type", VStr "nextPage")])]
    [VRef 1%positive; VUndef; VRef 3%positive] i.

(** The same page with [var easing = "linear"] declared. *)
Definition with_easing (s : state) : state :=
  State (heap s) (steps s) (currentStep s) (content s) (trace s)
        (Page (jq (host s)) (snap (host s)) (Some (VStr "linear")) (takes (host s))).

Definition fade_out : state :=
  only (animation "fadeOut" "#a" []).

(** The same page with a drawing whose element 5 is "#logo". *)
Definition with_drawing (s : state) : state :=
  State (heap s) (steps s) (currentStep s) (content s) (trace s)
        (Page (jq (host s)) (λ target, if is_str target "#logo" then Some 5%nat else None)
              (easing_global (host s)) (takes (host s))).

(** [new Animation(undefined, "#a")] *)
Definition untyped : state :=
  only (Obj AnimationPrototype
          (Animation.constructor VUndef (VStr "#a") VUndef VUndef None)).

Definition svg_fade : state :=
  only (animation "svg.fadeIn" "#logo" []).

Definition move_in (target : string) (options : list (string * value)) : state :=
  only (animation "moveIn" target options).

Definition set_of (children : value) : state :=
  only (animation "set" "" [("animations", children)]).

(** A set, at location 1, of a fade-in on "#a" and a change of the text
    of "#b". *)
Definition pair : state :=
  page_with
    [(1%positive, animation "set" "" [("animations", VArr [VRef 2%positive; VRef 3%positive])]);
     (2%positive, animation "fadeIn" "#a" []);
     (3%positive, animation "changeText" "#b" [("text", VStr "hi")])]
    [] 0.

(** A set, at location 1, of a fade-in on "#a" and of itself. *)
Definition loop : state :=
  page_with
    [(1%positive, animation "set" "" [("animations", VArr [VRef 2%positive; VRef 1%positive])]);
     (2%positive, animation "fadeIn" "#a" [])]
    [] 0.

(** steps = [anim(changeText, "#b", text="hi")]: one step, the first and
    the last of the list. *)
Definition single_deck : state :=
  page_with
    [(1%positive, plain [("type", VStr "anim"); ("animation", VRef 10%positive)]);
     (10%positive, animation "changeText" "#b" [("text", VStr "hi")])]
    [VRef 1%positive] 0.

(** steps = [prevPage, anim(svg.fadeIn, "#logo")]: the list ends with an
    animation of an element the page does not have. *)
Definition svg_deck (i : Z) : state :=
  page_with
    [(1%positive, plain [("type", VStr "prevPage")]);
     (2%positive, plain [("type", VStr "anim"); ("animation", VRef 10%positive)]);
     (10%positive, animation "svg.fadeIn" "#logo" [])]
    [VRef 1%positive; VRef 2%positive] i.

(** A custom animation whose play hook the author has assigned. *)
Definition custom : state :=
  only (with_props [("playCustomAnimation", VFun (FHost "spin"))]
          (animation "custom" "#a" [])).

End Sample.

(** * Properties *)

(** ** Reading the state after an update *)

Lemma object_store (l l' : loc) (k : string) (v : value) (s : state) :
  object (store l k v s) l' =
  if decide (l = l') then Obj (obj_proto (object s l)) (<[k := v]> (obj_props (object s l)))
  else object s l'.
Proof.
  unfold object, store; cbn. case_decide as Hl.
  - subst l'. by rewrite lookup_insert_eq.
  - by rewrite lookup_insert_ne.
Qed.

Lemma prop_store_eq (l : loc) (k : string) (v : value) (s : state) :
  prop (store l k v s) l k = v.
Proof.
  unfold prop. rewrite object_store, decide_True by done. cbn.
  by rewrite lookup_insert_eq.
Qed.

Lemma prop_store_ne (l l' : loc) (k k' : string) (v : value) (s : state) :
  l ≠ l' ∨ k ≠ k' → prop (store l k v s) l' k' = prop s l' k'.
Proof.
  intros Hne. unfold prop. rewrite object_store. case_decide as Hl; [|done].
  subst l'. cbn. destruct Hne as [Hne|Hne]; [done|]. by rewrite lookup_insert_ne.
Qed.

Lemma own_store_ne (l l' : loc) (k k' : string) (v : value) (s : state) :
  k ≠ k' → obj_props (object (store l k v s) l') !! k' = obj_props (object s l') !! k'.
Proof.
  intros Hne. rewrite object_store. case_decide as Hl; [|done].
  subst l'. cbn. by rewrite lookup_insert_ne.
Qed.

Lemma proto_store (l l' : loc) (k : string) (v : value) (s : state) :
  obj_proto (object (store l k v s) l') = obj_proto (object s l').
Proof. rewrite object_store. case_decide; by subst. Qed.

Lemma prop_log (e : event) (s : state) (l : loc) (k : string) :
  prop (log e s) l k = prop s l k.
Proof. done. Qed.

(** ** Running one primitive *)

Lemma invoke_S (fuel : nat) (m : meth) (this : loc) :
  Animation.invoke (S fuel) m this = Animation.body (Animation.invoke fuel) m this.
Proof. done. Qed.

Lemma bind_ret {A B} (a : A) (f : A → M B) (s : state) : bind (ret a) f s = f a s.
Proof. done. Qed.

Lemma bind_read {B} (l : loc) (k : string) (f : value → M B) (s : state) :
  bind (read l k) f s = f (prop s l k) s.
Proof. done. Qed.

Lemma bind_own {B} (l : loc) (k : string) (f : option value → M B) (s : state) :
  bind (own l k) f s = f (obj_props (object s l) !! k) s.
Proof. done. Qed.

Lemma bind_prototype {B} (l : loc) (f : proto → M B) (s : state) :
  bind (prototype l) f s = f (obj_proto (object s l)) s.
Proof. done. Qed.

Lemma bind_write {B} (l : loc) (k : string) (v : value) (f : unit → M B) (s : state) :
  bind (write l k v) f s = f tt (store l k v s).
Proof. done. Qed.

Lemma bind_emit {B} (e : event) (f : unit → M B) (s : state) :
  bind (emit e) f s = f tt (log e s).
Proof. done. Qed.

Lemma bind_assoc {A B C} (m : M A) (f : A → M B) (g : B → M C) (s : state) :
  bind (bind m f) g s = bind m (λ a, bind (f a) g) s.
Proof. unfold bind. destruct (m s) as [[]]; done. Qed.

Lemma bind_current {B} (f : value → M B) (s : state) :
  bind StepCtrl.current f s = f (StepCtrl.nth_step (steps s) (currentStep s)) s.
Proof. done. Qed.

(** ** The guards of [prepare] *)

(** C5.  An animation with [no_reverse] set that is ready and played:
    [prepare()] returns at its second guard.  The state after the call is
    the state before it, so [finish()] was not called, no precondition
    was applied to the target and no flag changed; a second [prepare()]
    finds the same state and does the same. *)
Theorem prepare_no_reverse_noop (s : state) (this : loc) (fuel : nat) :
  truthy (prop s this "no_reverse") = true →
  truthy (prop s this "ready") = true →
  truthy (prop s this "played") = true →
  Animation.invoke (S fuel) Prepare this s = (Ok tt, s) ∧
  (Animation.invoke (S fuel) Prepare this ;; Animation.invoke (S fuel) Prepare this) s
    = (Ok tt, s).
Proof.
  intros Hno Hready Hplayed.
  assert (Animation.invoke (S fuel) Prepare this s = (Ok tt, s)) as Hone.
  { cbn [Animation.invoke Animation.body]. unfold Animation.prepare.
    rewrite !bind_read, Hready, andb_false_r.
    rewrite !bind_read, Hno, Hplayed. done. }
  split; [done|]. unfold bind at 1. by rewrite Hone.
Qed.

(** ** What the methods of an animation leave alone *)

Lemma frame_refl (s : state) : frame s s.
Proof. by split. Qed.

Lemma frame_trans (s1 s2 s3 : state) : frame s1 s2 → frame s2 s3 → frame s1 s3.
Proof.
  intros H12 H23. split.
  - rewrite (frame_steps _ _ H23). apply H12.
  - rewrite (frame_cursor _ _ H23). apply H12.
  - rewrite (frame_host _ _ H23). apply H12.
  - intros l. rewrite (frame_proto _ _ H23). apply H12.
  - intros l k ???. rewrite (frame_props _ _ H23) by done. by apply H12.
  - intros l Hr. apply H23, H12, Hr.
Qed.

Lemma frame_prop (s s' : state) (l : loc) (k : string) :
  frame s s' → k ≠ "ready" → k ≠ "played" → k ≠ "__old_text" →
  prop s' l k = prop s l k.
Proof. intros Hf ???. unfold prop. by rewrite (frame_props _ _ Hf). Qed.

Lemma frame_log (e : event) (s : state) : frame s (log e s).
Proof. by split. Qed.

Lemma frame_set_content (c : gmap elem string) (s : state) : frame s (set_content c s).
Proof. by split. Qed.

Lemma frame_store (l : loc) (k : string) (v : value) (s : state) :
  writable k v → frame s (store l k v s).
Proof.
  intros Hw. split; try done.
  - intros l'. apply proto_store.
  - intros l' k' ???. apply own_store_ne. destruct Hw as [[-> _]|[->| ->]]; done.
  - intros l' Hr. destruct Hw as [[-> ->]|[->| ->]].
    + destruct (decide (l = l')) as [->|]; [apply prop_store_eq|].
      rewrite prop_store_ne; auto.
    + rewrite prop_store_ne; auto.
    + rewrite prop_store_ne; auto.
Qed.

Create HintDb keeps.

Lemma keeps_ret {A} (a : A) : keeps (ret a).
Proof. intros s. apply frame_refl. Qed.

Lemma keeps_throw {A} (e : exn) : keeps (@throw A e).
Proof. intros s. apply frame_refl. Qed.

Lemma keeps_out_of_fuel {A} : keeps (@out_of_fuel A).
Proof. intros s. apply frame_refl. Qed.

Lemma keeps_unmodelled {A} : keeps (@unmodelled A).
Proof. intros s. apply frame_refl. Qed.

Lemma keeps_read (l : loc) (k : string) : keeps (read l k).
Proof. intros s. apply frame_refl. Qed.

Lemma keeps_own (l : loc) (k : string) : keeps (own l k).
Proof. intros s. apply frame_refl. Qed.

Lemma keeps_prototype (l : loc) : keeps (prototype l).
Proof. intros s. apply frame_refl. Qed.

Lemma keeps_select (target : value) : keeps (select target).
Proof. intros s. apply frame_refl. Qed.

Lemma keeps_get_markup (e : elem) : keeps (get_markup e).
Proof. intros s. apply frame_refl. Qed.

Lemma keeps_set_markup (es : list elem) (t : string) : keeps (set_markup es t).
Proof. intros s. apply frame_set_content. Qed.

Lemma keeps_snap_select (target : value) : keeps (snap_select target).
Proof. intros s. unfold snap_select. destruct (snap _ _); apply frame_refl. Qed.

Lemma keeps_global_easing : keeps global_easing.
Proof. intros s. unfold global_easing. destruct (easing_global _); apply frame_refl. Qed.

Lemma keeps_emit (e : event) : keeps (emit e).
Proof. intros s. apply frame_log. Qed.

Lemma keeps_start (e : event) : keeps (start e).
Proof. intros s. unfold start. destruct (takes _ _); apply frame_log. Qed.

Lemma keeps_write (l : loc) (k : string) (v : value) : writable k v → keeps (write l k v).
Proof. intros Hw s. by apply frame_store. Qed.

Lemma keeps_bind {A B} (m : M A) (f : A → M B) :
  keeps m → (∀ a, keeps (f a)) → keeps (bind m f).
Proof.
  intros Hm Hf s. unfold bind. specialize (Hm s).
  destruct (m s) as [[a|e| |] s1]; try done.
  eapply frame_trans; [exact Hm|apply Hf].
Qed.

Lemma keeps_for_each {A} (f : A → M unit) (xs : list A) :
  (∀ x, keeps (f x)) → keeps (for_each f xs).
Proof.
  intros Hf. induction xs as [|x xs IH]; cbn.
  - apply keeps_ret.
  - apply keeps_bind; auto.
Qed.

#[local] Hint Resolve keeps_ret keeps_throw keeps_out_of_fuel keeps_unmodelled keeps_read
  keeps_own keeps_prototype keeps_select keeps_get_markup keeps_set_markup
  keeps_snap_select keeps_global_easing keeps_emit keeps_start keeps_for_each : keeps.

#[local] Hint Extern 1 (keeps (write _ _ _)) =>
  apply keeps_write; unfold writable; auto : keeps.

(** Splits a computation along its binds and branches. *)
Ltac keeps_tac :=
  repeat first
    [ progress intros
    | apply keeps_bind
    | match goal with
      | |- keeps (match ?x with _ => _ end) => destruct x
      | |- keeps (when ?b _) => unfold when
      end
    | solve [auto with keeps] ].

Lemma keeps_html_get (target : value) : keeps (html_get target).
Proof. unfold html_get. keeps_tac. Qed.

Lemma keeps_html_set (target v : value) : keeps (html_set target v).
Proof. unfold html_set. keeps_tac. Qed.

Lemma keeps_moveOutside (target direction : value) : keeps (moveOutside target direction).
Proof. unfold moveOutside. keeps_tac. Qed.

#[local] Hint Resolve keeps_html_get keeps_html_set keeps_moveOutside : keeps.

Lemma keeps_call_fun (f : func) (this : value) (args : list value) :
  keeps (call_fun f this args).
Proof. unfold call_fun. keeps_tac. Qed.

#[local] Hint Resolve keeps_call_fun : keeps.

Lemma keeps_call_prop (this : loc) (k : string) (args : list value) :
  keeps (call_prop this k args).
Proof. unfold call_prop. keeps_tac. Qed.

#[local] Hint Resolve keeps_call_prop : keeps.

Section KeepsMethods.
Variable self : meth → loc → M unit.
Hypothesis keeps_self : ∀ m l, keeps (self m l).

Lemma keeps_call_method (v : value) (m : meth) : keeps (call_method self v m).
Proof using keeps_self. unfold call_method. keeps_tac. Qed.

Hint Resolve keeps_call_method : keeps.

Lemma keeps_each_animation (this : loc) (m : meth) : keeps (each_animation self this m).
Proof using keeps_self. unfold each_animation. keeps_tac. Qed.

Hint Resolve keeps_each_animation : keeps.

Lemma keeps_finish (this : loc) : keeps (Animation.finish self this).
Proof using keeps_self. unfold Animation.finish. keeps_tac. Qed.

Lemma keeps_prepare_unguarded (this : loc) :
  keeps (Animation.prepare_unguarded self this).
Proof using keeps_self. unfold Animation.prepare_unguarded. keeps_tac. Qed.

Hint Resolve keeps_prepare_unguarded : keeps.

Lemma keeps_prepare (this : loc) : keeps (Animation.prepare self this).
Proof using keeps_self. unfold Animation.prepare. keeps_tac. Qed.

Lemma keeps_play_switch (this : loc) : keeps (Animation.play_switch self this).
Proof using keeps_self. unfold Animation.play_switch. keeps_tac. Qed.

Hint Resolve keeps_play_switch : keeps.

Lemma keeps_play (this : loc) : keeps (Animation.play self this).
Proof using keeps_self. unfold Animation.play. keeps_tac. Qed.

Lemma keeps_body (m : meth) (this : loc) : keeps (Animation.body self m this).
Proof using keeps_self.
  destruct m; cbn; unfold Animation.beforePlay, Animation.afterPlay;
    auto using keeps_play, keeps_prepare, keeps_finish with keeps.
Qed.
End KeepsMethods.

Lemma keeps_invoke (fuel : nat) (m : meth) (this : loc) :
  keeps (Animation.invoke fuel m this).
Proof.
  revert m this. induction fuel as [|fuel IH]; intros m this; cbn.
  - apply keeps_out_of_fuel.
  - by apply keeps_body.
Qed.

(** ** The cursor of the controller *)

Section KeepsNavigation.
Variable self : meth → loc → M unit.
Hypothesis keeps_self : ∀ m l, keeps (self m l).

Hint Resolve keeps_call_method : keeps.

Lemma keeps_get (step : value) (k : string) : keeps (StepCtrl.get step k).
Proof. unfold StepCtrl.get. keeps_tac. Qed.

Hint Resolve keeps_get : keeps.

Lemma keeps_leave (step : value) : keeps (StepCtrl.leave self step).
Proof using keeps_self. unfold StepCtrl.leave. keeps_tac. Qed.

Lemma keeps_execute (step : value) : keeps (StepCtrl.execute self step).
Proof using keeps_self. unfold StepCtrl.execute. keeps_tac. Qed.

Lemma keeps_reverse (step : value) : keeps (StepCtrl.reverse self step).
Proof using keeps_self. unfold StepCtrl.reverse. keeps_tac. Qed.
End KeepsNavigation.

Lemma advance_clamped (s : state) :
  StepCtrl.advance s =
  StepCtrl.move_to (Z.min (currentStep s + 1) (Z.of_nat (length (steps s)) - 1)) s.
Proof.
  unfold StepCtrl.advance, StepCtrl.move_to. cbn.
  destruct (Z.geb_spec (currentStep s + 1) (Z.of_nat (length (steps s)))).
  - by rewrite Z.min_r by lia.
  - by rewrite Z.min_l by lia.
Qed.

Lemma retreat_clamped (s : state) :
  StepCtrl.retreat s = StepCtrl.move_to (Z.max (currentStep s - 1) 0) s.
Proof.
  unfold StepCtrl.retreat, StepCtrl.move_to. cbn.
  destruct (Z.ltb_spec (currentStep s - 1) 0).
  - by rewrite Z.max_r by lia.
  - by rewrite Z.max_l by lia.
Qed.

Lemma move_to_current (s : state) : set_currentStep (currentStep s) s = s.
Proof. by destruct s. Qed.

(** The steps and the cursor as a call of [m] leaves them, given that
    [m] does not touch the controller. *)
Lemma keeps_steps {A} (m : M A) (s : state) :
  keeps m → steps (m s).2 = steps s ∧ currentStep (m s).2 = currentStep s.
Proof. intros Hm. split; apply (Hm s). Qed.

(** [nextStep] with its reads of the controller resolved. *)
Lemma nextStep_unfold (self : meth → loc → M unit) (s : state) :
  (∀ m l, keeps (self m l)) →
  let i' := Z.min (currentStep s + 1) (Z.of_nat (length (steps s)) - 1) in
  StepCtrl.nextStep self s =
  (StepCtrl.leave self (StepCtrl.nth_step (steps s) (currentStep s)) ;;
   StepCtrl.move_to i' ;;
   StepCtrl.execute self (StepCtrl.nth_step (steps s) i')) s.
Proof.
  intros Hself i'. unfold StepCtrl.nextStep. rewrite bind_current.
  destruct (keeps_steps (StepCtrl.leave self (StepCtrl.nth_step (steps s) (currentStep s))) s)
    as [Hsteps Hcur]; [by apply keeps_leave|].
  unfold bind.
  destruct (StepCtrl.leave self _ s) as [[[]|e| |] s1]; try done.
  cbn in Hsteps, Hcur. rewrite advance_clamped, Hsteps, Hcur. fold i'. cbn.
  by rewrite Hsteps.
Qed.

Lemma previousStep_unfold (self : meth → loc → M unit) (s : state) :
  (∀ m l, keeps (self m l)) →
  StepCtrl.previousStep self s =
  (StepCtrl.reverse self (StepCtrl.nth_step (steps s) (currentStep s)) ;;
   StepCtrl.move_to (Z.max (currentStep s - 1) 0)) s.
Proof.
  intros Hself. unfold StepCtrl.previousStep. rewrite bind_current.
  unfold bind.
  destruct (keeps_steps (StepCtrl.reverse self (StepCtrl.nth_step (steps s) (currentStep s))) s)
    as [Hsteps Hcur]; [by apply keeps_reverse|].
  destruct (StepCtrl.reverse self _ s) as [[[]|e| |] s1]; try done.
  cbn in Hsteps, Hcur. by rewrite retreat_clamped, Hcur.
Qed.

Lemma nextStep_in_range (fuel : nat) (s : state) :
  in_range s →
  let s' := (StepCtrl.nextStep (Animation.invoke fuel) s).2 in
  steps s' = steps s ∧ in_range s'.
Proof.
  intros Hs. rewrite nextStep_unfold by apply keeps_invoke.
  set (self := Animation.invoke fuel). set (i' := Z.min _ _).
  assert (0 ≤ i' ≤ Z.of_nat (length (steps s)) - 1) as Hi' by (unfold in_range in Hs; lia).
  destruct (keeps_steps (StepCtrl.leave self (StepCtrl.nth_step (steps s) (currentStep s))) s)
    as [Hsteps Hcur]; [apply keeps_leave, keeps_invoke|].
  unfold bind, in_range.
  destruct (StepCtrl.leave self _ s) as [[[]|e| |] s1]; cbn in *;
    try (rewrite Hsteps, Hcur; done).
  destruct (keeps_steps (StepCtrl.execute self (StepCtrl.nth_step (steps s) i'))
              (set_currentStep i' s1)) as [Hsteps2 Hcur2]; [apply keeps_execute, keeps_invoke|].
  cbn in Hsteps2, Hcur2. rewrite Hsteps2, Hcur2, Hsteps. done.
Qed.

Lemma previousStep_in_range (fuel : nat) (s : state) :
  in_range s →
  let s' := (StepCtrl.previousStep (Animation.invoke fuel) s).2 in
  steps s' = steps s ∧ in_range s'.
Proof.
  intros Hs. rewrite previousStep_unfold by apply keeps_invoke.
  set (self := Animation.invoke fuel).
  destruct (keeps_steps (StepCtrl.reverse self (StepCtrl.nth_step (steps s) (currentStep s))) s)
    as [Hsteps Hcur]; [apply keeps_reverse, keeps_invoke|].
  unfold bind, in_range in *.
  destruct (StepCtrl.reverse self _ s) as [[[]|e| |] s1]; cbn in *;
    rewrite ?Hsteps, ?Hcur; split; try done; lia.
Qed.

Lemma previousStep_cursor (fuel : nat) (s : state) :
  let self := Animation.invoke fuel in
  currentStep (StepCtrl.previousStep self s).2 =
  match (StepCtrl.reverse self (StepCtrl.nth_step (steps s) (currentStep s)) s).1 with
  | Ok _ => Z.max (currentStep s - 1) 0
  | _ => currentStep s
  end.
Proof.
  intros self.
  assert (∀ m l, keeps (self m l)) as Hself by (intros; apply keeps_invoke).
  rewrite previousStep_unfold by done. unfold bind.
  destruct (keeps_steps (StepCtrl.reverse self
                           (StepCtrl.nth_step (steps s) (currentStep s))) s)
    as [_ Hcur]; [by apply keeps_reverse|].
  destruct (StepCtrl.reverse self _ s) as [[[]|e| |] s1]; done.
Qed.

Lemma nextStep_cursor (fuel : nat) (s : state) :
  let self := Animation.invoke fuel in
  currentStep (StepCtrl.nextStep self s).2 =
  match (StepCtrl.leave self (StepCtrl.nth_step (steps s) (currentStep s)) s).1 with
  | Ok _ => Z.min (currentStep s + 1) (Z.of_nat (length (steps s)) - 1)
  | _ => currentStep s
  end.
Proof.
  intros self.
  assert (∀ m l, keeps (self m l)) as Hself by (intros; apply keeps_invoke).
  rewrite nextStep_unfold by done. unfold bind.
  destruct (keeps_steps (StepCtrl.leave self
                           (StepCtrl.nth_step (steps s) (currentStep s))) s)
    as [_ Hcur]; [by apply keeps_leave|].
  destruct (StepCtrl.leave self _ s) as [[[]|e| |] s1]; try done.
  destruct (keeps_steps (StepCtrl.execute self (StepCtrl.nth_step (steps s)
              (Z.min (currentStep s + 1) (Z.of_nat (length (steps s)) - 1))))
              (set_currentStep (Z.min (currentStep s + 1) (Z.of_nat (length (steps s)) - 1)) s1))
    as [_ Hcur2]; [by apply keeps_execute|].
  done.
Qed.

(** C1.  A controller with a non-empty step list whose cursor starts
    inside [0, steps.length-1]: after any sequence of [nextStep] and
    [previousStep] calls, in any order, the cursor is inside that range
    (and the step list is the one it started with), whether the calls
    returned or raised. *)
Theorem currentStep_stays_in_range (fuel : nat) (ns : list nav) (s : state) :
  steps s ≠ [] →
  0 ≤ currentStep s ≤ Z.of_nat (length (steps s)) - 1 →
  steps (run fuel ns s) = steps s ∧
  0 ≤ currentStep (run fuel ns s) ≤ Z.of_nat (length (steps (run fuel ns s))) - 1.
Proof.
  intros _. revert s. induction ns as [|n ns IH]; intros s Hs; cbn [run].
  - done.
  - assert (steps (navigate fuel n s).2 = steps s ∧ in_range (navigate fuel n s).2)
      as [Hsteps Hin].
    { destruct n; [by apply nextStep_in_range|by apply previousStep_in_range]. }
    destruct (IH _ Hin) as [IH1 IH2]. split; [congruence|done].
Qed.

Lemma bind_move_to_current {B} (i : Z) (f : unit → M B) (s : state) :
  currentStep s = i → bind (StepCtrl.move_to i) f s = f tt s.
Proof. intros <-. unfold bind, StepCtrl.move_to. by rewrite move_to_current. Qed.

Lemma nextStep_at_last (fuel : nat) (s : state) :
  currentStep s = Z.of_nat (length (steps s)) - 1 →
  let self := Animation.invoke fuel in
  let step := StepCtrl.nth_step (steps s) (currentStep s) in
  StepCtrl.nextStep self s = (StepCtrl.leave self step ;; StepCtrl.execute self step) s.
Proof.
  intros Hlast self step. rewrite nextStep_unfold by apply keeps_invoke.
  rewrite Z.min_r by lia. rewrite <- Hlast. fold self step.
  destruct (keeps_steps (StepCtrl.leave self step) s) as [_ Hcur];
    [apply keeps_leave, keeps_invoke|].
  unfold bind at 1 3. destruct (StepCtrl.leave self step s) as [[[]|e| |] s1]; try done.
  by rewrite bind_move_to_current.
Qed.

Lemma previousStep_at_first (fuel : nat) (s : state) :
  currentStep s = 0 →
  let self := Animation.invoke fuel in
  StepCtrl.previousStep self s = StepCtrl.reverse self (StepCtrl.nth_step (steps s) 0) s.
Proof.
  intros Hfirst self. rewrite previousStep_unfold by apply keeps_invoke.
  rewrite Hfirst. rewrite Z.max_r by lia. fold self.
  destruct (keeps_steps (StepCtrl.reverse self (StepCtrl.nth_step (steps s) 0)) s) as [_ Hcur];
    [apply keeps_reverse, keeps_invoke|].
  unfold bind. destruct (StepCtrl.reverse self _ s) as [[[]|e| |] s1]; try done.
  cbn in Hcur. unfold StepCtrl.move_to. rewrite <- Hfirst, <- Hcur. by rewrite move_to_current.
Qed.

Lemma previousStep_steps (fuel : nat) (s : state) :
  steps (StepCtrl.previousStep (Animation.invoke fuel) s).2 = steps s.
Proof.
  rewrite previousStep_unfold by apply keeps_invoke.
  destruct (keeps_steps (StepCtrl.reverse (Animation.invoke fuel)
                           (StepCtrl.nth_step (steps s) (currentStep s))) s)
    as [Hsteps _]; [apply keeps_reverse, keeps_invoke|].
  unfold bind. by destruct (StepCtrl.reverse _ _ s) as [[[]|e| |] s1].
Qed.

(** ** Steps of an unknown kind *)

Lemma unknown_kind_type (s : state) (step : value) :
  unknown_kind s step = true →
  ∃ ty, StepCtrl.get step "type" s = (Ok ty, s) ∧ StepCtrl.known_kind ty = false.
Proof.
  destruct step; cbn; intros Hu; try done; try (by exists VUndef).
  exists (prop s l "type"). split; [done|]. by apply negb_true_iff.
Qed.

Lemma execute_unknown (self : meth → loc → M unit) (s : state) (step : value) :
  unknown_kind s step = true → StepCtrl.execute self step s = (Ok tt, report step s).
Proof.
  intros (ty & Hget & Hty)%unknown_kind_type. unfold StepCtrl.execute, bind at 1.
  rewrite Hget. unfold StepCtrl.known_kind in Hty.
  apply orb_false_iff in Hty as [[-> ->]%orb_false_iff ->]. done.
Qed.

Lemma reverse_unknown (self : meth → loc → M unit) (s : state) (step : value) :
  unknown_kind s step = true → StepCtrl.reverse self step s = (Ok tt, report step s).
Proof.
  intros (ty & Hget & Hty)%unknown_kind_type. unfold StepCtrl.reverse, bind at 1.
  rewrite Hget. unfold StepCtrl.known_kind in Hty.
  apply orb_false_iff in Hty as [[-> ->]%orb_false_iff ->]. done.
Qed.

Lemma unknown_kind_frame (s s' : state) (step : value) :
  frame s s' → unknown_kind s' step = unknown_kind s step.
Proof.
  intros Hf. destruct step; try done. cbn. by rewrite (frame_prop _ _ _ _ Hf).
Qed.

(** C4, as the code has it.  When the step [previousStep] reverses, or
    the step [nextStep] reaches, is of a kind other than prevPage,
    nextPage and anim, the call writes the error and the step to the
    console and does nothing else for that step: no page navigation, no
    method of an animation.  The cursor moves as it does for every other
    step: down by one, to 0 at the least, after the report of
    [previousStep]; up by one, to the last index at the most, before the
    report of [nextStep] and after the first phase of [nextStep] has left
    the step the cursor was on. *)
Theorem unknown_step_kind_is_reported (fuel : nat) (s : state) :
  let self := Animation.invoke fuel in
  let i := currentStep s in
  let up := Z.min (i + 1) (Z.of_nat (length (steps s)) - 1) in
  let down := Z.max (i - 1) 0 in
  (unknown_kind s (StepCtrl.nth_step (steps s) i) = true →
   StepCtrl.previousStep self s =
     (Ok tt, set_currentStep down (report (StepCtrl.nth_step (steps s) i) s))) ∧
  (unknown_kind s (StepCtrl.nth_step (steps s) up) = true →
   StepCtrl.nextStep self s =
     (StepCtrl.leave self (StepCtrl.nth_step (steps s) i) ;;
      λ s1, (Ok tt, report (StepCtrl.nth_step (steps s) up) (set_currentStep up s1))) s).
Proof.
  intros self i up down.
  assert (∀ m l, keeps (self m l)) as Hself by (intros; apply keeps_invoke).
  split; intros Hu.
  - rewrite previousStep_unfold by done. fold i down. unfold bind.
    by rewrite reverse_unknown.
  - rewrite nextStep_unfold by done. fold i up. unfold bind.
    pose proof (keeps_leave self Hself (StepCtrl.nth_step (steps s) i) s) as Hf.
    destruct (StepCtrl.leave self _ s) as [[[]|e| |] s1]; try done.
    cbn. apply execute_unknown.
    rewrite <- Hu. exact (unknown_kind_frame s s1 _ Hf).
Qed.

(** ** The constructor *)

(** The [for ... in] loop writes every pair of [options] over what the
    object holds, but for a pair under the name [__proto__]. *)
Lemma copy_options_lookup (this options : gmap string value) (k : string) :
  map_fold Animation.assign this options !! k =
  match options !! k with
  | Some v => if String.eqb k "__proto__" then this !! k else Some v
  | None => this !! k
  end.
Proof.
  revert k.
  apply (map_fold_weak_ind
           (λ r m, ∀ k, r !! k = match m !! k with
                                 | Some v => if String.eqb k "__proto__" then this !! k
                                             else Some v
                                 | None => this !! k
                                 end)).
  - intros k. by rewrite lookup_empty.
  - intros i x m r Hi IH k. unfold Animation.assign.
    destruct (decide (i = k)) as [->|Hne].
    + rewrite lookup_insert_eq. destruct (String.eqb k "__proto__").
      * by rewrite IH, Hi.
      * by rewrite lookup_insert_eq.
    + rewrite (lookup_insert_ne m) by done.
      destruct (String.eqb i "__proto__"); [apply IH|].
      rewrite lookup_insert_ne by done. apply IH.
Qed.

(** C10, as the code has it.  Right after construction [ready] and
    [played] are false whatever [options] holds, and the three custom
    hooks and [moveOutside] are the constructor's own functions whatever
    [options] holds.  Every other pair of [options], but one under the
    name [__proto__], is on the instance, also under the names type,
    target, duration and easing; a name [options] does not use keeps the
    argument, with 500 and "swing" for an [undefined] duration and
    easing.  [new] stores the instance at a location that was free. *)
Theorem constructor_copies_options (type target duration easing : value)
    (options : option (gmap string value)) :
  let this := Animation.constructor type target duration easing options in
  let given := default ∅ options in
  this !! "ready" = Some (VBool false) ∧
  this !! "played" = Some (VBool false) ∧
  this !! "playCustomAnimation" = Some (VFun FEmpty) ∧
  this !! "prepareCustomAnimation" = Some (VFun FEmpty) ∧
  this !! "finishCustomAnimation" = Some (VFun FEmpty) ∧
  this !! "moveOutside" = Some (VFun FMoveOutside) ∧
  (∀ k v, given !! k = Some v → assigned_after_options k = false → k ≠ "__proto__" →
          this !! k = Some v) ∧
  (given !! "type" = None → this !! "type" = Some type) ∧
  (given !! "target" = None → this !! "target" = Some target) ∧
  (given !! "duration" = None →
   this !! "duration" = Some (Animation.or_default duration (VNum 500))) ∧
  (given !! "easing" = None →
   this !! "easing" = Some (Animation.or_default easing (VStr "swing"))) ∧
  (Animation.prototype_stays given = true →
   ∀ s, ∃ l, (Animation.new type target duration easing options s).1 = Ok l ∧
             heap s !! l = None ∧
             object (Animation.new type target duration easing options s).2 l =
               Obj AnimationPrototype this).
Proof.
  intros this given. subst this. unfold Animation.constructor. fold given. cbv zeta.
  repeat split.
  - by rewrite !lookup_insert_ne, lookup_insert_eq by done.
  - by rewrite !lookup_insert_ne, lookup_insert_eq by done.
  - by rewrite !lookup_insert_ne, lookup_insert_eq by done.
  - by rewrite !lookup_insert_ne, lookup_insert_eq by done.
  - by rewrite !lookup_insert_ne, lookup_insert_eq by done.
  - by rewrite lookup_insert_eq.
  - intros k v Hk Hnot Hproto. unfold assigned_after_options in Hnot.
    apply bool_decide_eq_false in Hnot.
    rewrite !lookup_insert_ne by (intros <-; apply Hnot; set_solver).
    rewrite copy_options_lookup, Hk.
    by destruct (String.eqb_spec k "__proto__").
  - intros Hk. rewrite !lookup_insert_ne by done.
    rewrite copy_options_lookup, Hk. by rewrite !lookup_insert_ne, lookup_insert_eq by done.
  - intros Hk. rewrite !lookup_insert_ne by done.
    rewrite copy_options_lookup, Hk. by rewrite !lookup_insert_ne, lookup_insert_eq by done.
  - intros Hk. rewrite !lookup_insert_ne by done.
    rewrite copy_options_lookup, Hk. by rewrite !lookup_insert_ne, lookup_insert_eq by done.
  - intros Hk. rewrite !lookup_insert_ne by done.
    rewrite copy_options_lookup, Hk. by rewrite lookup_insert_eq.
  - intros Hkeeps s. exists (fresh (dom (heap s))). unfold Animation.new. fold given.
    rewrite Hkeeps. split; [done|]. split.
    + apply not_elem_of_dom, is_fresh.
    + unfold object. cbn. by rewrite lookup_insert_eq.
Qed.

(** ** Running the methods on a symbolic state *)

Lemma intact_spec (s : state) (l : loc) :
  intact s l = true ↔
  obj_proto (object s l) = AnimationPrototype ∧
  (∀ m, m ∈ [Play; Prepare; Finish] → obj_props (object s l) !! meth_name m = None) ∧
  (∀ m, m ∈ [BeforePlay; AfterPlay] →
        obj_props (object s l) !! meth_name m = None ∨
        ∃ f, obj_props (object s l) !! meth_name m = Some (VFun f)).
Proof.
  unfold intact. destruct (obj_proto _); [by split; [|intros []]|].
  rewrite andb_true_iff, !forallb_forall. split.
  - intros [Hcore Hhook]. split; [done|]. split.
    + intros m Hm%list_elem_of_In. specialize (Hcore m Hm). by destruct (_ !! meth_name m).
    + intros m Hm%list_elem_of_In. specialize (Hhook m Hm).
      destruct (_ !! meth_name m) as [[| | | | |f| |]|]; try done; [right; by exists f|by left].
  - intros (_ & Hcore & Hhook). split.
    + intros m Hm%list_elem_of_In. by rewrite (Hcore m Hm).
    + intros m Hm%list_elem_of_In. by destruct (Hhook m Hm) as [->|[f ->]].
Qed.

Lemma intact_frame (s s' : state) (l : loc) :
  frame s s' → intact s' l = intact s l.
Proof.
  intros Hf. unfold intact. rewrite (frame_proto _ _ Hf). cbn [forallb meth_name].
  by rewrite !(frame_props _ _ Hf) by done.
Qed.

Lemma intact_store (l l' : loc) (k : string) (v : value) (s : state) :
  writable k v → intact (store l k v s) l' = intact s l'.
Proof. intros Hw. by apply intact_frame, frame_store. Qed.

Lemma intact_log (e : event) (s : state) (l : loc) : intact (log e s) l = intact s l.
Proof. done. Qed.

Lemma intact_set_content (c : gmap elem string) (s : state) (l : loc) :
  intact (set_content c s) l = intact s l.
Proof. done. Qed.

Lemma intact_hooked (l : loc) (m : meth) (s : state) (l' : loc) :
  intact (hooked l m s) l' = intact s l'.
Proof. done. Qed.

Lemma prop_hooked (l : loc) (m : meth) (s : state) (l' : loc) (k : string) :
  prop (hooked l m s) l' k = prop s l' k.
Proof. done. Qed.

Lemma host_hooked (l : loc) (m : meth) (s : state) : host (hooked l m s) = host s.
Proof. done. Qed.

Lemma content_hooked (l : loc) (m : meth) (s : state) : content (hooked l m s) = content s.
Proof. done. Qed.

Lemma trace_hooked (l : loc) (m : meth) (s : state) :
  trace (hooked l m s) = trace s ++ hook_events s l m.
Proof. done. Qed.

Lemma frame_hooked (l : loc) (m : meth) (s : state) : frame s (hooked l m s).
Proof. by split. Qed.

Lemma hook_events_frame (s s' : state) (l : loc) (m : meth) :
  frame s s' → hook_events s' l m = hook_events s l m.
Proof.
  intros Hf. unfold hook_events. by rewrite (frame_props _ _ Hf) by (by destruct m).
Qed.

Lemma hook_events_silent (s : state) (l : loc) (m : meth) :
  Forall (λ e, visual e = false) (hook_events s l m).
Proof.
  unfold hook_events.
  destruct (_ !! meth_name m) as [[| | | | |[| |name]| |]|]; repeat constructor.
Qed.

Lemma prop_set_content (c : gmap elem string) (s : state) (l : loc) (k : string) :
  prop (set_content c s) l k = prop s l k.
Proof. done. Qed.

Lemma prop_store_other (l l' : loc) (k k' : string) (v : value) (s : state) :
  k ≠ k' → prop (store l k v s) l' k' = prop s l' k'.
Proof. intros Hne. apply prop_store_ne. by right. Qed.

Lemma host_store (l : loc) (k : string) (v : value) (s : state) :
  host (store l k v s) = host s.
Proof. done. Qed.

Lemma host_log (e : event) (s : state) : host (log e s) = host s.
Proof. done. Qed.

Lemma host_set_content (c : gmap elem string) (s : state) : host (set_content c s) = host s.
Proof. done. Qed.

Lemma content_store (l : loc) (k : string) (v : value) (s : state) :
  content (store l k v s) = content s.
Proof. done. Qed.

Lemma content_log (e : event) (s : state) : content (log e s) = content s.
Proof. done. Qed.

Lemma content_set_content (c : gmap elem string) (s : state) :
  content (set_content c s) = c.
Proof. done. Qed.

Lemma trace_store (l : loc) (k : string) (v : value) (s : state) :
  trace (store l k v s) = trace s.
Proof. done. Qed.

Lemma trace_log (e : event) (s : state) : trace (log e s) = trace s ++ [e].
Proof. done. Qed.

(** On an intact instance a call of [play], [prepare] or [finish] runs
    the prototype's method, and a call of a hook returns. *)
Lemma call_method_core (self : meth → loc → M unit) (l : loc) (m : meth) (s : state) :
  intact s l = true →
  m ∈ [Play; Prepare; Finish] →
  call_method self (VRef l) m s = self m l (log (Invoke l m) s).
Proof.
  intros (Hproto & Hcore & _)%intact_spec Hm. unfold call_method.
  by rewrite bind_own, (Hcore m Hm), bind_prototype, Hproto, bind_emit.
Qed.

Lemma set_trace_nil (s : state) : set_trace (trace s ++ []) s = s.
Proof. destruct s. unfold set_trace. cbn. by rewrite app_nil_r. Qed.

Lemma call_hook (fuel : nat) (l : loc) (m : meth) (s : state) :
  intact s l = true →
  m ∈ [BeforePlay; AfterPlay] →
  call_method (Animation.invoke (S fuel)) (VRef l) m s = (Ok tt, hooked l m s).
Proof.
  intros (Hproto & _ & Hhook)%intact_spec Hm. unfold call_method, hooked, hook_events.
  rewrite bind_own. destruct (Hhook m Hm) as [->|[f ->]].
  - rewrite bind_prototype, Hproto, bind_emit, invoke_S.
    apply elem_of_cons in Hm as [->|Hm]; [done|].
    by apply list_elem_of_singleton in Hm as ->.
  - destruct f as [| |name]; [| |done]; cbn; by rewrite set_trace_nil.
Qed.

(** The side conditions of the two lemmas above. *)
Ltac intact_tac :=
  first [ done
        | apply list_elem_of_In; cbn; tauto
        | autorewrite with js; done ].

Create Rewrite HintDb js.
#[local] Hint Rewrite prop_store_eq prop_log prop_set_content prop_hooked host_store host_log
  host_set_content host_hooked content_store content_log content_set_content content_hooked
  intact_log intact_set_content intact_hooked : js.
#[local] Hint Rewrite prop_store_other using discriminate : js.
#[local] Hint Rewrite intact_store using (unfold writable; auto) : js.

(** ** Change-text animations *)

Lemma markup_fill (t : string) (es : list elem) (c : gmap elem string) (e : elem) :
  e ∈ es → markup (fill t es c) e = t.
Proof.
  unfold markup. induction es as [|e' es IH]; cbn; [by intros ?%elem_of_nil|].
  intros [->|Hin]%elem_of_cons.
  - by rewrite lookup_insert_eq.
  - destruct (decide (e' = e)) as [->|Hne].
    + by rewrite lookup_insert_eq.
    + rewrite lookup_insert_ne by done. by apply IH.
Qed.

Lemma html_get_shown (target : value) (s : state) :
  html_get target s = (Ok (shown s target), s).
Proof. unfold html_get, shown, bind, select. cbn. by destruct (jq _ _). Qed.

Lemma html_set_written (target v : value) (s : state) :
  string_or_undefined v = true → html_set target v s = (Ok tt, written target v s).
Proof. by destruct v. Qed.

Lemma prop_written (target v : value) (s : state) (l : loc) (k : string) :
  prop (written target v s) l k = prop s l k.
Proof. by destruct v. Qed.

Lemma host_written (target v : value) (s : state) : host (written target v s) = host s.
Proof. by destruct v. Qed.

Lemma intact_written (target v : value) (s : state) (l : loc) :
  intact (written target v s) l = intact s l.
Proof. by destruct v. Qed.

Lemma content_written (target : value) (t : string) (s : state) :
  content (written target (VStr t) s) = fill t (jq (host s) target) (content s).
Proof. done. Qed.

#[local] Hint Rewrite prop_written host_written intact_written content_written : js.

Lemma prop_finished (this : loc) (s : state) (l : loc) (k : string) :
  prop (finished this s) l k = prop s l k.
Proof. done. Qed.

Lemma host_finished (this : loc) (s : state) : host (finished this s) = host s.
Proof. done. Qed.

Lemma content_finished (this : loc) (s : state) : content (finished this s) = content s.
Proof. done. Qed.

Lemma intact_finished (this : loc) (s : state) (l : loc) :
  intact (finished this s) l = intact s l.
Proof. done. Qed.

Lemma shown_finished (this : loc) (s : state) (target : value) :
  shown (finished this s) target = shown s target.
Proof. done. Qed.

#[local] Hint Rewrite prop_finished host_finished content_finished intact_finished
  shown_finished : js.

Lemma finish_jquery (fuel : nat) (this : loc) (s : state) :
  jquery_kind (prop s this "type") = true →
  Animation.invoke (S fuel) Finish this s = (Ok tt, log (JqFinish (prop s this "target")) s).
Proof.
  intros Hk. cbn [Animation.invoke Animation.body]. unfold Animation.finish.
  rewrite bind_read. destruct (prop s this "type") as [| | | |x| | |]; try done.
  cbn in Hk. apply andb_true_iff in Hk as [[Hsvg Hset]%andb_true_iff Hcustom].
  apply negb_true_iff in Hsvg, Hset, Hcustom.
  rewrite bind_ret, Hsvg. cbn [is_str]. rewrite Hset, Hcustom.
  by rewrite bind_read.
Qed.

Lemma call_finish_jquery (fuel : nat) (this : loc) (s : state) :
  intact s this = true →
  jquery_kind (prop s this "type") = true →
  call_method (Animation.invoke (S fuel)) (VRef this) Finish s = (Ok tt, finished this s).
Proof.
  intros Hintact Hk. rewrite call_method_core by intact_tac.
  rewrite finish_jquery by (by rewrite prop_log). by rewrite prop_log.
Qed.

Lemma prepare_unguarded_text (fuel : nat) (this : loc) (s : state) :
  intact s this = true →
  prop s this "type" = VStr "changeText" →
  string_or_undefined (prop s this "__old_text") = true →
  Animation.prepare_unguarded (Animation.invoke (S fuel)) this s = (Ok tt, prepared this s).
Proof.
  intros Hintact Htype Hold. unfold Animation.prepare_unguarded, prepared.
  unfold bind at 1. rewrite call_finish_jquery by (by rewrite ?Htype).
  rewrite bind_read, prop_finished, Htype.
  change (kind_of (VStr "changeText")) with KChangeText. cbv iota.
  rewrite bind_assoc, bind_read, prop_finished.
  destruct (prop s this "__old_text") as [| | | |old| | |] eqn:Hold'; try done.
  rewrite !bind_assoc, bind_read, prop_finished.
  rewrite bind_assoc. unfold bind at 1. by rewrite html_get_shown.
Qed.

Lemma prepare_guards (self : meth → loc → M unit) (this : loc) (s : state) :
  Animation.prepare self this s =
  if truthy (prop s this "late_prepare") && negb (truthy (prop s this "ready"))
  then (Ok tt, s)
  else if truthy (prop s this "no_reverse") && truthy (prop s this "ready")
          && truthy (prop s this "played")
       then (Ok tt, s)
       else Animation.prepare_unguarded self this s.
Proof.
  unfold Animation.prepare. rewrite !bind_read.
  destruct (_ && negb _); [done|]. rewrite !bind_read. by destruct (_ && _ && _).
Qed.

Lemma frame_written (target v : value) (s : state) : frame s (written target v s).
Proof.
  destruct v; try apply frame_refl. cbn.
  eapply frame_trans; [apply frame_set_content|apply frame_log].
Qed.

Lemma frame_finished (this : loc) (s : state) : frame s (finished this s).
Proof. eapply frame_trans; apply frame_log. Qed.

Lemma frame_prepared (this : loc) (s : state) : frame s (prepared this s).
Proof.
  unfold prepared. eapply frame_trans; [|apply frame_store; unfold writable; auto].
  eapply frame_trans; [apply frame_finished|].
  destruct (prop s this "__old_text"); try apply frame_written.
  apply frame_store. unfold writable; auto.
Qed.

Lemma frame_armed (this : loc) (s : state) : frame s (armed this s).
Proof.
  unfold armed. eapply frame_trans; [|apply frame_log].
  eapply frame_trans; apply frame_store; unfold writable; auto.
Qed.

Lemma frame_switched (this : loc) (s : state) : frame s (switched this s).
Proof.
  unfold switched. eapply frame_trans; [|apply frame_log].
  eapply frame_trans; [|apply frame_log].
  eapply frame_trans; [|apply frame_written].
  apply frame_store. unfold writable; auto.
Qed.

Lemma frame_played_text (this : loc) (s : state) : frame s (played_text this s).
Proof.
  unfold played_text. eapply frame_trans; [|apply frame_hooked].
  eapply frame_trans; [|apply frame_store; unfold writable; auto].
  eapply frame_trans; [|apply frame_switched].
  eapply frame_trans; [apply frame_hooked|].
  destruct (truthy _); [|apply frame_refl].
  eapply frame_trans; [apply frame_armed|apply frame_prepared].
Qed.

(** A state built from [s] by the updates above is in the frame of [s]. *)
Ltac frame_tac :=
  lazymatch goal with
  | |- frame ?s ?s => apply frame_refl
  | H : frame ?s ?x |- frame ?s ?x => exact H
  | |- frame ?s (log _ ?x) => apply (frame_trans s x); [frame_tac|apply frame_log]
  | |- frame ?s (hooked _ _ ?x) => apply (frame_trans s x); [frame_tac|apply frame_hooked]
  | |- frame ?s (store _ _ _ ?x) =>
      apply (frame_trans s x); [frame_tac|apply frame_store; unfold writable; auto]
  | |- frame ?s (written _ _ ?x) => apply (frame_trans s x); [frame_tac|apply frame_written]
  | |- frame ?s (finished _ ?x) => apply (frame_trans s x); [frame_tac|apply frame_finished]
  | |- frame ?s (prepared _ ?x) => apply (frame_trans s x); [frame_tac|apply frame_prepared]
  | |- frame ?s (armed _ ?x) => apply (frame_trans s x); [frame_tac|apply frame_armed]
  | |- frame ?s (switched _ ?x) => apply (frame_trans s x); [frame_tac|apply frame_switched]
  | |- frame ?s (played_text _ ?x) =>
      apply (frame_trans s x); [frame_tac|apply frame_played_text]
  | |- frame ?s (if ?b then _ else _) => destruct b; frame_tac
  end.

(** What [prepared] holds. *)
Lemma old_text_prepared (this : loc) (s : state) :
  prop (prepared this s) this "__old_text" =
  match prop s this "__old_text" with
  | VUndef => shown s (prop s this "target")
  | old => old
  end.
Proof.
  unfold prepared. rewrite prop_store_other by done.
  destruct (prop s this "__old_text") eqn:Hold;
    rewrite ?prop_written, ?prop_finished, ?prop_store_eq; done.
Qed.

Lemma content_prepared (this : loc) (s : state) :
  content (prepared this s) =
  match prop s this "__old_text" with
  | VStr t => fill t (jq (host s) (prop s this "target")) (content s)
  | _ => content s
  end.
Proof. unfold prepared. by destruct (prop s this "__old_text"). Qed.

Lemma ready_prepared (this : loc) (s : state) :
  prop (prepared this s) this "ready" = VBool true.
Proof. unfold prepared. apply prop_store_eq. Qed.

(** What [switched] holds. *)
Lemma old_text_switched (this : loc) (s : state) :
  prop (switched this s) this "__old_text" = shown s (prop s this "target").
Proof. unfold switched. by rewrite !prop_log, prop_written, prop_store_eq. Qed.

Lemma content_switched (this : loc) (s : state) :
  content (switched this s) =
  match prop s this "text" with
  | VStr t => fill t (jq (host s) (prop s this "target")) (content s)
  | _ => content s
  end.
Proof. unfold switched. by destruct (prop s this "text"). Qed.

Lemma play_switch_text (self : meth → loc → M unit) (this : loc) (s : state) :
  prop s this "type" = VStr "changeText" →
  string_or_undefined (prop s this "text") = true →
  Animation.play_switch self this s = (Ok tt, switched this s).
Proof.
  intros Htype Htext. unfold Animation.play_switch. rewrite bind_read, Htype.
  change (kind_of (VStr "changeText")) with KChangeText. cbv iota.
  rewrite bind_read. unfold bind at 1. rewrite html_get_shown.
  rewrite bind_write, !bind_read. autorewrite with js.
  unfold bind at 1. rewrite html_set_written by done. done.
Qed.

Lemma play_text (fuel : nat) (this : loc) (s : state) :
  intact s this = true →
  prop s this "type" = VStr "changeText" →
  string_or_undefined (prop s this "text") = true →
  (truthy (prop s this "late_prepare") = true →
   string_or_undefined (prop s this "__old_text") = true) →
  Animation.invoke (S (S (S fuel))) Play this s = (Ok tt, played_text this s).
Proof.
  intros Hintact Htype Htext Hold. rewrite invoke_S. cbn [Animation.body].
  unfold Animation.play, played_text.
  set (s1 := hooked this BeforePlay s).
  unfold bind at 1. rewrite call_hook by intact_tac. fold s1.
  rewrite bind_read. change (prop s1 this "late_prepare") with (prop s this "late_prepare").
  assert (∀ s2, frame s s2 →
                (Animation.play_switch (Animation.invoke (S (S fuel))) this ;;
                 write this "played" (VBool true) ;;
                 call_method (Animation.invoke (S (S fuel))) (VRef this) AfterPlay) s2
                = (Ok tt, hooked this AfterPlay
                            (store this "played" (VBool true) (switched this s2)))) as Hrest.
  { intros s2 Hf. unfold bind at 1. rewrite play_switch_text;
      [|by rewrite (frame_prop _ _ _ _ Hf)..].
    rewrite bind_write. apply call_hook; [|intact_tac].
    rewrite intact_store by (unfold writable; auto).
    rewrite (intact_frame s); [done|].
    eapply frame_trans; [exact Hf|apply frame_switched]. }
  destruct (truthy (prop s this "late_prepare")) eqn:Hlate; cbn [when].
  - repeat first [rewrite bind_assoc | rewrite bind_write].
    unfold bind at 1. rewrite call_method_core
      by first [by rewrite !intact_store by (unfold writable; auto) | intact_tac].
    fold (armed this s1). rewrite invoke_S. cbn [Animation.body].
    rewrite prepare_guards.
    assert (prop (armed this s1) this "ready" = VBool true) as ->.
    { unfold armed. by autorewrite with js. }
    assert (prop (armed this s1) this "played" = VBool false) as ->.
    { unfold armed. by autorewrite with js. }
    cbn [truthy negb]. rewrite !andb_false_r.
    rewrite prepare_unguarded_text.
    + apply Hrest. eapply frame_trans; [|apply frame_prepared].
      eapply frame_trans; [apply frame_hooked|apply frame_armed].
    + rewrite (intact_frame s); [done|].
      eapply frame_trans; [apply frame_hooked|apply frame_armed].
    + unfold armed. by autorewrite with js.
    + unfold armed. autorewrite with js. by apply Hold.
  - rewrite bind_ret. apply Hrest. apply frame_hooked.
Qed.

Lemma old_text_played_text (this : loc) (s : state) :
  prop (played_text this s) this "__old_text" =
  let target := prop s this "target" in
  if truthy (prop s this "late_prepare")
  then shown (prepared this (armed this (hooked this BeforePlay s))) target
  else shown s target.
Proof.
  unfold played_text. rewrite prop_hooked, prop_store_other by done.
  rewrite old_text_switched. destruct (truthy _).
  - rewrite (frame_prop s) by (done || frame_tac). reflexivity.
  - reflexivity.
Qed.

Lemma shown_cons (s : state) (target : value) (e : elem) (es : list elem) :
  jq (host s) target = e :: es → shown s target = VStr (markup (content s) e).
Proof. unfold shown. by intros ->. Qed.

Lemma host_frame (s s' : state) : frame s s' → host s' = host s.
Proof. apply frame_host. Qed.

(** C8, as the code has it.  [play()] on an intact change-text instance stores
    in [__old_text] what the target shows when the switch is reached,
    with no test of what [__old_text] holds, and then writes [text] into
    every element of the target.  Without [late_prepare] that is what the
    target shows at the call, so an earlier capture is overwritten.  With
    [late_prepare] the prepare pass of the same call has just written the
    earlier capture back, so that capture is what is stored again. *)
Theorem play_changeText_captures (fuel : nat) (s : state) (this : loc) :
  intact s this = true →
  prop s this "type" = VStr "changeText" →
  string_or_undefined (prop s this "text") = true →
  string_or_undefined (prop s this "__old_text") = true →
  let target := prop s this "target" in
  let s' := played_text this s in
  Animation.invoke (S (S (S fuel))) Play this s = (Ok tt, s') ∧
  (truthy (prop s this "late_prepare") = false →
   prop s' this "__old_text" = shown s target) ∧
  (truthy (prop s this "late_prepare") = true →
   prop s' this "__old_text" =
   match jq (host s) target, prop s this "__old_text" with
   | [], _ => VUndef
   | _ :: _, VStr old => VStr old
   | _ :: _, _ => shown s target
   end) ∧
  (∀ t e, prop s this "text" = VStr t → e ∈ jq (host s) target →
          markup (content s') e = t).
Proof.
  intros Hintact Htype Htext Hold target s'. split; [|split; [|split]].
  - by apply play_text.
  - intros Hlate. unfold s'. by rewrite old_text_played_text, Hlate.
  - intros Hlate. unfold s'. rewrite old_text_played_text, Hlate. cbv zeta.
    unfold shown at 1. rewrite (host_frame s) by frame_tac.
    fold target. destruct (jq (host s) target) as [|e es] eqn:Hjq; [done|].
    rewrite content_prepared. unfold armed at 1. autorewrite with js.
    destruct (prop s this "__old_text") as [| | | |old| | |] eqn:Ho; try done.
    + by rewrite (shown_cons _ _ _ _ Hjq).
    + unfold armed. autorewrite with js. fold target. rewrite Hjq.
      rewrite markup_fill; [done|]. apply elem_of_cons. by left.
  - intros t e Ht He. unfold s', played_text.
    rewrite content_hooked, content_store, content_switched.
    set (s2 := if truthy _ then _ else _).
    assert (frame s s2) as Hf by (unfold s2; frame_tac).
    rewrite !(frame_prop s s2), (host_frame s s2), Ht by done.
    by apply markup_fill.
Qed.

Lemma prepare_text (fuel : nat) (this : loc) (s : state) :
  intact s this = true →
  prop s this "type" = VStr "changeText" →
  truthy (prop s this "no_reverse") = false →
  string_or_undefined (prop s this "__old_text") = true →
  Animation.invoke (S (S fuel)) Prepare this s =
  (Ok tt, if truthy (prop s this "late_prepare") && negb (truthy (prop s this "ready"))
          then s else prepared this s).
Proof.
  intros Hintact Htype Hno Hold. rewrite invoke_S. cbn [Animation.body].
  rewrite prepare_guards, Hno. destruct (_ && negb _); [done|].
  cbn [andb]. by apply prepare_unguarded_text.
Qed.

Lemma ready_played_text (this : loc) (s : state) :
  truthy (prop s this "late_prepare") = true →
  prop (played_text this s) this "ready" = VBool true.
Proof.
  intros Hlate. unfold played_text. rewrite Hlate.
  rewrite prop_hooked, prop_store_other by done.
  apply (frame_ready _ _ (frame_switched this _)), ready_prepared.
Qed.

(** C7, as the code has it.  An intact change-text instance without
    [no_reverse] that has captured nothing yet, on a target that selects
    at least one element: [prepare(); play(); prepare()] returns, and
    afterwards every element of the target shows what the first element
    showed before the first [prepare()]; that markup is what
    [__old_text] holds. *)
Theorem changeText_round_trip (fuel : nat) (s : state) (this : loc)
    (e : elem) (es : list elem) :
  intact s this = true →
  prop s this "type" = VStr "changeText" →
  truthy (prop s this "no_reverse") = false →
  prop s this "__old_text" = VUndef →
  string_or_undefined (prop s this "text") = true →
  jq (host s) (prop s this "target") = e :: es →
  let call m := Animation.invoke (S (S (S fuel))) m this in
  ∃ s', (call Prepare ;; call Play ;; call Prepare) s = (Ok tt, s') ∧
        prop s' this "__old_text" = VStr (markup (content s) e) ∧
        ∀ e', e' ∈ e :: es → markup (content s') e' = markup (content s) e.
Proof.
  intros Hintact Htype Hno Hold Htext Hjq call. subst call.
  set (target := prop s this "target") in *.
  set (original := markup (content s) e).
  (* the first prepare() *)
  set (s1 := if truthy (prop s this "late_prepare") && negb (truthy (prop s this "ready"))
             then s else prepared this s).
  assert (frame s s1) as Hf1.
  { unfold s1. destruct (_ && _); [apply frame_refl|apply frame_prepared]. }
  assert (content s1 = content s) as Hc1.
  { unfold s1. destruct (_ && _); [done|]. by rewrite content_prepared, Hold. }
  assert (string_or_undefined (prop s1 this "__old_text") = true) as Hold1.
  { unfold s1. destruct (_ && _); [by rewrite Hold|].
    rewrite old_text_prepared, Hold. fold target. by rewrite (shown_cons _ _ _ _ Hjq). }
  (* play() *)
  set (s2 := played_text this s1).
  assert (frame s s2) as Hf2.
  { eapply frame_trans; [exact Hf1|apply frame_played_text]. }
  assert (prop s2 this "__old_text" = VStr original) as Hold2.
  { unfold s2. rewrite old_text_played_text. cbv zeta.
    rewrite !(frame_prop s s1) by done. fold target.
    destruct (truthy (prop s this "late_prepare")) eqn:Hlate.
    - assert (jq (host (prepared this (armed this (hooked this BeforePlay s1)))) target
              = e :: es) as Hjq'.
      { rewrite (host_frame s); [done|]. frame_tac. }
      rewrite (shown_cons _ _ _ _ Hjq'). f_equal.
      rewrite content_prepared. unfold armed. autorewrite with js.
      rewrite (frame_prop s s1 this "target"), (host_frame s s1), Hc1 by done.
      fold target. unfold s1. cbn [andb]. destruct (truthy (prop s this "ready")); cbn [negb].
      + rewrite old_text_prepared, Hold. fold target.
        rewrite (shown_cons _ _ _ _ Hjq), Hjq. apply markup_fill, elem_of_cons. by left.
      + by rewrite Hold.
    - assert (jq (host s1) target = e :: es) as Hjq' by (by rewrite (host_frame s)).
      by rewrite (shown_cons _ _ _ _ Hjq'), Hc1. }
  (* the second prepare() *)
  assert (truthy (prop s2 this "late_prepare") && negb (truthy (prop s2 this "ready")) = false)
    as Hguard.
  { rewrite (frame_prop s s2) by done.
    destruct (truthy (prop s this "late_prepare")) eqn:Hlate; [|done].
    unfold s2. rewrite ready_played_text; [done|]. by rewrite (frame_prop s s1). }
  exists (prepared this s2). split; [|split].
  - unfold bind at 1. rewrite (prepare_text (S fuel)) by (by rewrite ?Hold). fold s1.
    unfold bind at 1. rewrite play_text
      by (rewrite ?(intact_frame s s1), ?(frame_prop s s1) by done; done).
    fold s2. rewrite (prepare_text (S fuel))
      by (rewrite ?(intact_frame s s2), ?(frame_prop s s2), ?Hold2 by done; done).
    by rewrite Hguard.
  - by rewrite old_text_prepared, Hold2.
  - intros e' He'. rewrite content_prepared, Hold2.
    rewrite (frame_prop s s2), (host_frame s s2) by done. fold target. rewrite Hjq.
    by apply markup_fill.
Qed.

(** ** Deferred preparation *)

Lemma play_late_prepare (fuel : nat) (this : loc) (s : state) :
  intact s this = true →
  truthy (prop s this "late_prepare") = true →
  Animation.invoke (S (S fuel)) Play this s =
  (Animation.prepare_unguarded (Animation.invoke fuel) this ;;
   Animation.play_switch (Animation.invoke (S fuel)) this ;;
   write this "played" (VBool true) ;;
   call_method (Animation.invoke (S fuel)) (VRef this) AfterPlay)
    (armed this (hooked this BeforePlay s)).
Proof.
  intros Hintact Hlate. rewrite invoke_S. cbn [Animation.body]. unfold Animation.play.
  unfold bind at 1. rewrite call_hook by intact_tac.
  rewrite bind_read, prop_hooked, Hlate. cbn [when].
  repeat first [rewrite bind_assoc | rewrite bind_write].
  unfold bind at 1. rewrite call_method_core
    by first [by rewrite !intact_store by (unfold writable; auto) | intact_tac].
  fold (armed this (hooked this BeforePlay s)).
  set (s0 := armed this (hooked this BeforePlay s)).
  rewrite invoke_S. cbn [Animation.body]. rewrite prepare_guards.
  assert (prop s0 this "ready" = VBool true) as ->.
  { unfold s0, armed. by autorewrite with js. }
  assert (prop s0 this "played" = VBool false) as ->.
  { unfold s0, armed. by autorewrite with js. }
  cbn [truthy negb]. by rewrite !andb_false_r.
Qed.

Lemma prop_same_heap (s s' : state) (l : loc) (k : string) :
  heap s' = heap s → prop s' l k = prop s l k.
Proof. intros Hh. unfold prop, object. by rewrite Hh. Qed.

(** A call of [beforePlay] or [afterPlay], overridden or not, writes to
    no object. *)
Lemma hook_call_heap (fuel : nat) (v : value) (hook : meth) (s : state) :
  hook = BeforePlay ∨ hook = AfterPlay →
  heap (call_method (Animation.invoke fuel) v hook s).2 = heap s.
Proof.
  intros Hhook. destruct v as [| | | | | |l|]; try done.
  unfold call_method. rewrite bind_own.
  destruct (obj_props (object s l) !! meth_name hook) as [[| | | | |[| |name]| |]|]; try done.
  rewrite bind_prototype. destruct (obj_proto (object s l)); [done|].
  rewrite bind_emit. destruct fuel as [|fuel]; [done|].
  by destruct Hhook as [-> | ->].
Qed.

(** After a [play()] that returned, on any instance with [late_prepare]
    set, both flags are true. *)
Lemma play_late_prepare_flags (fuel : nat) (this : loc) (s s' : state) :
  truthy (prop s this "late_prepare") = true →
  Animation.invoke fuel Play this s = (Ok tt, s') →
  frame s s' ∧ prop s' this "ready" = VBool true ∧ prop s' this "played" = VBool true.
Proof.
  intros Hlate Hplay.
  split; [pose proof (keeps_invoke fuel Play this s) as Hf; by rewrite Hplay in Hf|].
  destruct fuel as [|fuel]; [done|]. rewrite invoke_S in Hplay. cbn [Animation.body] in Hplay.
  unfold Animation.play in Hplay. set (self := Animation.invoke fuel) in *.
  assert (∀ m l, keeps (self m l)) as Hself by (intros; apply keeps_invoke).
  (* beforePlay *)
  unfold bind at 1 in Hplay.
  pose proof (hook_call_heap fuel (VRef this) BeforePlay s (or_introl eq_refl)) as Hh1.
  fold self in Hh1.
  destruct (call_method self (VRef this) BeforePlay s) as [[[]|?| |] s1]; try done.
  cbn [snd] in Hh1.
  rewrite bind_read, (prop_same_heap s s1), Hlate in Hplay by done. cbn [when] in Hplay.
  (* the prepare pass *)
  rewrite !bind_assoc, bind_write, bind_assoc, bind_write in Hplay.
  set (s2 := store this "played" (VBool false) (store this "ready" (VBool true) s1)) in Hplay.
  assert (prop s2 this "ready" = VBool true) as Hr2.
  { unfold s2. by rewrite prop_store_other, prop_store_eq. }
  unfold bind at 1 in Hplay.
  pose proof (keeps_call_method self Hself (VRef this) Prepare s2) as Hf3.
  destruct (call_method self (VRef this) Prepare s2) as [[[]|?| |] s3]; try done.
  (* the switch *)
  unfold bind at 1 in Hplay.
  pose proof (keeps_play_switch self Hself this s3) as Hf4.
  destruct (Animation.play_switch self this s3) as [[[]|?| |] s4]; try done.
  cbn [snd] in Hf3, Hf4.
  (* played = true; afterPlay *)
  rewrite bind_write in Hplay.
  pose proof (hook_call_heap fuel (VRef this) AfterPlay
                (store this "played" (VBool true) s4) (or_intror eq_refl)) as Hh5.
  fold self in Hh5. rewrite Hplay in Hh5. cbn [snd] in Hh5.
  rewrite !(prop_same_heap _ s' this _ Hh5).
  split; [|apply prop_store_eq].
  rewrite prop_store_other by done.
  apply (frame_ready _ _ Hf4), (frame_ready _ _ Hf3), Hr2.
Qed.

(** C6, as the code has it.  An animation with [late_prepare] set: while
    [ready] is false, [prepare()] returns at its first guard and the
    state is what it was.  After a [play()] that returned, [ready] and
    [played] are both true; a later [prepare()] then runs its whole body
    unless [no_reverse] is set, in which case it returns at the second
    guard.  On an intact instance [play()] sets [ready], clears [played]
    and at once runs the whole body of [prepare()], before its own
    switch. *)
Theorem late_prepare_defers (fuel : nat) (s : state) (this : loc) :
  truthy (prop s this "late_prepare") = true →
  (truthy (prop s this "ready") = false →
   Animation.invoke (S fuel) Prepare this s = (Ok tt, s)) ∧
  (∀ s', Animation.invoke fuel Play this s = (Ok tt, s') →
         prop s' this "ready" = VBool true ∧
         prop s' this "played" = VBool true ∧
         ∀ n, Animation.invoke (S n) Prepare this s' =
              if truthy (prop s' this "no_reverse") then (Ok tt, s')
              else Animation.prepare_unguarded (Animation.invoke n) this s') ∧
  (intact s this = true →
   Animation.invoke (S (S fuel)) Play this s =
     (Animation.prepare_unguarded (Animation.invoke fuel) this ;;
      Animation.play_switch (Animation.invoke (S fuel)) this ;;
      write this "played" (VBool true) ;;
      call_method (Animation.invoke (S fuel)) (VRef this) AfterPlay)
       (armed this (hooked this BeforePlay s))).
Proof.
  intros Hlate. split; [|split].
  - intros Hready. rewrite invoke_S. cbn [Animation.body].
    by rewrite prepare_guards, Hlate, Hready.
  - intros s' Hplay.
    destruct (play_late_prepare_flags fuel this s s' Hlate Hplay) as (Hf & Hready & Hplayed).
    split; [done|]. split; [done|].
    intros n. rewrite invoke_S. cbn [Animation.body]. rewrite prepare_guards.
    rewrite Hready, Hplayed, (frame_prop s s'), Hlate by done.
    cbn [truthy negb andb]. by rewrite !andb_true_r.
  - intros Hintact. by apply play_late_prepare.
Qed.

(** ** Unsupported kinds *)

Lemma play_tail_unsupported (fuel : nat) (this : loc) (s : state) :
  intact s this = true →
  kind_of (prop s this "type") = KUnsupported →
  (Animation.play_switch (Animation.invoke (S fuel)) this ;;
   write this "played" (VBool true) ;;
   call_method (Animation.invoke (S fuel)) (VRef this) AfterPlay) s
  = (Ok tt, reported_unsupported this s).
Proof.
  intros Hintact Hkind. unfold bind at 1, Animation.play_switch.
  rewrite bind_read, Hkind, bind_emit. unfold emit at 1.
  rewrite bind_write. apply call_hook; [|intact_tac].
  by rewrite intact_store by (unfold writable; auto).
Qed.

Lemma trace_reported_unsupported (this : loc) (s0 s : state) :
  frame s0 s →
  trace (reported_unsupported this s) =
  trace s ++ [ConsoleError "Unsupported animation: "; ConsoleLog (VRef this)]
          ++ hook_events s0 this AfterPlay.
Proof.
  intros Hf. unfold reported_unsupported.
  rewrite trace_hooked, trace_store, !trace_log, <- !app_assoc.
  rewrite (hook_events_frame s0); [done|]. frame_tac.
Qed.

Lemma prepare_unguarded_unsupported (fuel : nat) (this : loc) (s : state) :
  intact s this = true →
  kind_of (prop s this "type") = KUnsupported →
  jquery_kind (prop s this "type") = true →
  Animation.prepare_unguarded (Animation.invoke (S fuel)) this s =
  (Ok tt, store this "ready" (VBool true) (finished this s)).
Proof.
  intros Hintact Hkind Hjq. unfold Animation.prepare_unguarded.
  unfold bind at 1. rewrite call_finish_jquery by done.
  by rewrite bind_read, prop_finished, Hkind, bind_ret.
Qed.

(** C9, as the code has it.  [play()] on an intact instance whose kind
    is none of the supported ones.  Without [late_prepare] the call
    returns, having written the error and the animation to the console
    between the two hooks and having set [played]; it hands nothing to
    the page, and the markup of the page is what it was.  With
    [late_prepare], and a kind whose [finish()] is jQuery's, the prepare
    pass comes first: [finish()] is applied to the target, [ready] is
    set, and then the same report follows. *)
Theorem play_unsupported_kind (fuel : nat) (s : state) (this : loc) :
  intact s this = true →
  kind_of (prop s this "type") = KUnsupported →
  let before := hook_events s this BeforePlay in
  let report := [ConsoleError "Unsupported animation: "; ConsoleLog (VRef this)]
                ++ hook_events s this AfterPlay in
  (truthy (prop s this "late_prepare") = false →
   let s' := reported_unsupported this (hooked this BeforePlay s) in
   Animation.invoke (S (S fuel)) Play this s = (Ok tt, s') ∧
   trace s' = trace s ++ before ++ report ∧
   Forall (λ e, visual e = false) (before ++ report) ∧
   prop s' this "played" = VBool true ∧
   content s' = content s) ∧
  (truthy (prop s this "late_prepare") = true →
   jquery_kind (prop s this "type") = true →
   let s' := reported_unsupported this
               (store this "ready" (VBool true)
                  (finished this (armed this (hooked this BeforePlay s)))) in
   Animation.invoke (S (S (S fuel))) Play this s = (Ok tt, s') ∧
   trace s' = trace s ++ before
                ++ [Invoke this Prepare; Invoke this Finish; JqFinish (prop s this "target")]
                ++ report ∧
   prop s' this "played" = VBool true ∧
   content s' = content s).
Proof.
  intros Hintact Hkind before report. split.
  - intros Hlate s'. split; [|split; [|split; [|split]]].
    + rewrite invoke_S. cbn [Animation.body]. unfold Animation.play.
      unfold bind at 1. rewrite call_hook by intact_tac.
      rewrite bind_read, prop_hooked, Hlate. cbn [when]. rewrite bind_ret.
      by apply play_tail_unsupported.
    + unfold s'. rewrite (trace_reported_unsupported this s) by frame_tac.
      by rewrite trace_hooked, <- !app_assoc.
    + apply Forall_app. split; [apply hook_events_silent|].
      apply Forall_app. split; [by repeat constructor|apply hook_events_silent].
    + unfold s', reported_unsupported. by rewrite prop_hooked, prop_store_eq.
    + done.
  - intros Hlate Hjq s'.
    set (s0 := armed this (hooked this BeforePlay s)).
    assert (frame s s0) as Hf0 by (unfold s0; frame_tac).
    split; [|split; [|split]].
    + rewrite play_late_prepare by done. fold s0.
      unfold bind at 1. rewrite prepare_unguarded_unsupported
        by (rewrite ?(intact_frame s s0), ?(frame_prop s s0) by done; done).
      apply play_tail_unsupported.
      * rewrite intact_store by (unfold writable; auto).
        by rewrite intact_finished, (intact_frame s s0).
      * by rewrite prop_store_other, prop_finished, (frame_prop s s0).
    + unfold s'. fold s0. rewrite (trace_reported_unsupported this s) by frame_tac.
      unfold finished. rewrite trace_store, !trace_log, (frame_prop s s0) by done.
      unfold s0, armed. rewrite trace_log, !trace_store, trace_hooked.
      by rewrite <- !app_assoc.
    + unfold s', reported_unsupported. by rewrite prop_hooked, prop_store_eq.
    + done.
Qed.

(** * The properties on the sample page *)

Lemma currentStep_stays_in_range_witness :
  steps (Sample.deck 0) ≠ [] ∧
  0 ≤ currentStep (Sample.deck 0) ≤ Z.of_nat (length (steps (Sample.deck 0))) - 1 ∧
  0 ≤ currentStep (run 4 [Next; Next; Next; Next; Previous] (Sample.deck 0)) ≤ 3.
Proof.
  assert (steps (Sample.deck 0) ≠ []) as H1 by done.
  assert (0 ≤ currentStep (Sample.deck 0) ≤ Z.of_nat (length (steps (Sample.deck 0))) - 1)
    as H2 by (cbn; lia).
  split; [exact H1|]. split; [exact H2|].
  destruct (currentStep_stays_in_range 4 [Next; Next; Next; Next; Previous]
              (Sample.deck 0) H1 H2) as [Hs Hc].
  rewrite Hs in Hc. exact Hc.
Defined.

Lemma unknown_step_kind_is_reported_witness :
  unknown_kind (Sample.bogus_deck 1) (VRef 2%positive) = true ∧
  StepCtrl.previousStep (Animation.invoke 1) (Sample.bogus_deck 1) =
    (Ok tt, set_currentStep 0 (report (VRef 2%positive) (Sample.bogus_deck 1))) ∧
  StepCtrl.nextStep (Animation.invoke 1) (Sample.bogus_deck 0) =
    (Ok tt, report (VRef 2%positive) (set_currentStep 1 (Sample.bogus_deck 0))).
Proof.
  split; [reflexivity|].
  destruct (unknown_step_kind_is_reported 1 (Sample.bogus_deck 1)) as [Hprev _].
  destruct (unknown_step_kind_is_reported 1 (Sample.bogus_deck 0)) as [_ Hnext].
  split; [exact (Hprev eq_refl)|].
  rewrite (Hnext eq_refl). reflexivity.
Defined.

Lemma prepare_no_reverse_noop_witness :
  Animation.invoke 1 Prepare 1%positive Sample.one_way = (Ok tt, Sample.one_way).
Proof.
  exact (proj1 (prepare_no_reverse_noop Sample.one_way 1%positive 0 eq_refl eq_refl eq_refl)).
Defined.

Lemma late_prepare_defers_witness :
  let s' := (Animation.invoke 3 Play 1%positive Sample.late).2 in
  Animation.invoke 1 Prepare 1%positive Sample.late = (Ok tt, Sample.late) ∧
  Animation.invoke 3 Play 1%positive Sample.late = (Ok tt, s') ∧
  prop s' 1%positive "ready" = VBool true ∧
  prop s' 1%positive "played" = VBool true ∧
  Animation.invoke 2 Prepare 1%positive s' =
    Animation.prepare_unguarded (Animation.invoke 1) 1%positive s'.
Proof.
  intros s'.
  assert (Animation.invoke 3 Play 1%positive Sample.late = (Ok tt, s')) as Hok
    by (vm_compute; reflexivity).
  destruct (late_prepare_defers 0 Sample.late 1%positive eq_refl) as (Hdefer & _ & _).
  destruct (late_prepare_defers 3 Sample.late 1%positive eq_refl) as (_ & Hafter & _).
  destruct (Hafter s' Hok) as (Hready & Hplayed & Hlater).
  split; [exact (Hdefer eq_refl)|]. split; [exact Hok|].
  split; [exact Hready|]. split; [exact Hplayed|].
  exact (Hlater 1%nat).
Defined.

Lemma changeText_round_trip_witness :
  ∃ s', (Animation.invoke 3 Prepare 1%positive ;; Animation.invoke 3 Play 1%positive ;;
         Animation.invoke 3 Prepare 1%positive) Sample.text_swap = (Ok tt, s') ∧
        prop s' 1%positive "__old_text" = VStr "old" ∧
        markup (content s') 1%nat = "old"%string.
Proof.
  destruct (changeText_round_trip 0 Sample.text_swap 1%positive 1%nat []
              eq_refl eq_refl eq_refl eq_refl eq_refl eq_refl) as (s' & Hrun & Hold & Hshow).
  exists s'. split; [exact Hrun|]. split; [exact Hold|].
  apply Hshow, elem_of_cons. by left.
Defined.

Lemma play_changeText_captures_witness :
  Animation.invoke 3 Play 1%positive Sample.text_swap =
    (Ok tt, played_text 1%positive Sample.text_swap) ∧
  prop (played_text 1%positive Sample.text_swap) 1%positive "__old_text" = VStr "old" ∧
  markup (content (played_text 1%positive Sample.text_swap)) 1%nat = "hi"%string.
Proof.
  destruct (play_changeText_captures 0 Sample.text_swap 1%positive
              eq_refl eq_refl eq_refl eq_refl) as (Hrun & Hold & _ & Hshow).
  split; [exact Hrun|]. split; [exact (Hold eq_refl)|].
  apply (Hshow "hi"%string 1%nat eq_refl), elem_of_cons. by left.
Defined.

Lemma play_unsupported_kind_witness :
  (Animation.invoke 2 Play 1%positive Sample.bogus_counted).1 = Ok tt ∧
  trace (Animation.invoke 2 Play 1%positive Sample.bogus_counted).2 =
    [Invoke 1%positive BeforePlay; ConsoleError "Unsupported animation: ";
     ConsoleLog (VRef 1%positive); HostCall "count" (VRef 1%positive) []] ∧
  prop (Animation.invoke 2 Play 1%positive Sample.bogus_counted).2 1%positive "played"
    = VBool true ∧
  (Animation.invoke 3 Play 1%positive Sample.late_bogus).1 = Ok tt ∧
  trace (Animation.invoke 3 Play 1%positive Sample.late_bogus).2 =
    [Invoke 1%positive BeforePlay; Invoke 1%positive Prepare; Invoke 1%positive Finish;
     JqFinish (VStr "#a"); ConsoleError "Unsupported animation: ";
     ConsoleLog (VRef 1%positive); Invoke 1%positive AfterPlay].
Proof.
  destruct (play_unsupported_kind 0 Sample.bogus_counted 1%positive eq_refl eq_refl)
    as [Hplain _].
  destruct (play_unsupported_kind 0 Sample.late_bogus 1%positive eq_refl eq_refl)
    as [_ Hlate].
  destruct (Hplain eq_refl) as (Hrun & Htrace & _ & Hplayed & _).
  destruct (Hlate eq_refl eq_refl) as (Hrun' & Htrace' & _).
  rewrite Hrun, Hrun'.
  split; [reflexivity|]. split; [exact Htrace|]. split; [exact Hplayed|].
  split; [reflexivity|exact Htrace'].
Defined.

Lemma constructor_copies_options_witness :
  let options : gmap string value := {[ "type" := VStr "fadeOut"; "ready" := VBool true ]} in
  let this := Animation.constructor (VStr "fadeIn") (VStr "#a") VUndef VUndef (Some options) in
  this !! "ready" = Some (VBool false) ∧
  this !! "type" = Some (VStr "fadeOut") ∧
  this !! "target" = Some (VStr "#a") ∧
  this !! "duration" = Some (VNum 500) ∧
  this !! "easing" = Some (VStr "swing") ∧
  ∃ l, (Animation.new (VStr "fadeIn") (VStr "#a") VUndef VUndef (Some options)
          Sample.late).1 = Ok l.
Proof.
  intros options this.
  destruct (constructor_copies_options (VStr "fadeIn") (VStr "#a") VUndef VUndef (Some options))
    as (Hready & _ & _ & _ & _ & _ & Hcopy & _ & Htarget & Hduration & Heasing & Hnew).
  split; [exact Hready|].
  split; [exact (Hcopy "type"%string _ eq_refl eq_refl ltac:(discriminate))|].
  split; [exact (Htarget eq_refl)|]. split; [exact (Hduration eq_refl)|].
  split; [exact (Heasing eq_refl)|].
  destruct (Hnew eq_refl Sample.late) as (l & Hl & _). by exists l.
Defined.

(** ** Where the specification and the code part *)

(** C4 as stated fails: the cursor is on the step of the unknown kind,
    [previousStep] reports it and the cursor is on 0 afterwards;
    [nextStep] from 0 reaches that step, reports it, and the cursor is
    on 1 afterwards. *)
Lemma unknown_step_kind_moves_cursor :
  unknown_kind (Sample.bogus_deck 1) (StepCtrl.nth_step (steps (Sample.bogus_deck 1)) 1) = true ∧
  currentStep (StepCtrl.previousStep (Animation.invoke 1) (Sample.bogus_deck 1)).2
    ≠ currentStep (Sample.bogus_deck 1) ∧
  currentStep (StepCtrl.nextStep (Animation.invoke 1) (Sample.bogus_deck 0)).2
    ≠ currentStep (Sample.bogus_deck 0).
Proof. split; [reflexivity|]. split; vm_compute; discriminate. Qed.

(** C6 as stated fails: with [no_reverse] next to [late_prepare], the
    [prepare()] that follows a [play()] changes nothing, while the body
    of [prepare()] would have called [finish()] and hidden the target. *)
Lemma late_prepare_no_reverse_stays_noop :
  let s' := (Animation.invoke 3 Play 1%positive Sample.late_one_way).2 in
  Animation.invoke 3 Play 1%positive Sample.late_one_way = (Ok tt, s') ∧
  Animation.invoke 3 Prepare 1%positive s' = (Ok tt, s') ∧
  trace (Animation.prepare_unguarded (Animation.invoke 2) 1%positive s').2 =
    trace s' ++ [Invoke 1%positive Finish; JqFinish (VStr "#a");
                 JqCss (VStr "#a") "visibility" "hidden"].
Proof. intros s'. split; [|split]; vm_compute; reflexivity. Qed.

(** C7 as stated fails: with [no_reverse] the last [prepare()] of
    [prepare(); play(); prepare()] returns at its guard, and the target
    still shows [text]. *)
Lemma round_trip_blocked_by_no_reverse :
  let run3 := (Animation.invoke 3 Prepare 1%positive ;; Animation.invoke 3 Play 1%positive ;;
               Animation.invoke 3 Prepare 1%positive) Sample.text_swap_one_way in
  markup (content Sample.text_swap_one_way) 1%nat = "old"%string ∧
  run3.1 = Ok tt ∧
  prop run3.2 1%positive "__old_text" = VStr "old" ∧
  markup (content run3.2) 1%nat = "hi"%string.
Proof. intros run3. split; [|split; [|split]]; vm_compute; reflexivity. Qed.

(** C8 as stated fails: after [prepare(); play()] the capture is "old";
    a second [play()] replaces it with what the target shows then. *)
Lemma play_overwrites_capture :
  let s2 := ((Animation.invoke 3 Prepare 1%positive ;; Animation.invoke 3 Play 1%positive)
               Sample.text_swap).2 in
  prop s2 1%positive "__old_text" = VStr "old" ∧
  (Animation.invoke 3 Play 1%positive s2).1 = Ok tt ∧
  prop (Animation.invoke 3 Play 1%positive s2).2 1%positive "__old_text" = VStr "hi".
Proof. intros s2. split; [|split]; vm_compute; reflexivity. Qed.

(** C9 as stated fails: with [late_prepare] set, [play()] on an
    unsupported kind runs [finish()] first.  For a kind that starts with
    "svg" on a page without a matching element that call raises: nothing
    is written to the console, [played] stays false and [afterPlay] is
    not called.  For any other unsupported kind jQuery's [finish()] is
    applied to the target before the error is reported. *)
Lemma play_unsupported_late_prepare :
  let r := Animation.invoke 3 Play 1%positive Sample.late_svg_bogus in
  let r' := Animation.invoke 3 Play 1%positive Sample.late_bogus in
  kind_of (prop Sample.late_svg_bogus 1%positive "type") = KUnsupported ∧
  r.1 = Throw TypeError ∧
  prop r.2 1%positive "played" = VBool false ∧
  trace r.2 = [Invoke 1%positive BeforePlay; Invoke 1%positive Prepare;
               Invoke 1%positive Finish] ∧
  kind_of (prop Sample.late_bogus 1%positive "type") = KUnsupported ∧
  filter (λ e, visual e = true) (trace r'.2) = [JqFinish (VStr "#a")].
Proof.
  intros r r'. split; [|split; [|split; [|split; [|split]]]]; vm_compute; reflexivity.
Qed.

(** C10 as stated fails: a [playCustomAnimation] passed in [options] is
    not on the instance, which holds the constructor's empty function. *)
Lemma constructor_resets_custom_hooks :
  let options : gmap string value := {[ "playCustomAnimation" := VFun (FHost "spin") ]} in
  options !! "playCustomAnimation" = Some (VFun (FHost "spin")) ∧
  Animation.constructor (VStr "custom") (VStr "#a") VUndef VUndef (Some options)
    !! "playCustomAnimation" = Some (VFun FEmpty).
Proof. intros options. split; vm_compute; reflexivity. Qed.

(** * The rest of the script *)

(** ** Sequences of calls *)

Lemma bind_ok {A B} (m : M A) (f : A → M B) (s s' : state) (b : B) :
  bind m f s = (Ok b, s') → ∃ a s1, m s = (Ok a, s1) ∧ f a s1 = (Ok b, s').
Proof.
  unfold bind. destruct (m s) as [[a|e| |] s1]; try done. intros Hf. by exists a, s1.
Qed.

Lemma bind_not_ok {A B} (m : M A) (f : A → M B) (s : state) :
  (∀ a s1, m s = (Ok a, s1) → ∀ b, (f a s1).1 ≠ Ok b) → ∀ b, (bind m f s).1 ≠ Ok b.
Proof.
  intros Hf b. unfold bind. destruct (m s) as [[a|e| |] s1] eqn:Hm; try done.
  by apply Hf.
Qed.

Lemma bind_ext {A B} (m : M A) (f g : A → M B) (s : state) :
  (∀ a s1, f a s1 = g a s1) → bind m f s = bind m g s.
Proof. intros Hfg. unfold bind. destruct (m s) as [[a|e| |] s1]; try done. Qed.

Lemma for_each_app {A} (f : A → M unit) (xs ys : list A) (s : state) :
  for_each f (xs ++ ys) s = (for_each f xs ;; for_each f ys) s.
Proof.
  revert s. induction xs as [|x xs IH]; intros s; [done|].
  cbn [app for_each]. rewrite bind_assoc. apply bind_ext. intros _ s1. apply IH.
Qed.

(** ** Relations every call respects *)

(** The methods are written once over a relation [R] that holds across
    the primitives; what holds of [invoke], of [init] and of the two
    navigation calls then follows for each such relation. *)

Create HintDb respects.
Create HintDb respects_ok.

(** Splits a computation along its binds and branches. *)
Ltac respects_step bind_lemma :=
  first
    [ progress intros
    | apply bind_lemma
    | match goal with
      | |- respects _ (match ?x with _ => _ end) => destruct x
      | |- respects _ (when ?b _) => unfold when
      end
    | solve [auto with respects] ].

Section Respects.
Variable R : state → state → Prop.
Hypothesis R_refl : ∀ s, R s s.
Hypothesis R_trans : ∀ s1 s2 s3, R s1 s2 → R s2 s3 → R s1 s3.

Lemma respects_same {A} (m : M A) : (∀ s, (m s).2 = s) → respects R m.
Proof using R_refl. intros Hm s. rewrite Hm. apply R_refl. Qed.

Lemma respects_bind {A B} (m : M A) (f : A → M B) :
  respects R m → (∀ a, respects R (f a)) → respects R (bind m f).
Proof using R_trans.
  intros Hm Hf s. unfold bind. specialize (Hm s).
  destruct (m s) as [[a|e| |] s1]; try done.
  eapply R_trans; [exact Hm|apply Hf].
Qed.

Lemma respects_ret {A} (a : A) : respects R (ret a).
Proof using R_refl. by apply respects_same. Qed.

Lemma respects_throw {A} (e : exn) : respects R (@throw A e).
Proof using R_refl. by apply respects_same. Qed.

Lemma respects_out_of_fuel {A} : respects R (@out_of_fuel A).
Proof using R_refl. by apply respects_same. Qed.

Lemma respects_unmodelled {A} : respects R (@unmodelled A).
Proof using R_refl. by apply respects_same. Qed.

Lemma respects_read (l : loc) (k : string) : respects R (read l k).
Proof using R_refl. by apply respects_same. Qed.

Lemma respects_own (l : loc) (k : string) : respects R (own l k).
Proof using R_refl. by apply respects_same. Qed.

Lemma respects_prototype (l : loc) : respects R (prototype l).
Proof using R_refl. by apply respects_same. Qed.

Lemma respects_select (target : value) : respects R (select target).
Proof using R_refl. by apply respects_same. Qed.

Lemma respects_get_markup (e : elem) : respects R (get_markup e).
Proof using R_refl. by apply respects_same. Qed.

Lemma respects_snap_select (target : value) : respects R (snap_select target).
Proof using R_refl.
  apply respects_same. intros s. unfold snap_select. by destruct (snap _ _).
Qed.

Lemma respects_global_easing : respects R global_easing.
Proof using R_refl.
  apply respects_same. intros s. unfold global_easing. by destruct (easing_global _).
Qed.

Lemma respects_current : respects R StepCtrl.current.
Proof using R_refl. by apply respects_same. Qed.

Lemma respects_for_each {A} (f : A → M unit) (xs : list A) :
  (∀ x, respects R (f x)) → respects R (for_each f xs).
Proof using R_refl R_trans.
  intros Hf. induction xs as [|x xs IH]; cbn.
  - apply respects_ret.
  - apply respects_bind; auto.
Qed.

Hint Resolve respects_ret respects_throw respects_out_of_fuel respects_unmodelled
  respects_read respects_own respects_prototype respects_select respects_get_markup
  respects_snap_select respects_global_easing respects_current respects_for_each : respects.

Ltac respects_tac := repeat respects_step respects_bind.

Lemma respects_html_get (target : value) : respects R (html_get target).
Proof using R_refl R_trans. unfold html_get. respects_tac. Qed.

Lemma respects_get (step : value) (k : string) : respects R (StepCtrl.get step k).
Proof using R_refl. unfold StepCtrl.get. respects_tac. Qed.

Lemma respects_is_anim (ty : value) : respects R (StepCtrl.is_anim ty).
Proof using R_refl R_trans. unfold StepCtrl.is_anim. respects_tac. Qed.

Hint Resolve respects_html_get respects_get respects_is_anim : respects.

(** *** The calls that only write to the trace *)

Hypothesis R_log : ∀ e s, page_call e = false → R s (log e s).

Lemma respects_emit (e : event) : page_call e = false → respects R (emit e).
Proof using R_log. intros He s. by apply R_log. Qed.

Hint Extern 1 (respects _ (emit _)) => apply respects_emit; reflexivity : respects.

Lemma respects_start (e : event) : page_call e = false → respects R (start e).
Proof using R_log. intros He s. unfold start. destruct (takes _ _); by apply R_log. Qed.

Hint Extern 1 (respects _ (start _)) => apply respects_start; reflexivity : respects.

Lemma respects_moveOutside (target direction : value) :
  respects R (moveOutside target direction).
Proof using R_refl R_trans R_log. unfold moveOutside. respects_tac. Qed.

Hint Resolve respects_moveOutside : respects.

Lemma respects_call_fun (f : func) (this : value) (args : list value) :
  respects R (call_fun f this args).
Proof using R_refl R_trans R_log. unfold call_fun. respects_tac. Qed.

Hint Resolve respects_call_fun : respects.

Lemma respects_call_prop (this : loc) (k : string) (args : list value) :
  respects R (call_prop this k args).
Proof using R_refl R_trans R_log. unfold call_prop. respects_tac. Qed.

Hint Resolve respects_call_prop : respects.

(** *** The methods, given what the methods they call respect *)

Variable allowed : meth → Prop.
Variable self : meth → loc → M unit.
Hypothesis R_self : ∀ m l, allowed m → respects R (self m l).

Lemma respects_call_method (v : value) (m : meth) :
  allowed m → respects R (call_method self v m).
Proof using R_refl R_trans R_log R_self. intros Hm. unfold call_method. respects_tac. Qed.

Hint Resolve respects_call_method : respects.

Lemma respects_each_animation (this : loc) (m : meth) :
  allowed m → respects R (each_animation self this m).
Proof using R_refl R_trans R_log R_self. intros Hm. unfold each_animation. respects_tac. Qed.

Hint Resolve respects_each_animation : respects.

Lemma respects_finish (this : loc) :
  allowed Finish → respects R (Animation.finish self this).
Proof using R_refl R_trans R_log R_self. intros Hm. unfold Animation.finish. respects_tac. Qed.

Lemma respects_leave (step : value) :
  allowed Finish → respects R (StepCtrl.leave self step).
Proof using R_refl R_trans R_log R_self. intros Hm. unfold StepCtrl.leave. respects_tac. Qed.

(** *** The methods that write to the page and to the flags *)

Hypothesis R_content : ∀ c s, R s (set_content c s).

Lemma respects_set_markup (es : list elem) (t : string) : respects R (set_markup es t).
Proof using R_content. intros s. apply R_content. Qed.

Hint Resolve respects_set_markup : respects.

Lemma respects_html_set (target v : value) : respects R (html_set target v).
Proof using R_refl R_trans R_log R_content. unfold html_set. respects_tac. Qed.

Hint Resolve respects_html_set : respects.

Lemma respects_prepare_unguarded (this : loc) :
  allowed Finish → allowed Prepare →
  (∀ v, respects R (write this "__old_text" v)) →
  respects R (write this "ready" (VBool true)) →
  respects R (Animation.prepare_unguarded self this).
Proof using R_refl R_trans R_log R_self R_content.
  intros Hf Hp Hold Hready. unfold Animation.prepare_unguarded. respects_tac.
Qed.

Hint Resolve respects_prepare_unguarded : respects.

Lemma respects_prepare (this : loc) :
  allowed Finish → allowed Prepare →
  (∀ v, respects R (write this "__old_text" v)) →
  respects R (write this "ready" (VBool true)) →
  respects R (Animation.prepare self this).
Proof using R_refl R_trans R_log R_self R_content.
  intros Hf Hp Hold Hready. unfold Animation.prepare. respects_tac.
Qed.

Lemma respects_play_switch (this : loc) :
  allowed Play →
  (∀ v, respects R (write this "__old_text" v)) →
  respects R (Animation.play_switch self this).
Proof using R_refl R_trans R_log R_self R_content.
  intros Hp Hold. unfold Animation.play_switch. respects_tac.
Qed.

Hint Resolve respects_play_switch : respects.

Lemma respects_play (this : loc) :
  (∀ m, allowed m) →
  (∀ v, respects R (write this "__old_text" v)) →
  respects R (write this "ready" (VBool true)) →
  (∀ b, respects R (write this "played" (VBool b))) →
  respects R (Animation.play self this).
Proof using R_refl R_trans R_log R_self R_content.
  intros Hall Hold Hready Hplayed. unfold Animation.play. respects_tac.
Qed.

Lemma respects_body (m : meth) (this : loc) :
  (∀ m, allowed m) →
  (∀ l v, respects R (write l "__old_text" v)) →
  (∀ l, respects R (write l "ready" (VBool true))) →
  (∀ l b, respects R (write l "played" (VBool b))) →
  respects R (Animation.body self m this).
Proof using R_refl R_trans R_log R_self R_content.
  intros Hall Hold Hready Hplayed.
  destruct m; cbn; unfold Animation.beforePlay, Animation.afterPlay;
    auto using respects_play, respects_prepare, respects_finish with respects.
Qed.

(** *** The controller *)

Lemma respects_init_step (step : value) :
  allowed Prepare → respects R (StepCtrl.init_step self step).
Proof using R_refl R_trans R_log R_self. intros Hm. unfold StepCtrl.init_step. respects_tac. Qed.

Lemma respects_init : allowed Prepare → respects R (StepCtrl.init self).
Proof using R_refl R_trans R_log R_self.
  intros Hm s. unfold StepCtrl.init.
  apply (respects_for_each (StepCtrl.init_step self) (steps s)).
  intros step. by apply respects_init_step.
Qed.

Hypothesis R_cursor : ∀ i s, R s (set_currentStep i s).

Lemma respects_advance : respects R StepCtrl.advance.
Proof using R_trans R_cursor.
  intros s. unfold StepCtrl.advance. cbv zeta.
  destruct (_ >=? _); cbn; [|apply R_cursor].
  eapply R_trans; apply R_cursor.
Qed.

Lemma respects_retreat : respects R StepCtrl.retreat.
Proof using R_trans R_cursor.
  intros s. unfold StepCtrl.retreat. cbv zeta.
  destruct (_ <? _); cbn; [|apply R_cursor].
  eapply R_trans; apply R_cursor.
Qed.

Hint Resolve respects_leave respects_advance respects_retreat : respects.

Lemma respects_reverse (step : value) :
  allowed Prepare → respects R (emit PreviousPage) →
  respects R (StepCtrl.reverse self step).
Proof using R_refl R_trans R_log R_self.
  intros Hm Hpage. unfold StepCtrl.reverse. respects_tac.
Qed.

Lemma respects_execute (step : value) :
  allowed Play → respects R (emit NextPage) →
  respects R (StepCtrl.execute self step).
Proof using R_refl R_trans R_log R_self.
  intros Hm Hpage. unfold StepCtrl.execute. respects_tac.
Qed.

Hint Resolve respects_reverse respects_execute : respects.

Lemma respects_previousStep :
  allowed Prepare → respects R (emit PreviousPage) →
  respects R (StepCtrl.previousStep self).
Proof using R_refl R_trans R_log R_self R_cursor.
  intros Hm Hpage. unfold StepCtrl.previousStep. respects_tac.
Qed.

Lemma respects_nextStep :
  allowed Finish → allowed Play → respects R (emit NextPage) →
  respects R (StepCtrl.nextStep self).
Proof using R_refl R_trans R_log R_self R_cursor.
  intros Hf Hp Hpage. unfold StepCtrl.nextStep. respects_tac.
Qed.
(** *** Calls that return *)

Lemma respects_ok_weaken {A} (m : M A) : respects R m → respects_ok R m.
Proof using Type. intros Hm s a s' Hs. specialize (Hm s). by rewrite Hs in Hm. Qed.

Lemma respects_ok_bind {A B} (m : M A) (f : A → M B) :
  respects_ok R m → (∀ a, respects_ok R (f a)) → respects_ok R (bind m f).
Proof using R_trans.
  intros Hm Hf s b s' (a & s1 & H1 & H2)%bind_ok.
  eapply R_trans; [by eapply Hm|by eapply Hf].
Qed.

Lemma respects_ok_for_each {A} (f : A → M unit) (xs : list A) :
  (∀ x, respects_ok R (f x)) → respects_ok R (for_each f xs).
Proof using R_refl R_trans.
  intros Hf. induction xs as [|x xs IH]; cbn [for_each].
  - apply respects_ok_weaken, respects_ret.
  - apply respects_ok_bind; auto.
Qed.

Variable called : meth → loc → M unit.
Hypothesis R_called : ∀ m l, respects_ok R (called m l).

Ltac respects_ok_tac :=
  repeat first
    [ progress intros
    | apply respects_ok_bind
    | apply respects_ok_for_each
    | match goal with
      | |- respects_ok _ (match ?x with _ => _ end) => destruct x
      | |- respects_ok _ (when ?b _) => unfold when
      end
    | solve [auto with respects_ok]
    | solve [apply respects_ok_weaken; auto with respects] ].

Lemma respects_ok_call_method (v : value) (m : meth) :
  respects_ok R (call_method called v m).
Proof using R_refl R_trans R_log R_called. unfold call_method. respects_ok_tac. Qed.

Hint Resolve respects_ok_call_method : respects_ok.

Lemma respects_ok_each_animation (this : loc) (m : meth) :
  respects_ok R (each_animation called this m).
Proof using R_refl R_trans R_log R_called. unfold each_animation. respects_ok_tac. Qed.

Hint Resolve respects_ok_each_animation : respects_ok.

Lemma respects_ok_finish (this : loc) : respects_ok R (Animation.finish called this).
Proof using R_refl R_trans R_log R_called. unfold Animation.finish. respects_ok_tac. Qed.

Lemma respects_ok_prepare_unguarded (this : loc) :
  (∀ v, respects R (write this "__old_text" v)) →
  respects R (write this "ready" (VBool true)) →
  respects_ok R (Animation.prepare_unguarded called this).
Proof using R_refl R_trans R_log R_content R_called.
  intros Hold Hready. unfold Animation.prepare_unguarded. respects_ok_tac.
Qed.

Hint Resolve respects_ok_prepare_unguarded : respects_ok.

Lemma respects_ok_prepare (this : loc) :
  (∀ v, respects R (write this "__old_text" v)) →
  respects R (write this "ready" (VBool true)) →
  respects_ok R (Animation.prepare called this).
Proof using R_refl R_trans R_log R_content R_called.
  intros Hold Hready. unfold Animation.prepare. respects_ok_tac.
Qed.

Lemma respects_ok_play_switch (this : loc) :
  (∀ v, respects R (write this "__old_text" v)) →
  respects_ok R (Animation.play_switch called this).
Proof using R_refl R_trans R_log R_content R_called.
  intros Hold. unfold Animation.play_switch. respects_ok_tac.
Qed.

Hint Resolve respects_ok_play_switch : respects_ok.

Lemma respects_ok_play (this : loc) :
  (∀ v, respects R (write this "__old_text" v)) →
  respects R (write this "ready" (VBool true)) →
  (∀ b, respects R (write this "played" (VBool b))) →
  respects_ok R (Animation.play called this).
Proof using R_refl R_trans R_log R_content R_called.
  intros Hold Hready Hplayed. unfold Animation.play. respects_ok_tac.
Qed.

Lemma respects_ok_init : respects_ok R (StepCtrl.init called).
Proof using R_refl R_trans R_log R_called.
  intros s a s'. unfold StepCtrl.init.
  apply (respects_ok_for_each (StepCtrl.init_step called) (steps s)).
  intros step. unfold StepCtrl.init_step. respects_ok_tac.
Qed.

Lemma respects_ok_previousStep :
  respects R (emit PreviousPage) → respects_ok R (StepCtrl.previousStep called).
Proof using R_refl R_trans R_log R_cursor R_called.
  intros Hpage. unfold StepCtrl.previousStep, StepCtrl.reverse. respects_ok_tac.
Qed.

Lemma respects_ok_nextStep :
  respects R (emit NextPage) → respects_ok R (StepCtrl.nextStep called).
Proof using R_refl R_trans R_log R_cursor R_called.
  intros Hpage. unfold StepCtrl.nextStep, StepCtrl.leave, StepCtrl.execute. respects_ok_tac.
Qed.
End Respects.

Lemma respects_run (R : state → state → Prop) (fuel : nat) :
  (∀ s, R s s) → (∀ s1 s2 s3, R s1 s2 → R s2 s3 → R s1 s3) →
  (∀ n, respects R (navigate fuel n)) →
  ∀ ns s, R s (run fuel ns s).
Proof.
  intros Hrefl Htrans Hnav ns. induction ns as [|n ns IH]; intros s; cbn [run].
  - apply Hrefl.
  - eapply Htrans; [apply (Hnav n s)|apply IH].
Qed.

(** ** What a call adds to the trace *)

Lemma appends_refl (s : state) : appends s s.
Proof. exists []. by rewrite app_nil_r. Qed.

Lemma appends_trans (s1 s2 s3 : state) : appends s1 s2 → appends s2 s3 → appends s1 s3.
Proof.
  intros (evs & H12 & Hevs) (evs' & H23 & Hevs'). exists (evs ++ evs'). split.
  - by rewrite H23, H12, app_assoc.
  - by apply Forall_app.
Qed.

Lemma appends_log (e : event) (s : state) : page_call e = false → appends s (log e s).
Proof. intros He. exists [e]. split; [done|]. by repeat constructor. Qed.

Lemma appends_same_trace (s s' : state) : trace s' = trace s → appends s s'.
Proof. intros Ht. exists []. by rewrite app_nil_r. Qed.

Lemma appends_invoke (fuel : nat) (m : meth) (this : loc) :
  respects appends (Animation.invoke fuel m this).
Proof.
  revert m this. induction fuel as [|fuel IH]; intros m this.
  - apply respects_out_of_fuel, appends_refl.
  - rewrite invoke_S.
    apply (respects_body appends appends_refl appends_trans appends_log (λ _, True));
      try done; unfold respects; intros; by apply appends_same_trace.
Qed.

(** ** The flags and the configuration across calls *)

Lemma stays_ready_refl (s : state) : stays_ready s s.
Proof. by intros l. Qed.

Lemma stays_ready_trans (s1 s2 s3 : state) :
  stays_ready s1 s2 → stays_ready s2 s3 → stays_ready s1 s3.
Proof. intros H12 H23 l Hl. by apply H23, H12. Qed.

Lemma stays_ready_same_heap (s s' : state) : heap s' = heap s → stays_ready s s'.
Proof. intros Hh l. by rewrite (prop_same_heap s s'). Qed.

Lemma stays_ready_store (l : loc) (k : string) (v : value) (s : state) :
  k ≠ "ready" ∨ v = VBool true → stays_ready s (store l k v s).
Proof.
  intros Hw l' Hl'. destruct (decide (l = l' ∧ k = "ready")) as [[-> ->]|Hne].
  - destruct Hw as [Hk|Hv]; [done|]. subst v. by rewrite prop_store_eq.
  - rewrite prop_store_ne; [done|].
    destruct (decide (l = l')) as [Hl|Hl]; [right|by left].
    intros Hk. by apply Hne.
Qed.

Lemma stays_ready_invoke (fuel : nat) (m : meth) (this : loc) :
  respects stays_ready (Animation.invoke fuel m this).
Proof.
  revert m this. induction fuel as [|fuel IH]; intros m this.
  - apply respects_out_of_fuel, stays_ready_refl.
  - rewrite invoke_S.
    apply (respects_body stays_ready stays_ready_refl stays_ready_trans
             (λ e s _, stays_ready_same_heap s (log e s) eq_refl) (λ _, True));
      try done; unfold respects; intros;
      first [by apply stays_ready_same_heap | apply stays_ready_store; auto].
Qed.

Lemma same_configuration_refl (s : state) : same_configuration s s.
Proof. done. Qed.

Lemma same_configuration_trans (s1 s2 s3 : state) :
  same_configuration s1 s2 → same_configuration s2 s3 → same_configuration s1 s3.
Proof.
  intros (Hs & Hp & Hk) (Hs' & Hp' & Hk'). split; [congruence|]. split.
  - intros l. by rewrite Hp'.
  - intros l k ???. by rewrite Hk', Hk.
Qed.

Lemma same_configuration_same_heap (s s' : state) :
  heap s' = heap s → steps s' = steps s → same_configuration s s'.
Proof. intros Hh Hs. unfold same_configuration, object. by rewrite Hh. Qed.

Lemma same_configuration_store (l : loc) (k : string) (v : value) (s : state) :
  k = "ready" ∨ k = "played" ∨ k = "__old_text" → same_configuration s (store l k v s).
Proof.
  intros Hk. split; [done|]. split.
  - intros l'. apply proto_store.
  - intros l' k' ???. apply own_store_ne. destruct Hk as [->|[->| ->]]; done.
Qed.

Lemma same_configuration_invoke (fuel : nat) (m : meth) (this : loc) :
  respects same_configuration (Animation.invoke fuel m this).
Proof.
  revert m this. induction fuel as [|fuel IH]; intros m this.
  - apply respects_out_of_fuel, same_configuration_refl.
  - rewrite invoke_S.
    apply (respects_body same_configuration same_configuration_refl same_configuration_trans
             (λ e s _, same_configuration_same_heap s (log e s) eq_refl eq_refl)
             (λ _, True));
      try done; unfold respects; intros;
      first [by apply same_configuration_same_heap | apply same_configuration_store; auto].
Qed.

Lemma stays_ready_navigate (fuel : nat) (n : nav) : respects stays_ready (navigate fuel n).
Proof.
  assert (∀ e, respects stays_ready (emit e)) as Hemit
    by (intros e s; by apply stays_ready_same_heap).
  assert (∀ i s, stays_ready s (set_currentStep i s)) as Hcursor
    by (intros i s; by apply stays_ready_same_heap).
  destruct n; cbn [navigate].
  - apply (respects_nextStep stays_ready stays_ready_refl stays_ready_trans
             (λ e s _, stays_ready_same_heap s (log e s) eq_refl) (λ _, True)); try done.
    intros m l _. apply stays_ready_invoke.
  - apply (respects_previousStep stays_ready stays_ready_refl stays_ready_trans
             (λ e s _, stays_ready_same_heap s (log e s) eq_refl) (λ _, True)); try done.
    intros m l _. apply stays_ready_invoke.
Qed.

Lemma same_configuration_navigate (fuel : nat) (n : nav) :
  respects same_configuration (navigate fuel n).
Proof.
  assert (∀ e, respects same_configuration (emit e)) as Hemit
    by (intros e s; by apply same_configuration_same_heap).
  assert (∀ i s, same_configuration s (set_currentStep i s)) as Hcursor
    by (intros i s; by apply same_configuration_same_heap).
  destruct n; cbn [navigate].
  - apply (respects_nextStep same_configuration same_configuration_refl
             same_configuration_trans
             (λ e s _, same_configuration_same_heap s (log e s) eq_refl eq_refl)
             (λ _, True)); try done.
    intros m l _. apply same_configuration_invoke.
  - apply (respects_previousStep same_configuration same_configuration_refl
             same_configuration_trans
             (λ e s _, same_configuration_same_heap s (log e s) eq_refl eq_refl)
             (λ _, True)); try done.
    intros m l _. apply same_configuration_invoke.
Qed.

(** X1.  [init()] and any sequence of [nextStep()] and [previousStep()] calls,
    however each of them ends, leave the step list, the prototype of
    every object and every property other than [ready], [played] and
    [__old_text] as they were; and an animation whose [ready] is truthy
    does not lose it.  (This is what the script does; a function of the
    page author that a call reaches is taken to leave the objects
    alone.) *)
Theorem navigation_keeps_configuration (fuel : nat) (ns : list nav) (s : state) :
  let s1 := (StepCtrl.init (Animation.invoke fuel) s).2 in
  let s2 := run fuel ns s in
  (same_configuration s s1 ∧ stays_ready s s1) ∧
  (same_configuration s s2 ∧ stays_ready s s2).
Proof.
  intros s1 s2. split; split.
  - apply (respects_init same_configuration same_configuration_refl same_configuration_trans
             (λ e s _, same_configuration_same_heap s (log e s) eq_refl eq_refl)
             (λ _, True)); [|done].
    intros m l _. apply same_configuration_invoke.
  - apply (respects_init stays_ready stays_ready_refl stays_ready_trans
             (λ e s _, stays_ready_same_heap s (log e s) eq_refl) (λ _, True)); [|done].
    intros m l _. apply stays_ready_invoke.
  - apply respects_run;
      [apply same_configuration_refl|apply same_configuration_trans|
       apply same_configuration_navigate].
  - apply respects_run;
      [apply stays_ready_refl|apply stays_ready_trans|apply stays_ready_navigate].
Qed.

(** ** [finish()] *)

Lemma same_but_trace_refl (s : state) : same_but_trace s s.
Proof. done. Qed.

Lemma same_but_trace_trans (s1 s2 s3 : state) :
  same_but_trace s1 s2 → same_but_trace s2 s3 → same_but_trace s1 s3.
Proof.
  intros (?&?&?&?&?) (?&?&?&?&?). unfold same_but_trace. repeat split; congruence.
Qed.

Lemma same_but_trace_invoke (fuel : nat) (this : loc) :
  respects same_but_trace (Animation.invoke fuel Finish this).
Proof.
  revert this. induction fuel as [|fuel IH]; intros this.
  - apply respects_out_of_fuel, same_but_trace_refl.
  - rewrite invoke_S. cbn [Animation.body].
    apply (respects_finish same_but_trace same_but_trace_refl same_but_trace_trans
             (λ e s _, same_but_trace_refl (log e s)) (λ m, m = Finish)); [|done].
    intros m l ->. apply IH.
Qed.

(** X2.  [finish()], on any object and however it ends, changes no property
    of any object, no markup of the page and nothing of the controller:
    it only hands calls to the page (and, for a [set] or a custom
    animation, to the children and to the hook, which is taken to leave
    the objects alone). *)
Theorem finish_changes_only_the_trace (fuel : nat) (this : loc) (s : state) :
  same_but_trace s (Animation.invoke fuel Finish this s).2 ∧
  appends s (Animation.invoke fuel Finish this s).2.
Proof. split; [apply same_but_trace_invoke|apply appends_invoke]. Qed.

(** ** Deferred animations *)

Lemma stays_deferred_refl (l : loc) (s : state) : stays_deferred l s s.
Proof. by intros ?. Qed.

Lemma stays_deferred_trans (l : loc) (s1 s2 s3 : state) :
  stays_deferred l s1 s2 → stays_deferred l s2 s3 → stays_deferred l s1 s3.
Proof. intros H12 H23 H. by apply H23, H12. Qed.

Lemma stays_deferred_same_heap (l : loc) (s s' : state) :
  heap s' = heap s → stays_deferred l s s'.
Proof. intros Hh. unfold stays_deferred, deferred. by rewrite !(prop_same_heap s s'). Qed.

Lemma stays_deferred_store (l l' : loc) (k : string) (v : value) (s : state) :
  l' ≠ l ∨ (k ≠ "ready" ∧ k ≠ "late_prepare") → stays_deferred l s (store l' k v s).
Proof.
  intros Hw. unfold stays_deferred, deferred.
  rewrite !prop_store_ne; [done|destruct Hw as [?|[??]]; [by left|by right]..].
Qed.

Lemma stays_deferred_invoke (l : loc) (fuel : nat) (m : meth) (this : loc) :
  m ≠ Play → respects (stays_deferred l) (Animation.invoke fuel m this).
Proof.
  revert m this. induction fuel as [|fuel IH]; intros m this Hm.
  - apply respects_out_of_fuel, stays_deferred_refl.
  - rewrite invoke_S.
    pose proof (λ e s (_ : page_call e = false),
                  stays_deferred_same_heap l s (log e s) eq_refl) as Hlog.
    destruct m; cbn [Animation.body]; try done.
    + destruct (decide (this = l)) as [->|Hne].
      * intros s Hs. rewrite prepare_guards. unfold deferred in Hs. by rewrite Hs.
      * apply (respects_prepare (stays_deferred l) (stays_deferred_refl l)
                 (stays_deferred_trans l) Hlog (λ m, m ≠ Play)); try done.
        -- intros c s. by apply stays_deferred_same_heap.
        -- intros v s. apply stays_deferred_store. by left.
        -- intros s. apply stays_deferred_store. by left.
    + by apply (respects_finish (stays_deferred l) (stays_deferred_refl l)
                  (stays_deferred_trans l) Hlog (λ m, m ≠ Play)).
    + apply respects_ret, stays_deferred_refl.
    + apply respects_ret, stays_deferred_refl.
Qed.

(** X3.  An animation with [late_prepare] set that is not ready stays so
    through [init()], through [previousStep()] and through [prepare()]
    and [finish()] on any object, the animation itself and a [set] that
    lists it included: of the calls of the script only [play()] makes it
    ready. *)
Theorem deferred_until_played (fuel : nat) (s : state) (l : loc) :
  deferred s l = true →
  deferred (StepCtrl.init (Animation.invoke fuel) s).2 l = true ∧
  deferred (StepCtrl.previousStep (Animation.invoke fuel) s).2 l = true ∧
  ∀ this, deferred (Animation.invoke fuel Prepare this s).2 l = true ∧
          deferred (Animation.invoke fuel Finish this s).2 l = true.
Proof.
  intros Hs.
  pose proof (λ e s (_ : page_call e = false),
                stays_deferred_same_heap l s (log e s) eq_refl) as Hlog.
  assert (∀ m this, m ≠ Play → respects (stays_deferred l) (Animation.invoke fuel m this))
    as Hself by (intros; by apply stays_deferred_invoke).
  split; [|split].
  - by apply (respects_init (stays_deferred l) (stays_deferred_refl l)
                (stays_deferred_trans l) Hlog (λ m, m ≠ Play) _ Hself).
  - apply (respects_previousStep (stays_deferred l) (stays_deferred_refl l)
             (stays_deferred_trans l) Hlog (λ m, m ≠ Play) _ Hself); try done.
    + intros i s0. by apply stays_deferred_same_heap.
    + intros s0. by apply stays_deferred_same_heap.
  - intros this. split; by apply stays_deferred_invoke.
Qed.

Lemma deferred_until_played_witness :
  deferred (Sample.late_deck 2) 10%positive = true ∧
  deferred (StepCtrl.init (Animation.invoke 4) (Sample.late_deck 2)).2 10%positive = true ∧
  deferred (StepCtrl.previousStep (Animation.invoke 4) (Sample.late_deck 2)).2 10%positive
    = true ∧
  prop (StepCtrl.init (Animation.invoke 4) (Sample.late_deck 2)).2 11%positive "ready"
    = VBool true.
Proof.
  destruct (deferred_until_played 4 (Sample.late_deck 2) 10%positive eq_refl)
    as (Hinit & Hprevious & _).
  split; [reflexivity|]. split; [exact Hinit|]. split; [exact Hprevious|].
  vm_compute. reflexivity.
Defined.

(** ** The cursor off the list *)

Lemma nth_step_off (sts : list value) (i : Z) :
  i < 0 ∨ Z.of_nat (length sts) ≤ i → StepCtrl.nth_step sts i = VUndef.
Proof.
  intros Hi. unfold StepCtrl.nth_step. destruct (Z.ltb_spec i 0); [done|].
  apply nth_overflow. lia.
Qed.

Lemma navigate_no_step (fuel : nat) (n : nav) (s : state) :
  no_step s → navigate fuel n s = (Throw TypeError, s).
Proof.
  intros Hs. destruct n; cbn [navigate].
  - unfold StepCtrl.nextStep. rewrite bind_current. by destruct Hs as [-> | ->].
  - unfold StepCtrl.previousStep. rewrite bind_current. by destruct Hs as [-> | ->].
Qed.

Lemma run_no_step (fuel : nat) (ns : list nav) (s : state) :
  no_step s → run fuel ns s = s.
Proof.
  intros Hs. induction ns as [|n ns IH]; [done|].
  cbn [run]. by rewrite navigate_no_step.
Qed.

(** X4.  With the cursor off the list (below 0, or at or above the length,
    which is any cursor when the list is empty) [steps[currentStep]] is
    [undefined]: [nextStep()] and [previousStep()] raise a TypeError
    before they do anything, the clamping included.  The cursor is never
    brought back, so every later call of either fails in the same way. *)
Theorem navigation_off_the_list (fuel : nat) (s : state) :
  off_list s →
  (∀ n, navigate fuel n s = (Throw TypeError, s)) ∧
  (∀ ns, run fuel ns s = s).
Proof.
  intros Hoff.
  assert (no_step s) as Hs by (left; by apply nth_step_off).
  split; [intros n; by apply navigate_no_step|intros ns; by apply run_no_step].
Qed.

Lemma navigation_off_the_list_witness :
  off_list (Sample.deck 7) ∧
  navigate 3 Next (Sample.deck 7) = (Throw TypeError, Sample.deck 7) ∧
  run 3 [Previous; Next; Previous] (Sample.deck 7) = Sample.deck 7.
Proof.
  assert (off_list (Sample.deck 7)) as Hoff by (right; cbn; lia).
  destruct (navigation_off_the_list 3 (Sample.deck 7) Hoff) as [Hnav Hrun].
  split; [exact Hoff|]. split; [exact (Hnav Next)|exact (Hrun [Previous; Next; Previous])].
Defined.

(** X5.  A hole in the list stops the navigation for good.  When
    [nextStep()] has left the step at the cursor and the step it reaches
    is [undefined] or [null], it raises a TypeError with the cursor
    already on the hole; from there every [nextStep()] and every
    [previousStep()] raises a TypeError and changes nothing, the cursor
    included. *)
Theorem hole_in_the_list_stops_navigation (fuel : nat) (s : state) :
  let self := Animation.invoke fuel in
  let up := Z.min (currentStep s + 1) (Z.of_nat (length (steps s)) - 1) in
  let s' := (StepCtrl.nextStep self s).2 in
  (StepCtrl.leave self (StepCtrl.nth_step (steps s) (currentStep s)) s).1 = Ok tt →
  StepCtrl.nth_step (steps s) up = VUndef ∨ StepCtrl.nth_step (steps s) up = VNull →
  (StepCtrl.nextStep self s).1 = Throw TypeError ∧
  currentStep s' = up ∧
  (∀ n, navigate fuel n s' = (Throw TypeError, s')) ∧
  (∀ ns, run fuel ns s' = s').
Proof.
  intros self up s' Hleave Hhole.
  assert (∀ m l, keeps (self m l)) as Hself by (intros; apply keeps_invoke).
  assert ((StepCtrl.nextStep self s).1 = Throw TypeError ∧ currentStep s' = up ∧
          steps s' = steps s) as (Hthrow & Hcursor & Hsteps).
  { unfold s'. rewrite nextStep_unfold by done. fold up. unfold bind at 1 3 5.
    destruct (keeps_steps (StepCtrl.leave self
                             (StepCtrl.nth_step (steps s) (currentStep s))) s)
      as [Hsteps _]; [by apply keeps_leave|].
    destruct (StepCtrl.leave self _ s) as [[[]|e| |] s1]; try done.
    cbn [snd] in Hsteps. unfold bind, StepCtrl.move_to, StepCtrl.execute.
    by destruct Hhole as [-> | ->]. }
  assert (no_step s') as Hs'.
  { unfold no_step. by rewrite Hsteps, Hcursor. }
  split; [done|]. split; [done|].
  split; [intros n; by apply navigate_no_step|intros ns; by apply run_no_step].
Qed.

Lemma hole_in_the_list_stops_navigation_witness :
  let s' := (StepCtrl.nextStep (Animation.invoke 3) (Sample.holed_deck 0)).2 in
  (StepCtrl.nextStep (Animation.invoke 3) (Sample.holed_deck 0)).1 = Throw TypeError ∧
  currentStep s' = 1 ∧
  run 3 [Next; Previous; Next] s' = s'.
Proof.
  intros s'.
  destruct (hole_in_the_list_stops_navigation 3 (Sample.holed_deck 0) eq_refl
              (or_introl eq_refl)) as (Hthrow & Hcursor & _ & Hrun).
  split; [exact Hthrow|]. split; [exact Hcursor|exact (Hrun [Next; Previous; Next])].
Defined.

(** ** The calls of the page navigation *)

Lemma filter_page_call_none (evs : list event) :
  Forall (λ e, page_call e = false) evs → filter (λ e, page_call e = true) evs = [].
Proof.
  induction 1 as [|e evs He _ IH]; [done|].
  rewrite filter_cons_False; [done|]. by rewrite He.
Qed.

Lemma step_type_frame (s s' : state) (step : value) :
  frame s s' → step_type s' step = step_type s step.
Proof. intros Hf. destruct step; try done. cbn. by apply frame_prop. Qed.

Lemma get_type (s : state) (step : value) :
  StepCtrl.get step "type" s =
  match step with
  | VUndef | VNull => (Throw TypeError, s)
  | _ => (Ok (step_type s step), s)
  end.
Proof. by destruct step. Qed.

Lemma report_page_calls (step : value) (s : state) :
  ∃ evs, trace (report step s) = trace s ++ evs ∧
         filter (λ e, page_call e = true) evs = [].
Proof.
  exists [ConsoleError "Unsupported step operation: "; ConsoleLog step]. split; [|done].
  unfold report. by rewrite !trace_log, <- app_assoc.
Qed.

(** The events of [reverse] and what they hold of page calls. *)
Lemma reverse_page_calls (fuel : nat) (step : value) (s : state) :
  ∃ evs, trace (StepCtrl.reverse (Animation.invoke fuel) step s).2 = trace s ++ evs ∧
         filter (λ e, page_call e = true) evs =
           if is_str (step_type s step) "prevPage" then [PreviousPage] else [].
Proof.
  unfold StepCtrl.reverse, bind at 1. rewrite get_type.
  assert (∃ evs, trace s = trace s ++ evs ∧ filter (λ e, page_call e = true) evs = [])
    as Hnone.
  { exists []. by rewrite app_nil_r. }
  assert (is_str VUndef "prevPage" = false) as Hu by done.
  destruct step as [| | | | | |l|]; cbn [step_type]; rewrite ?Hu; try done;
    try exact (report_page_calls _ s).
  destruct (is_str (prop s l "type") "prevPage") eqn:Hprev.
  { by exists [PreviousPage]. }
  destruct (is_str (prop s l "type") "nextPage"); [done|].
  destruct (is_str (prop s l "type") "anim").
  - destruct (respects_bind appends appends_trans (StepCtrl.get (VRef l) "animation")
                (λ a, call_method (Animation.invoke fuel) a Prepare)
                (respects_get appends appends_refl _ _)
                (λ a, respects_call_method appends appends_refl appends_trans appends_log
                        (λ _, True) _ (λ m l _, appends_invoke fuel m l) a Prepare I) s)
      as (evs & Hevs & Hnot).
    exists evs. split; [done|]. by apply filter_page_call_none.
  - exact (report_page_calls _ s).
Qed.

Lemma execute_page_calls (fuel : nat) (step : value) (s : state) :
  ∃ evs, trace (StepCtrl.execute (Animation.invoke fuel) step s).2 = trace s ++ evs ∧
         filter (λ e, page_call e = true) evs =
           if is_str (step_type s step) "nextPage" then [NextPage] else [].
Proof.
  unfold StepCtrl.execute, bind at 1. rewrite get_type.
  assert (∃ evs, trace s = trace s ++ evs ∧ filter (λ e, page_call e = true) evs = [])
    as Hnone.
  { exists []. by rewrite app_nil_r. }
  assert (is_str VUndef "nextPage" = false) as Hu by done.
  destruct step as [| | | | | |l|]; cbn [step_type]; rewrite ?Hu; try done;
    try exact (report_page_calls _ s).
  destruct (is_str (prop s l "type") "prevPage") eqn:Hprev.
  { destruct (prop s l "type") as [| | | |x| | |]; try done. cbn in Hprev.
    apply String.eqb_eq in Hprev as ->. done. }
  destruct (is_str (prop s l "type") "nextPage") eqn:Hnext.
  { by exists [NextPage]. }
  destruct (is_str (prop s l "type") "anim").
  - destruct (respects_bind appends appends_trans (StepCtrl.get (VRef l) "animation")
                (λ a, call_method (Animation.invoke fuel) a Play)
                (respects_get appends appends_refl _ _)
                (λ a, respects_call_method appends appends_refl appends_trans appends_log
                        (λ _, True) _ (λ m l _, appends_invoke fuel m l) a Play I) s)
      as (evs & Hevs & Hnot).
    exists evs. split; [done|]. by apply filter_page_call_none.
  - exact (report_page_calls _ s).
Qed.

(** X6.  [previousStep()] calls [previousPage()] once when the step at the
    cursor is a prevPage step, and not otherwise; it never calls
    [nextPage()].  [nextStep()] calls [nextPage()] once when its first
    phase has returned and the step the cursor has reached is a nextPage
    step, and not otherwise; it never calls [previousPage()].  [init()]
    and the methods of an animation call neither. *)
Theorem page_navigation_calls (fuel : nat) (s : state) :
  let self := Animation.invoke fuel in
  let calls s' expected :=
    ∃ evs, trace s' = trace s ++ evs ∧ filter (λ e, page_call e = true) evs = expected in
  let here := StepCtrl.nth_step (steps s) (currentStep s) in
  let next := StepCtrl.nth_step (steps s)
                (Z.min (currentStep s + 1) (Z.of_nat (length (steps s)) - 1)) in
  calls (StepCtrl.previousStep self s).2
        (if is_str (step_type s here) "prevPage" then [PreviousPage] else []) ∧
  calls (StepCtrl.nextStep self s).2
        (match (StepCtrl.leave self here s).1 with
         | Ok _ => if is_str (step_type s next) "nextPage" then [NextPage] else []
         | _ => []
         end) ∧
  calls (StepCtrl.init self s).2 [] ∧
  ∀ m this, calls (self m this s).2 [].
Proof.
  intros self calls here next.
  assert (∀ m l, keeps (self m l)) as Hself by (intros; apply keeps_invoke).
  assert (∀ m l, True → respects appends (self m l)) as Hself'
    by (intros; apply appends_invoke).
  split; [|split; [|split]].
  - rewrite previousStep_unfold by done. fold here. unfold bind.
    destruct (reverse_page_calls fuel here s) as (evs & Hevs & Hcalls). fold self in Hevs.
    exists evs. split; [|done].
    by destruct (StepCtrl.reverse self here s) as [[[]|e| |] s1].
  - rewrite nextStep_unfold by done. fold here next. unfold bind at 1.
    destruct (respects_leave appends appends_refl appends_trans appends_log (λ _, True)
                self Hself' here I s) as (evs & Hevs & Hnot).
    pose proof (keeps_leave self Hself here s) as Hf.
    destruct (StepCtrl.leave self here s) as [[[]|e| |] s1]; cbn [fst snd] in *;
      try (exists evs; split; [done|by apply filter_page_call_none]).
    unfold bind, StepCtrl.move_to.
    set (s2 := set_currentStep _ s1).
    destruct (execute_page_calls fuel next s2) as (evs' & Hevs' & Hcalls).
    fold self in Hevs'. exists (evs ++ evs'). split.
    + rewrite Hevs'. cbn. by rewrite Hevs, app_assoc.
    + rewrite filter_app, (filter_page_call_none evs), Hcalls by done.
      change (step_type s2 next) with (step_type s1 next).
      by rewrite (step_type_frame s s1).
  - destruct (respects_init appends appends_refl appends_trans appends_log (λ _, True)
                self Hself' I s) as (evs & Hevs & Hnot).
    exists evs. split; [done|by apply filter_page_call_none].
  - intros m this. destruct (appends_invoke fuel m this s) as (evs & Hevs & Hnot).
    exists evs. split; [done|by apply filter_page_call_none].
Qed.

(** ** [init()] *)

Lemma keeps_init_step (fuel : nat) (step : value) :
  keeps (StepCtrl.init_step (Animation.invoke fuel) step).
Proof.
  apply (respects_init_step frame frame_refl frame_trans (λ e s _, frame_log e s)
           (λ _, True)); [|done].
  intros m l _. apply keeps_invoke.
Qed.



Lemma init_step_passed_over (self : meth → loc → M unit) (step : value) (s : state) :
  passed_over s step = true → StepCtrl.init_step self step s = (Ok tt, s).
Proof.
  unfold StepCtrl.init_step. destruct step as [| | | | | |l|]; try done.
  cbn [passed_over StepCtrl.get]. rewrite bind_read.
  destruct (prop s l "type") as [| | | |x| | |]; try done.
  cbn. by intros ->%negb_true_iff.
Qed.

(** X7.  [init()] on a list in which no step is an animation step (every
    step has a type that can be read and is no object) does nothing at
    all: so on the list the script declares, and on the empty list. *)
Theorem init_without_animation_steps (self : meth → loc → M unit) (s : state) :
  Forall (λ step, passed_over s step = true) (steps s) →
  StepCtrl.init self s = (Ok tt, s).
Proof.
  unfold StepCtrl.init. generalize (steps s). intros sts Hall.
  induction Hall as [|step sts Hstep _ IH]; [done|].
  cbn [for_each]. unfold bind. by rewrite init_step_passed_over.
Qed.

Lemma init_without_animation_steps_witness :
  StepCtrl.init (Animation.invoke 3) Sample.declared = (Ok tt, Sample.declared).
Proof.
  apply init_without_animation_steps. repeat constructor.
Defined.



Lemma prepare_unguarded_ready (self : meth → loc → M unit) (this : loc) (s s' : state) :
  Animation.prepare_unguarded self this s = (Ok tt, s') →
  prop s' this "ready" = VBool true.
Proof.
  unfold Animation.prepare_unguarded.
  intros (? & s1 & _ & Hrest)%bind_ok.
  apply bind_ok in Hrest as (ty & s2 & _ & Hrest).
  apply bind_ok in Hrest as (? & s3 & _ & Hwrite).
  injection Hwrite as <-. apply prop_store_eq.
Qed.

(** X9.  When [init()] returns, the animation of every animation step is
    ready, unless it has [late_prepare] set: for an animation whose
    [prepare] is the prototype's. *)
Theorem init_makes_ready (fuel : nat) (s s' : state) (step a : loc) :
  StepCtrl.init (Animation.invoke fuel) s = (Ok tt, s') →
  VRef step ∈ steps s →
  prop s step "type" = VStr "anim" →
  prop s step "animation" = VRef a →
  intact s a = true →
  truthy (prop s a "late_prepare") = false →
  truthy (prop s' a "ready") = true.
Proof.
  intros Hinit Hin Htype Hanim Hintact Hlate.
  set (self := Animation.invoke fuel) in *.
  assert (∀ m l, True → respects stays_ready (self m l)) as Hself
    by (intros; apply stays_ready_invoke).
  apply list_elem_of_split in Hin as (pre & post & Hsteps).
  unfold StepCtrl.init in Hinit. rewrite Hsteps, for_each_app in Hinit.
  apply bind_ok in Hinit as ([] & s1 & Hpre & Hrest).
  cbn [for_each] in Hrest. apply bind_ok in Hrest as ([] & s2 & Hstep & Hpost).
  assert (frame s s1) as Hf.
  { pose proof (keeps_for_each (StepCtrl.init_step self) pre (keeps_init_step fuel) s) as Hf.
    by rewrite Hpre in Hf. }
  assert (stays_ready s2 s') as Hlater.
  { pose proof (respects_for_each stays_ready stays_ready_refl stays_ready_trans
                  (StepCtrl.init_step self) post
                  (λ x, respects_init_step stays_ready stays_ready_refl stays_ready_trans
                          (λ e s _, stays_ready_same_heap s (log e s) eq_refl)
                          (λ _, True) self Hself x I) s2) as Hr.
    by rewrite Hpost in Hr. }
  apply Hlater. clear Hlater Hpost Hpre.
  unfold StepCtrl.init_step in Hstep. cbn [StepCtrl.get] in Hstep.
  rewrite bind_read, (frame_prop s s1), Htype in Hstep by done.
  change (StepCtrl.is_anim (VStr "anim")) with (ret (A:=bool) true) in Hstep.
  rewrite bind_ret in Hstep. cbn [when] in Hstep.
  rewrite bind_read, (frame_prop s s1), Hanim in Hstep by done.
  rewrite call_method_core in Hstep
    by first [by rewrite (intact_frame s s1) | intact_tac].
  unfold self in Hstep. destruct fuel as [|fuel]; [done|].
  rewrite invoke_S in Hstep. cbn [Animation.body] in Hstep.
  rewrite prepare_guards, !prop_log, (frame_prop s s1 a "late_prepare"), Hlate in Hstep by done.
  cbn [andb] in Hstep.
  destruct (truthy (prop s1 a "no_reverse") && truthy (prop s1 a "ready")
            && truthy (prop s1 a "played")) eqn:Hguard.
  - injection Hstep as <-. rewrite prop_log.
    by apply andb_true_iff in Hguard as [[_ ?]%andb_true_iff _].
  - by rewrite (prepare_unguarded_ready _ _ _ _ Hstep).
Qed.

Lemma init_makes_ready_witness :
  let s' := (StepCtrl.init (Animation.invoke 3) (Sample.deck 0)).2 in
  StepCtrl.init (Animation.invoke 3) (Sample.deck 0) = (Ok tt, s') ∧
  truthy (prop s' 11%positive "ready") = true.
Proof.
  intros s'.
  assert (StepCtrl.init (Animation.invoke 3) (Sample.deck 0) = (Ok tt, s')) as Hinit
    by (vm_compute; reflexivity).
  split; [exact Hinit|].
  apply (init_makes_ready 3 (Sample.deck 0) s' 3%positive 11%positive Hinit);
    [|reflexivity..].
  apply list_elem_of_In. cbn. tauto.
Defined.

(** ** The flags after a call that returned *)

Lemma prepare_open (self : meth → loc → M unit) (this : loc) (s : state) :
  prepares s this = true →
  Animation.prepare self this s = Animation.prepare_unguarded self this s.
Proof.
  unfold prepares, deferred, one_way_done. intros [Hd Ho]%andb_true_iff.
  apply negb_true_iff in Hd, Ho. by rewrite prepare_guards, Hd, Ho.
Qed.

Lemma prepare_closed (self : meth → loc → M unit) (this : loc) (s : state) :
  prepares s this = false → Animation.prepare self this s = (Ok tt, s).
Proof.
  unfold prepares, deferred, one_way_done. rewrite prepare_guards.
  destruct (truthy (prop s this "late_prepare") && negb (truthy (prop s this "ready")));
    [done|].
  by destruct (truthy (prop s this "no_reverse") && truthy (prop s this "ready")
               && truthy (prop s this "played")).
Qed.

Lemma play_returns_played (fuel : nat) (this : loc) (s s' : state) :
  Animation.invoke fuel Play this s = (Ok tt, s') → prop s' this "played" = VBool true.
Proof.
  destruct fuel as [|fuel]; [done|]. rewrite invoke_S. cbn [Animation.body].
  unfold Animation.play.
  intros (? & s1 & _ & Hrest)%bind_ok.
  apply bind_ok in Hrest as (late & s2 & _ & Hrest).
  apply bind_ok in Hrest as (? & s3 & _ & Hrest).
  apply bind_ok in Hrest as (? & s4 & _ & Hrest).
  rewrite bind_write in Hrest.
  pose proof (hook_call_heap fuel (VRef this) AfterPlay
                (store this "played" (VBool true) s4) (or_intror eq_refl)) as Hheap.
  rewrite Hrest in Hheap. cbn [snd] in Hheap.
  rewrite (prop_same_heap _ s' this _ Hheap). apply prop_store_eq.
Qed.

(** X10.  A [play()] that returns leaves [played] true, on every instance and
    for every kind.  A [prepare()] that returns has either stopped at
    one of its guards, and then nothing has changed, or leaves [ready]
    true. *)
Theorem returned_calls_set_the_flags (fuel : nat) (this : loc) (s s' : state) :
  (Animation.invoke fuel Play this s = (Ok tt, s') → prop s' this "played" = VBool true) ∧
  (Animation.invoke fuel Prepare this s = (Ok tt, s') →
   if prepares s this then prop s' this "ready" = VBool true else s' = s).
Proof.
  destruct fuel as [|fuel]; [done|]. rewrite !invoke_S. cbn [Animation.body]. split.
  - intros Hplay. apply (play_returns_played (S fuel) this s). by rewrite invoke_S.
  - destruct (prepares s this) eqn:Hguards.
    + rewrite prepare_open by done. apply prepare_unguarded_ready.
    + rewrite prepare_closed by done. by intros [= <-].
Qed.

Lemma returned_calls_set_the_flags_witness :
  let s1 := (Animation.invoke 3 Prepare 1%positive Sample.text_swap).2 in
  let s2 := (Animation.invoke 3 Play 1%positive s1).2 in
  prop s1 1%positive "ready" = VBool true ∧ prop s2 1%positive "played" = VBool true.
Proof.
  intros s1 s2. split.
  - exact (proj2 (returned_calls_set_the_flags 3 1%positive Sample.text_swap s1)
             ltac:(vm_compute; reflexivity)).
  - exact (proj1 (returned_calls_set_the_flags 3 1%positive s1 s2)
             ltac:(vm_compute; reflexivity)).
Defined.

(** ** Running [prepare()] and [play()] on an intact instance *)

Lemma prepare_starts_with_finish (fuel : nat) (this : loc) (s : state) :
  intact s this = true → prepares s this = true →
  Animation.invoke (S (S fuel)) Prepare this s =
  Animation.prepare_unguarded (Animation.invoke (S fuel)) this s.
Proof. intros _ Hopen. rewrite invoke_S. cbn [Animation.body]. by apply prepare_open. Qed.

(** When [finish()] does not return, neither does [prepare()], and no
    precondition has been applied. *)
Lemma prepare_finish_fails (fuel : nat) (this : loc) (s s1 : state) (r : result unit) :
  intact s this = true → prepares s this = true →
  Animation.invoke (S fuel) Finish this (log (Invoke this Finish) s) = (r, s1) →
  r ≠ Ok tt →
  Animation.invoke (S (S fuel)) Prepare this s = (r, s1).
Proof.
  intros Hintact Hopen Hfinish Hr. rewrite prepare_starts_with_finish by done.
  unfold Animation.prepare_unguarded, bind at 1.
  rewrite call_method_core by intact_tac. rewrite Hfinish.
  by destruct r as [[]|e| |].
Qed.

Lemma play_not_late (fuel : nat) (this : loc) (s : state) :
  intact s this = true → truthy (prop s this "late_prepare") = false →
  Animation.invoke (S (S fuel)) Play this s =
  (Animation.play_switch (Animation.invoke (S fuel)) this ;;
   write this "played" (VBool true) ;;
   call_method (Animation.invoke (S fuel)) (VRef this) AfterPlay) (hooked this BeforePlay s).
Proof.
  intros Hintact Hlate. rewrite invoke_S. cbn [Animation.body]. unfold Animation.play.
  unfold bind at 1. rewrite call_hook by intact_tac.
  rewrite bind_read, prop_hooked, Hlate. cbn [when]. by rewrite bind_ret.
Qed.

Lemma play_tail (fuel : nat) (this : loc) (s : state) :
  intact s this = true →
  (write this "played" (VBool true) ;;
   call_method (Animation.invoke (S fuel)) (VRef this) AfterPlay) s =
  (Ok tt, hooked this AfterPlay (store this "played" (VBool true) s)).
Proof.
  intros Hintact. rewrite bind_write. apply call_hook; [|intact_tac].
  by rewrite intact_store by (unfold writable; auto).
Qed.

(** [play()] without [late_prepare] whose switch raises: the exception
    leaves [play()] at once. *)
Lemma play_switch_fails (fuel : nat) (this : loc) (s s1 : state) (r : result unit) :
  intact s this = true → truthy (prop s this "late_prepare") = false →
  Animation.play_switch (Animation.invoke (S fuel)) this (hooked this BeforePlay s) = (r, s1) →
  r ≠ Ok tt →
  Animation.invoke (S (S fuel)) Play this s = (r, s1).
Proof.
  intros Hintact Hlate Hswitch Hr. rewrite play_not_late by done.
  unfold bind at 1. rewrite Hswitch. by destruct r as [[]|e| |].
Qed.

(** ** The type of an animation *)

Lemma finish_no_startsWith (self : meth → loc → M unit) (this : loc) (s : state) :
  no_startsWith s (prop s this "type") = true →
  Animation.finish self this s = (Throw TypeError, s).
Proof.
  unfold Animation.finish. rewrite bind_read.
  destruct (prop s this "type") as [| | | | | |l|]; try done.
  cbn [no_startsWith]. intros Hn%bool_decide_eq_true.
  by rewrite bind_assoc, bind_own, Hn.
Qed.

(** X11.  An animation whose type is no string (a type that was left out, a
    number, an object without a [startsWith] of its own): [finish()]
    raises a TypeError at [this.type.startsWith], and so does
    [prepare()], before it applies any precondition and without setting
    [ready]; the switch of [play()] takes such a type to its default
    branch. *)
Theorem finish_needs_a_string_type (fuel : nat) (s : state) (this : loc) :
  no_startsWith s (prop s this "type") = true →
  Animation.invoke (S fuel) Finish this s = (Throw TypeError, s) ∧
  (intact s this = true → prepares s this = true →
   Animation.invoke (S (S fuel)) Prepare this s =
     (Throw TypeError, log (Invoke this Finish) s)) ∧
  kind_of (prop s this "type") = KUnsupported.
Proof.
  intros Htype. split; [|split].
  - rewrite invoke_S. by apply finish_no_startsWith.
  - intros Hintact Hopen. apply prepare_finish_fails; try done.
    rewrite invoke_S. by apply finish_no_startsWith.
  - by destruct (prop s this "type").
Qed.

Lemma finish_needs_a_string_type_witness :
  Animation.invoke 1 Finish 1%positive Sample.untyped = (Throw TypeError, Sample.untyped) ∧
  Animation.invoke 2 Prepare 1%positive Sample.untyped =
    (Throw TypeError, log (Invoke 1%positive Finish) Sample.untyped) ∧
  prop (Animation.invoke 2 Prepare 1%positive Sample.untyped).2 1%positive "ready"
    = VBool false.
Proof.
  destruct (finish_needs_a_string_type 0 Sample.untyped 1%positive eq_refl)
    as (Hfinish & Hprepare & _).
  split; [exact Hfinish|]. rewrite (Hprepare eq_refl eq_refl). split; reflexivity.
Defined.

(** ** SVG animations *)

Lemma finish_svg_missing (self : meth → loc → M unit) (this : loc) (s : state) :
  svg_kind (prop s this "type") = true →
  snap (host s) (prop s this "target") = None →
  Animation.finish self this s = (Throw TypeError, s).
Proof.
  intros Hsvg Hsnap. unfold Animation.finish. rewrite bind_read.
  destruct (prop s this "type") as [| | | |x| | |]; try done.
  cbn in Hsvg. rewrite bind_ret, Hsvg, bind_read.
  unfold bind, snap_select. by rewrite Hsnap.
Qed.

(** X12.  An animation whose type starts with "svg" and whose target is no
    element of the drawing ([Snap.select] gives [null]): [finish()]
    raises a TypeError, and so does [prepare()], which sets no flag; so
    does [play()] for the two SVG kinds, after [beforePlay()], without
    setting [played] and without calling [afterPlay()]. *)
Theorem svg_animation_needs_its_element (fuel : nat) (s : state) (this : loc) :
  svg_kind (prop s this "type") = true →
  snap (host s) (prop s this "target") = None →
  Animation.invoke (S fuel) Finish this s = (Throw TypeError, s) ∧
  (intact s this = true → prepares s this = true →
   Animation.invoke (S (S fuel)) Prepare this s =
     (Throw TypeError, log (Invoke this Finish) s)) ∧
  (intact s this = true → truthy (prop s this "late_prepare") = false →
   kind_of (prop s this "type") = KSvgFadeIn ∨ kind_of (prop s this "type") = KSvgMove →
   Animation.invoke (S (S fuel)) Play this s =
     (Throw TypeError, hooked this BeforePlay s)).
Proof.
  intros Hsvg Hsnap. split; [|split].
  - rewrite invoke_S. by apply finish_svg_missing.
  - intros Hintact Hopen. apply prepare_finish_fails; try done.
    rewrite invoke_S. by apply finish_svg_missing.
  - intros Hintact Hlate Hkind. apply play_switch_fails; try done.
    unfold Animation.play_switch. rewrite bind_read, prop_hooked.
    destruct Hkind as [-> | ->]; rewrite bind_read, prop_hooked;
      unfold bind, snap_select; by rewrite host_hooked, Hsnap.
Qed.

Lemma svg_animation_needs_its_element_witness :
  Animation.invoke 2 Prepare 1%positive Sample.svg_fade =
    (Throw TypeError, log (Invoke 1%positive Finish) Sample.svg_fade) ∧
  Animation.invoke 2 Play 1%positive Sample.svg_fade =
    (Throw TypeError, hooked 1%positive BeforePlay Sample.svg_fade) ∧
  prop (hooked 1%positive BeforePlay Sample.svg_fade) 1%positive "played" = VBool false.
Proof.
  destruct (svg_animation_needs_its_element 0 Sample.svg_fade 1%positive eq_refl eq_refl)
    as (_ & Hprepare & Hplay).
  split; [exact (Hprepare eq_refl eq_refl)|].
  split; [exact (Hplay eq_refl eq_refl (or_introl eq_refl))|reflexivity].
Defined.

(** ** Fading out *)

(** X13.  [play()] of a fade-out hands [fadeOut] the duration, the animation
    object itself and the value of the global variable [easing] (the
    source reads [this,easing] where the other kinds read
    [this.easing]).  On a page that declares no such variable the read
    raises a ReferenceError: nothing is handed to the page, [played]
    keeps its value and [afterPlay()] is not called.  On a page that
    declares one the call is made, with the animation object where
    jQuery looks for the easing.  When jQuery does not take the call
    (it raises when there is something to fade out, since no easing
    function goes by the name of an object), [play()] ends with that
    TypeError, [played] keeps its value and [afterPlay()] is not called;
    only when jQuery takes the call does [play()] go on to set [played]
    and to call [afterPlay()]. *)
Theorem fadeOut_play_reads_the_global_easing (fuel : nat) (s : state) (this : loc) :
  intact s this = true →
  prop s this "type" = VStr "fadeOut" →
  truthy (prop s this "late_prepare") = false →
  let before := hooked this BeforePlay s in
  Animation.invoke (S (S fuel)) Play this s =
  match easing_global (host s) with
  | None => (Throw ReferenceError, before)
  | Some third =>
      let call := JqFadeOut (prop s this "target") (prop s this "duration")
                    (VRef this) third in
      if takes (host s) call
      then (Ok tt, hooked this AfterPlay (store this "played" (VBool true) (log call before)))
      else (Throw TypeError, log call before)
  end.
Proof.
  intros Hintact Htype Hlate before.
  assert (∀ k, prop before this k = prop s this k) as Hprop by done.
  assert (Animation.play_switch (Animation.invoke (S fuel)) this before =
          match easing_global (host s) with
          | None => (Throw ReferenceError, before)
          | Some third =>
              start (JqFadeOut (prop s this "target") (prop s this "duration")
                       (VRef this) third) before
          end) as Hswitch.
  { unfold Animation.play_switch. rewrite bind_read, Hprop, Htype.
    change (kind_of (VStr "fadeOut")) with KFadeOut. cbv iota.
    rewrite !bind_read, !Hprop. unfold bind, global_easing.
    change (host before) with (host s). by destruct (easing_global (host s)). }
  destruct (easing_global (host s)) as [third|].
  - cbv zeta. unfold start in Hswitch. change (host before) with (host s) in Hswitch.
    destruct (takes (host s) _).
    + rewrite play_not_late by done. fold before. unfold bind at 1. rewrite Hswitch.
      by apply play_tail.
    + by apply play_switch_fails.
  - by apply play_switch_fails.
Qed.

Lemma fadeOut_play_reads_the_global_easing_witness :
  let declared := Sample.with_easing Sample.fade_out in
  let call := JqFadeOut (VStr "#a") (VNum 500) (VRef 1%positive) (VStr "linear") in
  Animation.invoke 2 Play 1%positive Sample.fade_out =
    (Throw ReferenceError, hooked 1%positive BeforePlay Sample.fade_out) ∧
  takes (host declared) call = false ∧
  Animation.invoke 2 Play 1%positive declared =
    (Throw TypeError, log call (hooked 1%positive BeforePlay declared)) ∧
  trace (Animation.invoke 2 Play 1%positive declared).2 = [Invoke 1%positive BeforePlay; call] ∧
  prop (Animation.invoke 2 Play 1%positive declared).2 1%positive "played" = VBool false.
Proof.
  intros declared call.
  split; [|split; [reflexivity|]].
  - exact (fadeOut_play_reads_the_global_easing 0 Sample.fade_out 1%positive
             eq_refl eq_refl eq_refl).
  - rewrite (fadeOut_play_reads_the_global_easing 0 declared 1%positive
               eq_refl eq_refl eq_refl).
    split; [reflexivity|]. split; reflexivity.
Defined.

(** ** Moving in *)

(** X14.  [prepare()] of a move-in, past its guards: after [finish()] the
    target is made [position: relative], and [moveOutside] moves it out
    of sight only when [from] is one of "up", "down", "left", "right".
    With any other [from], a missing one included, the target stays
    where it is and the animation is ready all the same.  With a
    direction and a target that selects no element, [moveOutside] raises
    a TypeError at [$(target).position().top], and [ready] is not set. *)
Theorem moveIn_prepare_by_direction (fuel : nat) (s : state) (this : loc) :
  intact s this = true →
  prop s this "type" = VStr "moveIn" →
  prop s this "moveOutside" = VFun FMoveOutside →
  prepares s this = true →
  let target := prop s this "target" in
  let placed := log (JqCss target "position" "relative") (finished this s) in
  Animation.invoke (S (S fuel)) Prepare this s =
  match prop s this "from" with
  | VStr d =>
      if is_direction d then
        match jq (host s) target with
        | [] => (Throw TypeError, placed)
        | _ :: _ => (Ok tt, store this "ready" (VBool true)
                              (log (JqMoveOutside target d) placed))
        end
      else (Ok tt, store this "ready" (VBool true) placed)
  | _ => (Ok tt, store this "ready" (VBool true) placed)
  end.
Proof.
  intros Hintact Htype Hmove Hopen target placed.
  rewrite prepare_starts_with_finish by done.
  unfold Animation.prepare_unguarded. unfold bind at 1.
  rewrite call_finish_jquery by (by rewrite ?Htype).
  rewrite bind_read, prop_finished, Htype.
  change (kind_of (VStr "moveIn")) with KMoveIn. cbv iota.
  assert (∀ k, prop placed this k = prop s this k) as Hprop by done.
  repeat first [rewrite bind_assoc | rewrite bind_read | rewrite bind_emit].
  rewrite !prop_finished. fold target placed. rewrite !Hprop. fold target.
  unfold call_prop.
  repeat first [rewrite bind_assoc | rewrite bind_read].
  rewrite Hprop, Hmove. cbn [call_fun nth]. unfold moveOutside.
  destruct (prop s this "from") as [| | | |d| | |]; try done.
  destruct (is_direction d); [|done].
  rewrite !bind_assoc. unfold bind at 1, select.
  change (host placed) with (host s). cbn [fst snd].
  by destruct (jq (host s) target).
Qed.

Lemma moveIn_prepare_by_direction_witness :
  (Animation.invoke 2 Prepare 1%positive (Sample.move_in "#a" [])).1 = Ok tt ∧
  trace (Animation.invoke 2 Prepare 1%positive (Sample.move_in "#a" [])).2 =
    [Invoke 1%positive Finish; JqFinish (VStr "#a");
     JqCss (VStr "#a") "position" "relative"] ∧
  trace (Animation.invoke 2 Prepare 1%positive
           (Sample.move_in "#a" [("from", VStr "left")])).2 =
    [Invoke 1%positive Finish; JqFinish (VStr "#a");
     JqCss (VStr "#a") "position" "relative"; JqMoveOutside (VStr "#a") "left"] ∧
  (Animation.invoke 2 Prepare 1%positive
     (Sample.move_in "#nowhere" [("from", VStr "left")])).1 = Throw TypeError.
Proof.
  rewrite (moveIn_prepare_by_direction 0 (Sample.move_in "#a" []) 1%positive
             eq_refl eq_refl eq_refl eq_refl).
  rewrite (moveIn_prepare_by_direction 0 (Sample.move_in "#a" [("from", VStr "left")])
             1%positive eq_refl eq_refl eq_refl eq_refl).
  rewrite (moveIn_prepare_by_direction 0 (Sample.move_in "#nowhere" [("from", VStr "left")])
             1%positive eq_refl eq_refl eq_refl eq_refl).
  repeat split.
Defined.

(** ** Sets *)

Lemma finish_set (self : meth → loc → M unit) (this : loc) (s : state) :
  prop s this "type" = VStr "set" →
  Animation.finish self this s = each_animation self this Finish s.
Proof. intros Htype. unfold Animation.finish. by rewrite bind_read, Htype. Qed.

Lemma each_animation_none (self : meth → loc → M unit) (this : loc) (m : meth) (s : state) :
  each_animation self this m s =
  match prop s this "animations" with
  | VArr xs => for_each (λ child, call_method self child m) xs s
  | VUndef | VNull => (Throw TypeError, s)
  | VStr x => if String.eqb x "" then (Ok tt, s) else (Throw TypeError, s)
  | VBool _ | VNum _ => (Ok tt, s)
  | VFun _ | VRef _ => (Unmodelled, s)
  end.
Proof.
  unfold each_animation. rewrite bind_read.
  destruct (prop s this "animations") as [| | | |x| | |]; try done.
  by destruct (String.eqb x "").
Qed.

(** X15.  A [set] without children.  With an empty [animations] list
    [finish()] does nothing, [prepare()] only sets [ready] and [play()]
    only sets [played], between its two hooks.  With no [animations] at
    all ([undefined] or [null]) each of the three raises a TypeError at
    [this.animations.length]: [prepare()] sets no flag, [play()] does
    not set [played] and does not call [afterPlay()]. *)
Theorem set_without_children (fuel : nat) (s : state) (this : loc) :
  intact s this = true →
  prop s this "type" = VStr "set" →
  (prop s this "animations" = VArr [] →
   Animation.invoke (S fuel) Finish this s = (Ok tt, s) ∧
   (prepares s this = true →
    Animation.invoke (S (S fuel)) Prepare this s =
      (Ok tt, store this "ready" (VBool true) (log (Invoke this Finish) s))) ∧
   (truthy (prop s this "late_prepare") = false →
    Animation.invoke (S (S fuel)) Play this s =
      (Ok tt, hooked this AfterPlay
                (store this "played" (VBool true) (hooked this BeforePlay s))))) ∧
  (prop s this "animations" = VUndef ∨ prop s this "animations" = VNull →
   Animation.invoke (S fuel) Finish this s = (Throw TypeError, s) ∧
   (prepares s this = true →
    Animation.invoke (S (S fuel)) Prepare this s =
      (Throw TypeError, log (Invoke this Finish) s)) ∧
   (truthy (prop s this "late_prepare") = false →
    Animation.invoke (S (S fuel)) Play this s =
      (Throw TypeError, hooked this BeforePlay s))).
Proof.
  intros Hintact Htype. split.
  - intros Hnone.
    assert (∀ n s1, prop s1 this "type" = VStr "set" → prop s1 this "animations" = VArr [] →
                    Animation.invoke (S n) Finish this s1 = (Ok tt, s1)) as Hfinish.
    { intros n s1 Ht Ha. rewrite invoke_S. cbn [Animation.body].
      by rewrite finish_set, each_animation_none, Ha. }
    split; [by apply Hfinish|]. split.
    + intros Hopen. rewrite prepare_starts_with_finish by done.
      unfold Animation.prepare_unguarded. unfold bind at 1.
      rewrite call_method_core by intact_tac. rewrite Hfinish by done.
      rewrite bind_read, prop_log, Htype.
      change (kind_of (VStr "set")) with KSet. cbv iota.
      unfold bind at 1. by rewrite each_animation_none, prop_log, Hnone.
    + intros Hlate. rewrite play_not_late by done.
      unfold bind at 1, Animation.play_switch. rewrite bind_read, prop_hooked, Htype.
      change (kind_of (VStr "set")) with KSet. cbv iota.
      rewrite each_animation_none, prop_hooked, Hnone. cbn [for_each ret].
      by apply play_tail.
  - intros Hnone.
    assert (∀ n s1, prop s1 this "type" = VStr "set" →
                    prop s1 this "animations" = prop s this "animations" →
                    Animation.invoke (S n) Finish this s1 = (Throw TypeError, s1)) as Hfinish.
    { intros n s1 Ht Ha. rewrite invoke_S. cbn [Animation.body].
      rewrite finish_set, each_animation_none, Ha by done. by destruct Hnone as [-> | ->]. }
    split; [by apply Hfinish|]. split.
    + intros Hopen. apply prepare_finish_fails; try done. by apply Hfinish.
    + intros Hlate. apply play_switch_fails; try done.
      unfold Animation.play_switch. rewrite bind_read, prop_hooked, Htype.
      change (kind_of (VStr "set")) with KSet. cbv iota.
      rewrite each_animation_none, prop_hooked. by destruct Hnone as [-> | ->].
Qed.

Lemma set_without_children_witness :
  Animation.invoke 2 Prepare 1%positive (Sample.set_of (VArr [])) =
    (Ok tt, store 1%positive "ready" (VBool true)
              (log (Invoke 1%positive Finish) (Sample.set_of (VArr [])))) ∧
  Animation.invoke 2 Play 1%positive (Sample.set_of VNull) =
    (Throw TypeError, hooked 1%positive BeforePlay (Sample.set_of VNull)).
Proof.
  destruct (set_without_children 0 (Sample.set_of (VArr [])) 1%positive eq_refl eq_refl)
    as [Hempty _].
  destruct (set_without_children 0 (Sample.set_of VNull) 1%positive eq_refl eq_refl)
    as [_ Hnone].
  destruct (Hempty eq_refl) as (_ & Hprepare & _).
  destruct (Hnone (or_intror eq_refl)) as (_ & _ & Hplay).
  split; [exact (Hprepare eq_refl)|exact (Hplay eq_refl)].
Defined.

(** *** A set among its own children *)

Lemma for_each_not_ok {A} (g : A → M unit) (xs : list A) (x : A) (s : state) :
  x ∈ xs →
  (∀ y, keeps (g y)) →
  (∀ s1, frame s s1 → (g x s1).1 ≠ Ok tt) →
  (for_each g xs s).1 ≠ Ok tt.
Proof.
  intros Hin Hkeeps Hx. revert s Hx. induction xs as [|y xs IH]; intros s Hx.
  - by apply elem_of_nil in Hin.
  - cbn [for_each]. apply bind_not_ok. intros [] s1 Hy [].
    pose proof (Hkeeps y s) as Hf. rewrite Hy in Hf. cbn [snd] in Hf.
    apply elem_of_cons in Hin as [<-|Hin].
    + specialize (Hx s (frame_refl s)). by rewrite Hy in Hx.
    + apply IH; [done|]. intros s2 Hf2. apply Hx. by eapply frame_trans.
Qed.

Lemma lists_itself_frame (s s' : state) (this : loc) :
  frame s s' → lists_itself s this → lists_itself s' this.
Proof.
  intros Hf (Hintact & Htype & xs & Hxs & Hin). split; [by rewrite (intact_frame s s')|].
  split; [by rewrite (frame_prop s s')|]. exists xs. by rewrite (frame_prop s s').
Qed.

Lemma each_animation_not_ok (fuel : nat) (this : loc) (m : meth) (s : state) :
  m ∈ [Play; Prepare; Finish] →
  lists_itself s this →
  (∀ s1, lists_itself s1 this → (Animation.invoke fuel m this s1).1 ≠ Ok tt) →
  (each_animation (Animation.invoke fuel) this m s).1 ≠ Ok tt.
Proof.
  intros Hm Hs IH. pose proof Hs as (Hintact & Htype & xs & Hxs & Hin).
  rewrite each_animation_none, Hxs.
  apply (for_each_not_ok _ xs (VRef this)); [done| |].
  - intros child. apply keeps_call_method. intros. apply keeps_invoke.
  - intros s1 Hf. rewrite call_method_core by (by rewrite ?(intact_frame s s1)).
    apply IH. apply (lists_itself_frame s); [|done].
    eapply frame_trans; [exact Hf|apply frame_log].
Qed.

Lemma finish_lists_itself (fuel : nat) (this : loc) (s : state) :
  lists_itself s this → (Animation.invoke fuel Finish this s).1 ≠ Ok tt.
Proof.
  revert s. induction fuel as [|fuel IH]; intros s Hs; [done|].
  rewrite invoke_S. cbn [Animation.body].
  rewrite finish_set by apply Hs.
  apply each_animation_not_ok; [intact_tac|done|done].
Qed.

Lemma prepare_unguarded_lists_itself (fuel : nat) (this : loc) (s : state) :
  lists_itself s this →
  (Animation.prepare_unguarded (Animation.invoke fuel) this s).1 ≠ Ok tt.
Proof.
  intros Hs. unfold Animation.prepare_unguarded. apply bind_not_ok.
  intros [] s1 Hfinish ?. rewrite call_method_core in Hfinish by (apply Hs || intact_tac).
  exfalso. apply (finish_lists_itself fuel this (log (Invoke this Finish) s)).
  - apply (lists_itself_frame s); [apply frame_log|done].
  - by rewrite Hfinish.
Qed.

Lemma play_lists_itself (fuel : nat) (this : loc) (s : state) :
  lists_itself s this → (Animation.invoke fuel Play this s).1 ≠ Ok tt.
Proof.
  revert s. induction fuel as [|fuel IH]; intros s Hs; [done|].
  rewrite invoke_S. cbn [Animation.body]. unfold Animation.play.
  set (self := Animation.invoke fuel).
  assert (∀ m l, keeps (self m l)) as Hself by (intros; apply keeps_invoke).
  apply bind_not_ok. intros [] s1 Hbefore.
  pose proof (keeps_call_method self Hself (VRef this) BeforePlay s) as Hf1.
  rewrite Hbefore in Hf1. cbn [snd] in Hf1.
  pose proof (lists_itself_frame s s1 this Hf1 Hs) as Hs1.
  rewrite bind_read. apply bind_not_ok. intros [] s2 Harm.
  assert (lists_itself s2 this) as Hs2.
  { destruct (truthy (prop s1 this "late_prepare")); cbn [when] in Harm.
    - exfalso. revert Harm. rewrite !bind_write.
      set (s0 := store this "played" (VBool false) (store this "ready" (VBool true) s1)).
      assert (frame s1 s0) as Hf0 by (unfold s0; frame_tac).
      pose proof (lists_itself_frame s1 s0 this Hf0 Hs1) as Hs0.
      rewrite call_method_core by (apply Hs0 || intact_tac). intros Hprepare.
      assert (lists_itself (log (Invoke this Prepare) s0) this) as Hs0'
        by (apply (lists_itself_frame s0); [apply frame_log|done]).
      unfold self in Hprepare. destruct fuel as [|fuel]; [done|].
      rewrite invoke_S in Hprepare. cbn [Animation.body] in Hprepare.
      rewrite prepare_open in Hprepare.
      + apply (prepare_unguarded_lists_itself fuel this _ Hs0'). by rewrite Hprepare.
      + unfold prepares, deferred, one_way_done, s0. autorewrite with js.
        cbn. by rewrite !andb_false_r.
    - by injection Harm as <-. }
  intros []. apply bind_not_ok. intros [] s3 Hswitch. exfalso.
  unfold Animation.play_switch in Hswitch.
  rewrite bind_read in Hswitch.
  destruct Hs2 as (Hintact2 & Htype2 & Hxs2). rewrite Htype2 in Hswitch.
  change (kind_of (VStr "set")) with KSet in Hswitch. cbv iota in Hswitch.
  apply (each_animation_not_ok fuel this Play s2); [intact_tac|done|exact IH|].
  fold self. by rewrite Hswitch.
Qed.

Lemma bind_out_of_fuel {A B} (m : M A) (f : A → M B) (s : state) :
  (m s).1 = OutOfFuel → (bind m f s).1 = OutOfFuel.
Proof. unfold bind. by destruct (m s) as [[a|e| |] s1]. Qed.

Lemma heads_itself_frame (s s' : state) (this : loc) :
  frame s s' → heads_itself s this → heads_itself s' this.
Proof.
  intros Hf (Hintact & Htype & rest & Hxs). split; [by rewrite (intact_frame s s')|].
  split; [by rewrite (frame_prop s s')|]. exists rest. by rewrite (frame_prop s s').
Qed.

Lemma each_animation_exhausts (fuel : nat) (this : loc) (m : meth) (s : state) :
  m ∈ [Play; Prepare; Finish] →
  heads_itself s this →
  (∀ s1, heads_itself s1 this → (Animation.invoke fuel m this s1).1 = OutOfFuel) →
  (each_animation (Animation.invoke fuel) this m s).1 = OutOfFuel.
Proof.
  intros Hm Hs IH. pose proof Hs as (Hintact & Htype & rest & Hxs).
  rewrite each_animation_none, Hxs. cbn [for_each]. apply bind_out_of_fuel.
  rewrite call_method_core by done. apply IH.
  apply (heads_itself_frame s); [apply frame_log|done].
Qed.

Lemma finish_heads_itself (fuel : nat) (this : loc) (s : state) :
  heads_itself s this → (Animation.invoke fuel Finish this s).1 = OutOfFuel.
Proof.
  revert s. induction fuel as [|fuel IH]; intros s Hs; [done|].
  rewrite invoke_S. cbn [Animation.body].
  rewrite finish_set by apply Hs.
  apply each_animation_exhausts; [intact_tac|done|done].
Qed.

Lemma prepare_unguarded_heads_itself (fuel : nat) (this : loc) (s : state) :
  heads_itself s this →
  (Animation.prepare_unguarded (Animation.invoke fuel) this s).1 = OutOfFuel.
Proof.
  intros Hs. unfold Animation.prepare_unguarded. apply bind_out_of_fuel.
  rewrite call_method_core by (apply Hs || intact_tac).
  apply finish_heads_itself. apply (heads_itself_frame s); [apply frame_log|done].
Qed.

(** A call of a hook returns, or is cut off where the bound is. *)
Lemma call_hook_bounded (fuel : nat) (l : loc) (m : meth) (s : state) :
  intact s l = true →
  m ∈ [BeforePlay; AfterPlay] →
  call_method (Animation.invoke fuel) (VRef l) m s = (Ok tt, hooked l m s) ∨
  (call_method (Animation.invoke fuel) (VRef l) m s).1 = OutOfFuel.
Proof.
  intros Hintact Hm. destruct fuel as [|fuel]; [|left; by apply call_hook].
  pose proof Hintact as (Hproto & _ & Hhook)%intact_spec.
  unfold call_method, hooked, hook_events. rewrite bind_own.
  destruct (Hhook m Hm) as [->|[f ->]].
  - right. by rewrite bind_prototype, Hproto, bind_emit.
  - left. destruct f as [| |name]; [| |done]; cbn; by rewrite set_trace_nil.
Qed.

Lemma play_heads_itself (fuel : nat) (this : loc) (s : state) :
  heads_itself s this → (Animation.invoke fuel Play this s).1 = OutOfFuel.
Proof.
  revert s. induction fuel as [|fuel IH]; intros s Hs; [done|].
  rewrite invoke_S. cbn [Animation.body]. unfold Animation.play.
  destruct (call_hook_bounded fuel this BeforePlay s) as [Hbefore|Hbefore];
    [apply Hs|intact_tac| |by apply bind_out_of_fuel].
  unfold bind at 1. rewrite Hbefore.
  set (s1 := hooked this BeforePlay s).
  assert (heads_itself s1 this) as Hs1
    by (apply (heads_itself_frame s); [apply frame_hooked|done]).
  rewrite bind_read.
  destruct (truthy (prop s1 this "late_prepare")); cbn [when].
  - apply bind_out_of_fuel. rewrite !bind_write.
    set (s0 := store this "played" (VBool false) (store this "ready" (VBool true) s1)).
    assert (frame s1 s0) as Hf0 by (unfold s0; frame_tac).
    pose proof (heads_itself_frame s1 s0 this Hf0 Hs1) as Hs0.
    rewrite call_method_core by (apply Hs0 || intact_tac).
    assert (heads_itself (log (Invoke this Prepare) s0) this) as Hs0'
      by (apply (heads_itself_frame s0); [apply frame_log|done]).
    destruct fuel as [|fuel]; [done|].
    rewrite invoke_S. cbn [Animation.body]. rewrite prepare_open.
    + by apply prepare_unguarded_heads_itself.
    + unfold prepares, deferred, one_way_done, s0. autorewrite with js.
      cbn. by rewrite !andb_false_r.
  - rewrite bind_ret. apply bind_out_of_fuel. unfold Animation.play_switch.
    rewrite bind_read. destruct Hs1 as (Hintact1 & Htype1 & Hxs1). rewrite Htype1.
    change (kind_of (VStr "set")) with KSet. cbv iota.
    apply each_animation_exhausts; [intact_tac|done|exact IH].
Qed.

(** X16.  A [set] that is its own first child calls itself without end:
    [finish()] and [play()], and [prepare()] once it is past its guards,
    use up every bound that is put on the depth of the calls.  A set
    that lists itself at a later place does not complete any of these
    calls either, whatever the bound: a child before it raises, or
    the calls come to the set again. *)
Theorem set_among_its_own_children (fuel : nat) (s : state) (this : loc)
    (children : list value) :
  intact s this = true →
  prop s this "type" = VStr "set" →
  prop s this "animations" = VArr children →
  VRef this ∈ children →
  (head children = Some (VRef this) →
   (Animation.invoke fuel Finish this s).1 = OutOfFuel ∧
   (Animation.invoke fuel Play this s).1 = OutOfFuel ∧
   (prepares s this = true → (Animation.invoke fuel Prepare this s).1 = OutOfFuel)) ∧
  (Animation.invoke fuel Finish this s).1 ≠ Ok tt ∧
  (Animation.invoke fuel Play this s).1 ≠ Ok tt ∧
  (prepares s this = true → (Animation.invoke fuel Prepare this s).1 ≠ Ok tt).
Proof.
  intros Hintact Htype Hchildren Hin.
  assert (lists_itself s this) as Hs by (split; [done|split; [done|by exists children]]).
  split; [|split; [by apply finish_lists_itself|split; [by apply play_lists_itself|]]].
  - intros Hhead.
    assert (heads_itself s this) as Hh.
    { split; [done|]. split; [done|]. destruct children as [|child rest]; [done|].
      injection Hhead as ->. by exists rest. }
    split; [by apply finish_heads_itself|]. split; [by apply play_heads_itself|].
    intros Hopen. destruct fuel as [|fuel]; [done|].
    rewrite invoke_S. cbn [Animation.body]. rewrite prepare_open by done.
    by apply prepare_unguarded_heads_itself.
  - intros Hopen. destruct fuel as [|fuel]; [done|].
    rewrite invoke_S. cbn [Animation.body]. rewrite prepare_open by done.
    by apply prepare_unguarded_lists_itself.
Qed.

Lemma set_among_its_own_children_witness :
  let alone := Sample.set_of (VArr [VRef 1%positive]) in
  (Animation.invoke 50 Finish 1%positive alone).1 = OutOfFuel ∧
  (Animation.invoke 50 Play 1%positive alone).1 = OutOfFuel ∧
  (Animation.invoke 50 Prepare 1%positive alone).1 = OutOfFuel ∧
  (Animation.invoke 50 Play 1%positive Sample.loop).1 ≠ Ok tt ∧
  (Animation.invoke 50 Finish 1%positive Sample.loop).1 = OutOfFuel.
Proof.
  intros alone.
  assert (VRef 1%positive ∈ [VRef 1%positive]) as Hin by (apply list_elem_of_In; cbn; tauto).
  assert (VRef 1%positive ∈ [VRef 2%positive; VRef 1%positive]) as Hin'
    by (apply list_elem_of_In; cbn; tauto).
  destruct (set_among_its_own_children 50 alone 1%positive [VRef 1%positive]
              eq_refl eq_refl eq_refl Hin) as (Hfirst & _).
  destruct (set_among_its_own_children 50 Sample.loop 1%positive
              [VRef 2%positive; VRef 1%positive] eq_refl eq_refl eq_refl Hin')
    as (_ & _ & Hplay & _).
  destruct (Hfirst eq_refl) as (H1 & H2 & H3).
  split; [exact H1|]. split; [exact H2|]. split; [exact (H3 eq_refl)|].
  split; [exact Hplay|]. vm_compute. reflexivity.
Defined.

(** ** Custom animations *)

Lemma call_custom (this : loc) (k : string) (s : state) :
  call_prop this k [VRef this] s =
  match prop s this k with
  | VFun _ => (Ok tt, logs (custom_events this (prop s this k)) s)
  | _ => (Throw TypeError, s)
  end.
Proof.
  unfold call_prop. rewrite bind_read.
  destruct (prop s this k) as [| | | | |[| |name]| |]; try done;
    cbn; unfold logs; by rewrite set_trace_nil.
Qed.

Lemma intact_logs (evs : list event) (s : state) (l : loc) :
  intact (logs evs s) l = intact s l.
Proof. done. Qed.

Lemma prop_logs (evs : list event) (s : state) (l : loc) (k : string) :
  prop (logs evs s) l k = prop s l k.
Proof. done. Qed.

(** X17.  A custom animation hands each call to the hook of the instance:
    [finish()] to [finishCustomAnimation], [prepare()] to that and then
    to [prepareCustomAnimation], [play()] to [playCustomAnimation],
    always with the animation as receiver and as only argument.  A hook
    that holds no function makes the call raise a TypeError: [prepare()]
    then sets no flag, [play()] does not set [played] and does not call
    [afterPlay()]. *)
Theorem custom_animation_calls_its_hooks (fuel : nat) (s : state) (this : loc) :
  intact s this = true →
  prop s this "type" = VStr "custom" →
  let events k := custom_events this (prop s this k) in
  let entered := log (Invoke this Finish) s in
  Animation.invoke (S fuel) Finish this s =
    match prop s this "finishCustomAnimation" with
    | VFun _ => (Ok tt, logs (events "finishCustomAnimation") s)
    | _ => (Throw TypeError, s)
    end ∧
  (prepares s this = true →
   Animation.invoke (S (S fuel)) Prepare this s =
     match prop s this "finishCustomAnimation", prop s this "prepareCustomAnimation" with
     | VFun _, VFun _ =>
         (Ok tt, store this "ready" (VBool true)
                   (logs (events "prepareCustomAnimation")
                      (logs (events "finishCustomAnimation") entered)))
     | VFun _, _ => (Throw TypeError, logs (events "finishCustomAnimation") entered)
     | _, _ => (Throw TypeError, entered)
     end) ∧
  (truthy (prop s this "late_prepare") = false →
   Animation.invoke (S (S fuel)) Play this s =
     match prop s this "playCustomAnimation" with
     | VFun _ =>
         (Ok tt, hooked this AfterPlay
                   (store this "played" (VBool true)
                      (logs (events "playCustomAnimation") (hooked this BeforePlay s))))
     | _ => (Throw TypeError, hooked this BeforePlay s)
     end).
Proof.
  intros Hintact Htype events entered.
  assert (∀ n s1, prop s1 this "type" = VStr "custom" →
                  Animation.invoke (S n) Finish this s1 =
                  call_prop this "finishCustomAnimation" [VRef this] s1) as Hfinish.
  { intros n s1 Ht. rewrite invoke_S. cbn [Animation.body]. unfold Animation.finish.
    by rewrite bind_read, Ht. }
  split; [|split].
  - by rewrite Hfinish, call_custom.
  - intros Hopen. rewrite prepare_starts_with_finish by done.
    unfold Animation.prepare_unguarded. unfold bind at 1.
    rewrite call_method_core by intact_tac. fold entered.
    rewrite Hfinish, call_custom by done.
    change (prop entered this "finishCustomAnimation")
      with (prop s this "finishCustomAnimation").
    destruct (prop s this "finishCustomAnimation") as [| | | | |f| |] eqn:Hf;
      try (by destruct (prop s this "prepareCustomAnimation")).
    rewrite bind_read, prop_logs. change (prop entered this "type") with (prop s this "type").
    rewrite Htype. change (kind_of (VStr "custom")) with KCustom. cbv iota.
    unfold bind at 1. rewrite call_custom, prop_logs.
    change (prop entered this "prepareCustomAnimation")
      with (prop s this "prepareCustomAnimation").
    unfold events. rewrite Hf.
    by destruct (prop s this "prepareCustomAnimation").
  - intros Hlate.
    assert (Animation.play_switch (Animation.invoke (S fuel)) this (hooked this BeforePlay s)
            = call_prop this "playCustomAnimation" [VRef this] (hooked this BeforePlay s))
      as Hswitch.
    { unfold Animation.play_switch. by rewrite bind_read, prop_hooked, Htype. }
    destruct (prop s this "playCustomAnimation") as [| | | | |f| |] eqn:Hf;
      try (apply play_switch_fails; [done|done| |done];
           by rewrite Hswitch, call_custom, prop_hooked, Hf).
    rewrite play_not_late by done. unfold bind at 1.
    rewrite Hswitch, call_custom, prop_hooked, Hf.
    unfold events. rewrite Hf. by apply play_tail.
Qed.

Lemma custom_animation_calls_its_hooks_witness :
  trace (Animation.invoke 2 Play 1%positive Sample.custom).2 =
    [Invoke 1%positive BeforePlay; HostCall "spin" (VRef 1%positive) [VRef 1%positive];
     Invoke 1%positive AfterPlay] ∧
  Animation.invoke 2 Prepare 1%positive Sample.custom =
    (Ok tt, store 1%positive "ready" (VBool true)
              (logs [] (logs [] (log (Invoke 1%positive Finish) Sample.custom)))).
Proof.
  destruct (custom_animation_calls_its_hooks 0 Sample.custom 1%positive eq_refl eq_refl)
    as (_ & Hprepare & Hplay).
  rewrite (Hplay eq_refl). split; [reflexivity|exact (Hprepare eq_refl)].
Defined.

(** ** From the constructor to the page *)

Lemma fadeIn_prepare (fuel : nat) (this : loc) (s : state) :
  intact s this = true →
  prop s this "type" = VStr "fadeIn" →
  prepares s this = true →
  Animation.invoke (S (S fuel)) Prepare this s =
  (Ok tt, store this "ready" (VBool true)
            (log (JqCss (prop s this "target") "visibility" "hidden") (finished this s))).
Proof.
  intros Hintact Htype Hopen. rewrite prepare_starts_with_finish by done.
  unfold Animation.prepare_unguarded. unfold bind at 1.
  rewrite call_finish_jquery by (by rewrite ?Htype).
  rewrite bind_read, prop_finished, Htype.
  change (kind_of (VStr "fadeIn")) with KFadeIn. cbv iota.
  by rewrite bind_assoc, bind_read, prop_finished.
Qed.

Lemma fadeIn_play (fuel : nat) (this : loc) (s : state) :
  intact s this = true →
  prop s this "type" = VStr "fadeIn" →
  truthy (prop s this "late_prepare") = false →
  let target := prop s this "target" in
  let call := JqFadeIn target (prop s this "duration") (prop s this "easing") in
  let called := log call
                  (log (JqHide target)
                     (log (JqCss target "visibility" "visible")
                        (hooked this BeforePlay s))) in
  Animation.invoke (S (S fuel)) Play this s =
  if takes (host s) call
  then (Ok tt, hooked this AfterPlay (store this "played" (VBool true) called))
  else (Throw TypeError, called).
Proof.
  intros Hintact Htype Hlate target call called.
  assert (Animation.play_switch (Animation.invoke (S fuel)) this (hooked this BeforePlay s) =
          if takes (host s) call then (Ok tt, called) else (Throw TypeError, called))
    as Hswitch.
  { unfold Animation.play_switch. rewrite bind_read, prop_hooked, Htype.
    change (kind_of (VStr "fadeIn")) with KFadeIn. cbv iota.
    repeat first [rewrite bind_assoc | rewrite bind_read | rewrite bind_emit].
    rewrite !prop_log, !prop_hooked. done. }
  destruct (takes (host s) call).
  - rewrite play_not_late by done. unfold bind at 1. rewrite Hswitch.
    by apply play_tail.
  - by apply play_switch_fails.
Qed.

(** The properties of an instance made with no [options]. *)
Lemma constructor_plain (type target duration easing : value) :
  let this := Animation.constructor type target duration easing None in
  this !! "type" = Some type ∧ this !! "target" = Some target ∧
  this !! "duration" = Some (Animation.or_default duration (VNum 500)) ∧
  this !! "easing" = Some (Animation.or_default easing (VStr "swing")) ∧
  this !! "ready" = Some (VBool false) ∧ this !! "played" = Some (VBool false) ∧
  this !! "late_prepare" = None ∧ this !! "no_reverse" = None ∧
  this !! "play" = None ∧ this !! "prepare" = None ∧ this !! "finish" = None ∧
  this !! "beforePlay" = None ∧ this !! "afterPlay" = None.
Proof.
  intros this. subst this. unfold Animation.constructor. cbn [default].
  rewrite map_fold_empty.
  repeat split; rewrite !lookup_insert_ne by done;
    first [apply lookup_insert_eq | apply lookup_empty].
Qed.

(** X18.  [new Animation("fadeIn", target, duration, easing)] for a target
    that selects an element of the page, then [prepare()], then
    [play()]: [prepare()] returns and the instance is ready; the page is
    handed [finish()], [visibility: hidden], then [visibility: visible],
    [hide()] and [fadeIn] with the duration and the easing of the call
    of the constructor, 500 and "swing" where they were left out.  When
    jQuery takes that [fadeIn], [play()] returns, [afterPlay()] has been
    called and the instance is played; when it does not (the easing
    names no easing function of jQuery), [play()] ends with the
    TypeError, [afterPlay()] is not called and [played] is still
    false. *)
Theorem constructed_fadeIn_life_cycle (fuel : nat) (s : state)
    (target duration easing : value) :
  let made := Animation.new (VStr "fadeIn") target duration easing None s in
  let run l := (Animation.invoke (S (S fuel)) Prepare l ;;
                Animation.invoke (S (S fuel)) Play l) made.2 in
  let call := JqFadeIn target (Animation.or_default duration (VNum 500))
                (Animation.or_default easing (VStr "swing")) in
  jq (host s) target ≠ [] →
  ∃ l, made.1 = Ok l ∧ heap s !! l = None ∧
       (run l).1 = (if takes (host s) call then Ok tt else Throw TypeError) ∧
       trace (run l).2 =
         trace s ++ [Invoke l Finish; JqFinish target;
                     JqCss target "visibility" "hidden";
                     Invoke l BeforePlay;
                     JqCss target "visibility" "visible"; JqHide target; call]
                 ++ (if takes (host s) call then [Invoke l AfterPlay] else []) ∧
       prop (run l).2 l "ready" = VBool true ∧
       prop (run l).2 l "played" = VBool (takes (host s) call).
Proof.
  intros made run call _. set (l := fresh (dom (heap s))).
  set (this := Animation.constructor (VStr "fadeIn") target duration easing None).
  set (s0 := set_heap (<[l := Obj AnimationPrototype this]> (heap s)) s).
  assert (made = (Ok l, s0)) as Hmade by done.
  destruct (constructor_plain (VStr "fadeIn") target duration easing)
    as (Htype & Htarget & Hduration & Heasing & Hready & Hplayed & Hlate & Hno
        & Hplay & Hprepare & Hfinish & Hbefore & Hafter).
  fold this in Htype, Htarget, Hduration, Heasing, Hready, Hplayed, Hlate, Hno,
    Hplay, Hprepare, Hfinish, Hbefore, Hafter.
  assert (object s0 l = Obj AnimationPrototype this) as Hobj.
  { unfold object, s0. cbn. by rewrite lookup_insert_eq. }
  assert (∀ k, prop s0 l k = default VUndef (this !! k)) as Hprop.
  { intros k. unfold prop. by rewrite Hobj. }
  assert (intact s0 l = true) as Hintact.
  { unfold intact. rewrite Hobj. cbn [obj_proto obj_props forallb meth_name].
    by rewrite Hplay, Hprepare, Hfinish, Hbefore, Hafter. }
  assert (∀ s' hook, frame s0 s' → hook = BeforePlay ∨ hook = AfterPlay →
                     hook_events s' l hook = [Invoke l hook]) as Hhook.
  { intros s' hook Hf Hhook. rewrite (hook_events_frame s0 s') by done.
    unfold hook_events. rewrite Hobj. cbn [obj_props].
    destruct Hhook as [-> | ->]; cbn [meth_name]; by rewrite ?Hbefore, ?Hafter. }
  assert (prepares s0 l = true) as Hopen.
  { unfold prepares, deferred, one_way_done. by rewrite !Hprop, Hlate, Hno. }
  exists l. rewrite Hmade. cbn [fst snd]. split; [done|].
  split; [apply not_elem_of_dom, is_fresh|].
  set (s1 := store l "ready" (VBool true)
               (log (JqCss (prop s0 l "target") "visibility" "hidden") (finished l s0))).
  assert (frame s0 s1) as Hf1 by (unfold s1; frame_tac).
  assert (run l = Animation.invoke (S (S fuel)) Play l s1) as Hrun.
  { unfold run. rewrite Hmade. cbn [snd]. unfold bind.
    by rewrite fadeIn_prepare by (by rewrite ?Hprop, ?Htype). }
  assert (prop s1 l "ready" = VBool true) as Hready1 by apply prop_store_eq.
  assert (prop s1 l "played" = VBool false) as Hplayed1.
  { unfold s1. rewrite prop_store_other by done. unfold finished.
    by rewrite !prop_log, Hprop, Hplayed. }
  assert (trace s1 = trace s ++ [Invoke l Finish; JqFinish target;
                                 JqCss target "visibility" "hidden"]) as Htrace1.
  { unfold s1. rewrite trace_store, trace_log. unfold finished.
    rewrite !trace_log, Hprop, Htarget. cbn [default]. by rewrite <- !app_assoc. }
  rewrite Hrun, fadeIn_play; cycle 1.
  - by rewrite (intact_frame s0 s1).
  - by rewrite (frame_prop s0 s1), Hprop, Htype.
  - by rewrite (frame_prop s0 s1), Hprop, Hlate.
  - rewrite !(frame_prop s0 s1 l) by done.
    rewrite !Hprop, Htarget, Hduration, Heasing. cbn [default]. unfold id.
    rewrite (frame_host s0 s1 Hf1). change (host s0) with (host s). fold call.
    destruct (takes (host s) call); cbn [fst snd].
    + split; [done|]. split; [|split].
      * rewrite trace_hooked, trace_store, !trace_log, trace_hooked, Htrace1.
        rewrite (Hhook _ BeforePlay), (Hhook _ AfterPlay) by (auto || frame_tac).
        by rewrite <- !app_assoc.
      * rewrite prop_hooked, prop_store_other, !prop_log, prop_hooked by done.
        exact Hready1.
      * rewrite prop_hooked. apply prop_store_eq.
    + split; [done|]. split; [|split].
      * rewrite !trace_log, trace_hooked, Htrace1.
        rewrite (Hhook _ BeforePlay) by (auto || frame_tac).
        by rewrite app_nil_r, <- !app_assoc.
      * rewrite !prop_log, prop_hooked. exact Hready1.
      * rewrite !prop_log, prop_hooked. exact Hplayed1.
Qed.

Lemma constructed_fadeIn_life_cycle_witness :
  let s := Sample.declared in
  let l := 3%positive in
  let run easing :=
    (Animation.invoke 2 Prepare l ;; Animation.invoke 2 Play l)
      (Animation.new (VStr "fadeIn") (VStr "#a") VUndef easing None s).2 in
  jq (host s) (VStr "#a") ≠ [] ∧
  (Animation.new (VStr "fadeIn") (VStr "#a") VUndef VUndef None s).1 = Ok l ∧
  (run VUndef).1 = Ok tt ∧
  trace (run VUndef).2 =
    [Invoke l Finish; JqFinish (VStr "#a"); JqCss (VStr "#a") "visibility" "hidden";
     Invoke l BeforePlay; JqCss (VStr "#a") "visibility" "visible"; JqHide (VStr "#a");
     JqFadeIn (VStr "#a") (VNum 500) (VStr "swing"); Invoke l AfterPlay] ∧
  prop (run VUndef).2 l "played" = VBool true ∧
  (run (VStr "bounce")).1 = Throw TypeError ∧
  prop (run (VStr "bounce")).2 l "ready" = VBool true ∧
  prop (run (VStr "bounce")).2 l "played" = VBool false.
Proof.
  intros s l run.
  assert (jq (host s) (VStr "#a") ≠ []) as Hsel by done.
  destruct (constructed_fadeIn_life_cycle 0 s (VStr "#a") VUndef VUndef Hsel)
    as (l1 & Hl1 & _ & Hrun1 & Htrace1 & _ & Hplayed1).
  destruct (constructed_fadeIn_life_cycle 0 s (VStr "#a") VUndef (VStr "bounce") Hsel)
    as (l2 & Hl2 & _ & Hrun2 & _ & Hready2 & Hplayed2).
  assert (l1 = l) as -> by (vm_compute in Hl1; by injection Hl1).
  assert (l2 = l) as -> by (vm_compute in Hl2; by injection Hl2).
  split; [exact Hsel|]. split; [exact Hl1|].
  split; [exact Hrun1|]. split; [exact Htrace1|]. split; [exact Hplayed1|].
  split; [exact Hrun2|]. split; [exact Hready2|exact Hplayed2].
Defined.

(** ** Forward and back *)

(** X19.  One step forward and one step back brings the cursor to where it
    was, except on the last index, from where it ends one below (the
    step forward does not move it, the step back does); one step back
    and one step forward brings it to where it was, except on index 0,
    from where it ends on 1.  This holds when the calls are not cut
    short: the [finish()] of the step that is left and the reverse
    action of the step that is reversed return. *)
Theorem forward_and_back (fuel : nat) (s : state) :
  let self := Animation.invoke fuel in
  let i := currentStep s in
  let last := Z.of_nat (length (steps s)) - 1 in
  let forth := (StepCtrl.nextStep self s).2 in
  let back := (StepCtrl.previousStep self s).2 in
  0 ≤ i ≤ last →
  ((StepCtrl.leave self (StepCtrl.nth_step (steps s) i) s).1 = Ok tt →
   (StepCtrl.reverse self (StepCtrl.nth_step (steps forth) (currentStep forth)) forth).1
     = Ok tt →
   currentStep (StepCtrl.previousStep self forth).2 =
     if i =? last then Z.max (last - 1) 0 else i) ∧
  ((StepCtrl.reverse self (StepCtrl.nth_step (steps s) i) s).1 = Ok tt →
   (StepCtrl.leave self (StepCtrl.nth_step (steps back) (currentStep back)) back).1
     = Ok tt →
   currentStep (StepCtrl.nextStep self back).2 =
     if i =? 0 then Z.min 1 last else i).
Proof.
  intros self i last forth back Hi. split.
  - intros Hleave Hreverse.
    assert (currentStep forth = Z.min (i + 1) last) as Hforth.
    { unfold forth, self. rewrite nextStep_cursor. fold self i. by rewrite Hleave. }
    unfold self. rewrite previousStep_cursor. fold self. rewrite Hreverse, Hforth.
    destruct (Z.eqb_spec i last); lia.
  - intros Hreverse Hleave.
    assert (currentStep back = Z.max (i - 1) 0) as Hback.
    { unfold back, self. rewrite previousStep_cursor. fold self i. by rewrite Hreverse. }
    assert (steps back = steps s) as Hsteps by apply previousStep_steps.
    unfold self. rewrite nextStep_cursor. fold self. rewrite Hleave, Hback, Hsteps.
    fold last. destruct (Z.eqb_spec i 0); lia.
Qed.

Lemma forward_and_back_witness :
  currentStep (StepCtrl.previousStep (Animation.invoke 3)
                 (StepCtrl.nextStep (Animation.invoke 3) (Sample.deck 1)).2).2 = 1 ∧
  currentStep (StepCtrl.previousStep (Animation.invoke 3)
                 (StepCtrl.nextStep (Animation.invoke 3) (Sample.deck 3)).2).2 = 2 ∧
  currentStep (StepCtrl.nextStep (Animation.invoke 3)
                 (StepCtrl.previousStep (Animation.invoke 3) (Sample.deck 0)).2).2 = 1.
Proof.
  destruct (forward_and_back 3 (Sample.deck 1) ltac:(cbn; lia)) as [Hmid _].
  destruct (forward_and_back 3 (Sample.deck 3) ltac:(cbn; lia)) as [Hlast _].
  destruct (forward_and_back 3 (Sample.deck 0) ltac:(cbn; lia)) as [_ Hfirst].
  split; [exact (Hmid ltac:(vm_compute; reflexivity) ltac:(vm_compute; reflexivity))|].
  split; [exact (Hlast ltac:(vm_compute; reflexivity) ltac:(vm_compute; reflexivity))|].
  exact (Hfirst ltac:(vm_compute; reflexivity) ltac:(vm_compute; reflexivity)).
Defined.

(** ** The flag [played] *)

Lemma same_played_refl (s : state) : same_played s s.
Proof. done. Qed.

Lemma same_played_trans (s1 s2 s3 : state) :
  same_played s1 s2 → same_played s2 s3 → same_played s1 s3.
Proof. intros H12 H23 l. by rewrite H23. Qed.

Lemma same_played_same_heap (s s' : state) : heap s' = heap s → same_played s s'.
Proof. intros Hh l. by apply prop_same_heap. Qed.

Lemma same_played_store (l : loc) (k : string) (v : value) (s : state) :
  k ≠ "played" → same_played s (store l k v s).
Proof. intros Hk l'. by apply prop_store_other. Qed.

Lemma same_played_invoke (fuel : nat) (m : meth) (this : loc) :
  m ≠ Play → respects same_played (Animation.invoke fuel m this).
Proof.
  revert m this. induction fuel as [|fuel IH]; intros m this Hm.
  - apply respects_out_of_fuel, same_played_refl.
  - rewrite invoke_S.
    pose proof (λ e s (_ : page_call e = false),
                  same_played_same_heap s (log e s) eq_refl) as Hlog.
    destruct m; cbn [Animation.body];
      [done| | |apply respects_ret, same_played_refl..].
    + apply (respects_prepare same_played same_played_refl same_played_trans Hlog
               (λ m, m ≠ Play)); try done;
        unfold respects; intros; by apply same_played_store.
    + by apply (respects_finish same_played same_played_refl same_played_trans Hlog
                  (λ m, m ≠ Play)).
Qed.

Lemma keeps_played_refl (l : loc) (s : state) : keeps_played l s s.
Proof. by intros ?. Qed.

Lemma keeps_played_trans (l : loc) (s1 s2 s3 : state) :
  keeps_played l s1 s2 → keeps_played l s2 s3 → keeps_played l s1 s3.
Proof. intros H12 H23 H. by apply H23, H12. Qed.

Lemma keeps_played_same_heap (l : loc) (s s' : state) :
  heap s' = heap s → keeps_played l s s'.
Proof. intros Hh. unfold keeps_played. by rewrite (prop_same_heap s s'). Qed.

Lemma keeps_played_store (l l' : loc) (k : string) (v : value) (s : state) :
  l' ≠ l ∨ k ≠ "played" ∨ v = VBool true → keeps_played l s (store l' k v s).
Proof.
  intros Hw Hl. destruct (decide (l' = l ∧ k = "played")) as [[-> ->]|Hne].
  - destruct Hw as [?|[?|Hv]]; [done..|]. subst v. apply prop_store_eq.
  - rewrite prop_store_ne; [done|].
    destruct (decide (l' = l)) as [Hl'|Hl']; [right|by left].
    intros Hk. by apply Hne.
Qed.

Lemma keeps_played_invoke (l : loc) (fuel : nat) (m : meth) (this : loc) :
  respects_ok (keeps_played l) (Animation.invoke fuel m this).
Proof.
  revert m this. induction fuel as [|fuel IH]; intros m this; [done|].
  rewrite invoke_S.
  pose proof (λ e s (_ : page_call e = false),
                keeps_played_same_heap l s (log e s) eq_refl) as Hlog.
  pose proof (λ c s, keeps_played_same_heap l s (set_content c s) eq_refl) as Hcontent.
  assert (∀ k v, k ≠ "played" → respects (keeps_played l) (write this k v)) as Hwrite.
  { intros k v Hk s. apply keeps_played_store. auto. }
  destruct m; cbn [Animation.body].
  - destruct (decide (this = l)) as [->|Hne].
    + intros s [] s' Hplay _. apply (play_returns_played (S fuel) l s).
      by rewrite invoke_S.
    + apply (respects_ok_play (keeps_played l) (keeps_played_refl l) (keeps_played_trans l)
               Hlog Hcontent _ IH); auto.
      intros b s. apply keeps_played_store. by left.
  - apply (respects_ok_prepare (keeps_played l) (keeps_played_refl l) (keeps_played_trans l)
             Hlog Hcontent _ IH); auto.
  - apply (respects_ok_finish (keeps_played l) (keeps_played_refl l) (keeps_played_trans l)
             Hlog _ IH).
  - apply respects_ok_weaken, respects_ret, keeps_played_refl.
  - apply respects_ok_weaken, respects_ret, keeps_played_refl.
Qed.

(** X20.  No call of the script takes [played] back.  [init()],
    [previousStep()], [prepare()] and [finish()] leave the [played] of
    every object exactly as it is, however they end: the reverse of a
    step does not clear it.  [play()] and [nextStep()] can only set it:
    after a call that returned, every animation that was played still
    is ([play()] with [late_prepare] clears the flag of its own
    instance on the way, and sets it again before it returns). *)
Theorem played_is_never_taken_back (fuel : nat) (s : state) :
  let self := Animation.invoke fuel in
  (same_played s (StepCtrl.init self s).2 ∧
   same_played s (StepCtrl.previousStep self s).2 ∧
   ∀ this, same_played s (self Prepare this s).2 ∧ same_played s (self Finish this s).2) ∧
  (∀ l s',
     prop s l "played" = VBool true →
     (StepCtrl.nextStep self s = (Ok tt, s') ∨ ∃ this, self Play this s = (Ok tt, s')) →
     prop s' l "played" = VBool true).
Proof.
  intros self. split.
  - pose proof (λ e s (_ : page_call e = false),
                  same_played_same_heap s (log e s) eq_refl) as Hlog.
    assert (∀ m this, m ≠ Play → respects same_played (self m this)) as Hself
      by (intros; by apply same_played_invoke).
    split; [|split].
    + by apply (respects_init same_played same_played_refl same_played_trans Hlog
                  (λ m, m ≠ Play) _ Hself).
    + apply (respects_previousStep same_played same_played_refl same_played_trans Hlog
               (λ m, m ≠ Play) _ Hself); done.
    + intros this. split; by apply same_played_invoke.
  - intros l s' Hl [Hnext|[this Hplay]].
    + refine (respects_ok_nextStep (keeps_played l) (keeps_played_refl l)
                (keeps_played_trans l) _ _ self (keeps_played_invoke l fuel) _ s tt s' Hnext Hl).
      * intros e s0 _. by apply keeps_played_same_heap.
      * intros i s0. by apply keeps_played_same_heap.
      * intros s0. by apply keeps_played_same_heap.
    + by apply (keeps_played_invoke l fuel Play this s tt s').
Qed.

Lemma played_is_never_taken_back_witness :
  let s1 := (Animation.invoke 3 Play 1%positive Sample.text_swap).2 in
  prop s1 1%positive "played" = VBool true ∧
  prop (Animation.invoke 3 Prepare 1%positive s1).2 1%positive "played" = VBool true ∧
  prop (Animation.invoke 3 Play 1%positive s1).2 1%positive "played" = VBool true.
Proof.
  intros s1.
  assert (prop s1 1%positive "played" = VBool true) as Hplayed by (vm_compute; reflexivity).
  destruct (played_is_never_taken_back 3 s1) as [(_ & _ & Hsame) Hkeeps].
  split; [exact Hplayed|]. split.
  - rewrite (proj1 (Hsame 1%positive) 1%positive). exact Hplayed.
  - apply (Hkeeps 1%positive _ Hplayed). right. exists 1%positive.
    vm_compute. reflexivity.
Defined.

(** ** The children of a set *)

Lemma for_each_ok_split {A} (g : A → M unit) (xs : list A) (x : A) (s s' : state) :
  x ∈ xs → for_each g xs s = (Ok tt, s') →
  ∃ pre post s1 s2, xs = pre ++ x :: post ∧ for_each g pre s = (Ok tt, s1) ∧
                    g x s1 = (Ok tt, s2) ∧ for_each g post s2 = (Ok tt, s').
Proof.
  intros (pre & post & ->)%list_elem_of_split. rewrite for_each_app.
  intros ([] & s1 & Hpre & Hrest)%bind_ok. cbn [for_each] in Hrest.
  apply bind_ok in Hrest as ([] & s2 & Hx & Hpost). by exists pre, post, s1, s2.
Qed.

Lemma call_prepare_ready (fuel : nat) (c : loc) (s s' : state) :
  intact s c = true →
  truthy (prop s c "late_prepare") = false →
  call_method (Animation.invoke fuel) (VRef c) Prepare s = (Ok tt, s') →
  truthy (prop s' c "ready") = true.
Proof.
  intros Hintact Hlate. rewrite call_method_core by intact_tac.
  destruct fuel as [|fuel]; [done|]. rewrite invoke_S. cbn [Animation.body].
  rewrite prepare_guards, !prop_log, Hlate. cbn [andb].
  destruct (truthy (prop s c "no_reverse") && truthy (prop s c "ready")
            && truthy (prop s c "played")) eqn:Hguard.
  - intros [= <-]. rewrite prop_log.
    by apply andb_true_iff in Hguard as [[_ ?]%andb_true_iff _].
  - intros Hprepare. by rewrite (prepare_unguarded_ready _ _ _ _ Hprepare).
Qed.

(** X21.  When [prepare()] of a set gets past its guards and returns, every
    child of the set that is an intact animation without [late_prepare]
    is ready; when [play()] of a set returns, every child that is an
    intact animation is played.  The children of a child that is a set
    itself follow in the same way. *)
Theorem set_reaches_its_children (fuel : nat) (s s' : state) (this c : loc)
    (children : list value) :
  prop s this "type" = VStr "set" →
  prop s this "animations" = VArr children →
  VRef c ∈ children →
  intact s c = true →
  (prepares s this = true →
   truthy (prop s c "late_prepare") = false →
   Animation.invoke fuel Prepare this s = (Ok tt, s') →
   truthy (prop s' c "ready") = true) ∧
  (Animation.invoke fuel Play this s = (Ok tt, s') →
   prop s' c "played" = VBool true).
Proof.
  intros Htype Hchildren Hin Hintact.
  destruct fuel as [|fuel]; [done|]. rewrite !invoke_S. cbn [Animation.body].
  set (self := Animation.invoke fuel).
  assert (∀ m l, keeps (self m l)) as Hself by (intros; apply keeps_invoke).
  split.
  - intros Hopen Hlate. rewrite prepare_open by done. unfold Animation.prepare_unguarded.
    intros ([] & s1 & Hfinish & Hrest)%bind_ok.
    pose proof (keeps_call_method self Hself (VRef this) Finish s) as Hf1.
    rewrite Hfinish in Hf1. cbn [snd] in Hf1.
    rewrite bind_read, (frame_prop s s1), Htype in Hrest by done.
    change (kind_of (VStr "set")) with KSet in Hrest. cbv iota in Hrest.
    apply bind_ok in Hrest as ([] & s2 & Heach & Hwrite).
    injection Hwrite as <-.
    apply (stays_ready_store this "ready" (VBool true) s2); [by right|].
    rewrite each_animation_none, (frame_prop s s1), Hchildren in Heach by done.
    destruct (for_each_ok_split _ _ _ _ _ Hin Heach)
      as (pre & post & sa & sb & -> & Hpre & Hc & Hpost).
    assert (frame s sa) as Hfa.
    { eapply frame_trans; [exact Hf1|].
      pose proof (keeps_for_each (λ child, call_method self child Prepare) pre
                    (λ child, keeps_call_method self Hself child Prepare) s1) as Hf.
      by rewrite Hpre in Hf. }
    pose proof (respects_for_each stays_ready stays_ready_refl stays_ready_trans
                  (λ child, call_method self child Prepare) post
                  (λ child, respects_call_method stays_ready stays_ready_refl
                              stays_ready_trans
                              (λ e s _, stays_ready_same_heap s (log e s) eq_refl)
                              (λ _, True) self
                              (λ m l _, stays_ready_invoke fuel m l) child Prepare I) sb)
      as Hlater.
    rewrite Hpost in Hlater. apply Hlater.
    apply (call_prepare_ready fuel c sa); [by rewrite (intact_frame s sa)| |done].
    by rewrite (frame_prop s sa).
  - unfold Animation.play.
    intros ([] & s1 & Hbefore & Hrest)%bind_ok.
    pose proof (keeps_call_method self Hself (VRef this) BeforePlay s) as Hf1.
    rewrite Hbefore in Hf1. cbn [snd] in Hf1.
    rewrite bind_read in Hrest.
    apply bind_ok in Hrest as ([] & s2 & Harm & Hrest).
    assert (frame s1 s2) as Hf2.
    { assert (keeps (when (truthy (prop s1 this "late_prepare"))
                       (write this "ready" (VBool true) ;;
                        write this "played" (VBool false) ;;
                        call_method self (VRef this) Prepare))) as Hwhen.
      { destruct (truthy _); cbn [when]; [|apply keeps_ret].
        apply keeps_bind; [apply keeps_write; unfold writable; auto|intros _].
        apply keeps_bind; [apply keeps_write; unfold writable; auto|intros _].
        by apply keeps_call_method. }
      specialize (Hwhen s1). by rewrite Harm in Hwhen. }
    assert (frame s s2) as Hfs2 by (by eapply frame_trans).
    apply bind_ok in Hrest as ([] & s3 & Hswitch & Hrest).
    rewrite bind_write in Hrest.
    pose proof (hook_call_heap fuel (VRef this) AfterPlay
                  (store this "played" (VBool true) s3) (or_intror eq_refl)) as Hheap.
    fold self in Hheap. rewrite Hrest in Hheap. cbn [snd] in Hheap.
    rewrite (prop_same_heap _ s' c _ Hheap).
    apply (keeps_played_store c this "played" (VBool true) s3); [auto|].
    unfold Animation.play_switch in Hswitch.
    rewrite bind_read, (frame_prop s s2), Htype in Hswitch by done.
    change (kind_of (VStr "set")) with KSet in Hswitch. cbv iota in Hswitch.
    rewrite each_animation_none, (frame_prop s s2), Hchildren in Hswitch by done.
    destruct (for_each_ok_split _ _ _ _ _ Hin Hswitch)
      as (pre & post & sa & sb & -> & Hpre & Hc & Hpost).
    assert (frame s sa) as Hfa.
    { eapply frame_trans; [exact Hfs2|].
      pose proof (keeps_for_each (λ child, call_method self child Play) pre
                    (λ child, keeps_call_method self Hself child Play) s2) as Hf.
      by rewrite Hpre in Hf. }
    pose proof (respects_ok_for_each (keeps_played c) (keeps_played_refl c)
                  (keeps_played_trans c)
                  (λ child, call_method self child Play) post
                  (λ child, respects_ok_call_method (keeps_played c) (keeps_played_refl c)
                              (keeps_played_trans c)
                              (λ e s _, keeps_played_same_heap c s (log e s) eq_refl)
                              self (keeps_played_invoke c fuel) child Play)
                  sb tt s3 Hpost) as Hlater.
    apply Hlater.
    rewrite call_method_core in Hc by first [by rewrite (intact_frame s sa) | intact_tac].
    by apply (play_returns_played fuel c (log (Invoke c Play) sa) sb).
Qed.

Lemma set_reaches_its_children_witness :
  let prepared := (Animation.invoke 4 Prepare 1%positive Sample.pair).2 in
  let played := (Animation.invoke 4 Play 1%positive prepared).2 in
  truthy (prop prepared 3%positive "ready") = true ∧
  prop played 2%positive "played" = VBool true.
Proof.
  intros prepared played.
  assert (VRef 3%positive ∈ [VRef 2%positive; VRef 3%positive]) as Hin3
    by (apply list_elem_of_In; cbn; tauto).
  assert (VRef 2%positive ∈ [VRef 2%positive; VRef 3%positive]) as Hin2
    by (apply list_elem_of_In; cbn; tauto).
  split.
  - refine (proj1 (set_reaches_its_children 4 Sample.pair prepared 1%positive 3%positive
                     _ eq_refl eq_refl Hin3 eq_refl) eq_refl eq_refl _).
    vm_compute. reflexivity.
  - refine (proj2 (set_reaches_its_children 4 prepared played 1%positive 2%positive
                     _ _ _ Hin2 _) _); vm_compute; reflexivity.
Defined.

(** ** A step onto a change of text, and back *)

Lemma leave_same_but_trace (fuel : nat) (step : value) :
  respects same_but_trace (StepCtrl.leave (Animation.invoke fuel) step).
Proof.
  apply (respects_leave same_but_trace same_but_trace_refl same_but_trace_trans
           (λ e s _, same_but_trace_refl (log e s)) (λ m, m = Finish)); [|done].
  intros m l ->. apply same_but_trace_invoke.
Qed.

(** X22.  [nextStep()] onto an animation step that changes a text, and then
    [previousStep()]: both return, the cursor is where it was, and every
    element of the target shows what the first of them showed before the
    step forward.  (The animation is intact, without [late_prepare] and
    [no_reverse]; its target selects an element; the [finish()] of the
    step that is left returns.) *)
Theorem step_onto_text_and_back (fuel : nat) (s : state) (st a : loc)
    (e : elem) (es : list elem) :
  let self := Animation.invoke (S (S (S fuel))) in
  let i := currentStep s in
  0 ≤ i → i + 1 ≤ Z.of_nat (length (steps s)) - 1 →
  (StepCtrl.leave self (StepCtrl.nth_step (steps s) i) s).1 = Ok tt →
  StepCtrl.nth_step (steps s) (i + 1) = VRef st →
  prop s st "type" = VStr "anim" →
  prop s st "animation" = VRef a →
  intact s a = true →
  prop s a "type" = VStr "changeText" →
  truthy (prop s a "late_prepare") = false →
  truthy (prop s a "no_reverse") = false →
  string_or_undefined (prop s a "text") = true →
  jq (host s) (prop s a "target") = e :: es →
  ∃ s', (StepCtrl.nextStep self ;; StepCtrl.previousStep self) s = (Ok tt, s') ∧
        currentStep s' = i ∧
        ∀ e', e' ∈ e :: es → markup (content s') e' = markup (content s) e.
Proof.
  intros self i Hi Hlast Hleave Hnext Hanim Hanimation Hintact Htype Hlate Hno Htext Hjq.
  assert (∀ m l, keeps (self m l)) as Hself by (intros; apply keeps_invoke).
  set (target := prop s a "target") in *.
  (* the first phase of nextStep *)
  pose proof (keeps_leave self Hself (StepCtrl.nth_step (steps s) i) s) as Hf1.
  pose proof (leave_same_but_trace (S (S (S fuel))) (StepCtrl.nth_step (steps s) i) s)
    as (_ & _ & _ & Hc1 & _).
  fold self in Hc1.
  destruct (StepCtrl.leave self (StepCtrl.nth_step (steps s) i) s) as [r s1] eqn:Hl.
  cbn [fst snd] in Hleave, Hf1, Hc1. subst r.
  (* play() *)
  set (s2 := log (Invoke a Play) (set_currentStep (i + 1) s1)).
  assert (frame (set_currentStep (i + 1) s) s2) as Hf2.
  { unfold s2. eapply frame_trans; [|apply frame_log].
    destruct Hf1 as [? ? ? ? ? ?]. by split. }
  assert (∀ k, k ≠ "ready" → k ≠ "played" → k ≠ "__old_text" → ∀ l,
               prop s2 l k = prop s l k) as Hprop2.
  { intros k ??? l. by rewrite (frame_prop _ s2 l k Hf2). }
  assert (intact s2 a = true) as Hintact2 by (by rewrite (intact_frame _ s2 a Hf2)).
  assert (host s2 = host s) as Hhost2 by apply (frame_host _ _ Hf2).
  assert (content s2 = content s) as Hc2 by done.
  set (s3 := played_text a s2).
  assert (StepCtrl.nextStep self s = (Ok tt, s3)) as Hforth.
  { rewrite nextStep_unfold by done. fold i. rewrite Z.min_l by lia. rewrite Hnext.
    unfold bind at 1. rewrite Hl. unfold bind at 1, StepCtrl.move_to.
    unfold StepCtrl.execute. cbn [StepCtrl.get].
    rewrite bind_read. change (prop (set_currentStep (i + 1) s1) st "type")
      with (prop s1 st "type").
    rewrite (frame_prop s s1), Hanim by done. cbn [is_str String.eqb Ascii.eqb Bool.eqb].
    rewrite bind_read. change (prop (set_currentStep (i + 1) s1) st "animation")
      with (prop s1 st "animation").
    rewrite (frame_prop s s1), Hanimation by done.
    rewrite call_method_core by first [by rewrite (intact_frame s s1) | intact_tac].
    fold s2. apply play_text; rewrite ?Hprop2 by done; try done.
    intros Hl2. by rewrite Hlate in Hl2. }
  assert (frame s2 s3) as Hf3 by apply frame_played_text.
  assert (prop s3 a "__old_text" = VStr (markup (content s) e)) as Hold3.
  { unfold s3. rewrite old_text_played_text. cbv zeta. rewrite !Hprop2, Hlate by done.
    fold target. rewrite (shown_cons s2 target e es) by (by rewrite Hhost2).
    by rewrite Hc2. }
  (* prepare() *)
  set (s4 := log (Invoke a Prepare) s3).
  assert (frame (set_currentStep (i + 1) s) s4) as Hf4.
  { unfold s4. eapply frame_trans; [|apply frame_log]. by eapply frame_trans. }
  assert (∀ k, k ≠ "ready" → k ≠ "played" → k ≠ "__old_text" → ∀ l,
               prop s4 l k = prop s l k) as Hprop4.
  { intros k ??? l. by rewrite (frame_prop _ s4 l k Hf4). }
  exists (set_currentStep i (prepared a s4)). split; [|split].
  - unfold bind at 1. rewrite Hforth.
    rewrite previousStep_unfold by done.
    rewrite (frame_steps _ _ Hf3), (frame_cursor _ _ Hf3).
    change (steps s2) with (steps s1). change (currentStep s2) with (i + 1).
    rewrite (frame_steps s s1), Hnext by done.
    unfold bind at 1, StepCtrl.reverse. cbn [StepCtrl.get].
    rewrite bind_read. change (prop s3 st "type") with (prop s4 st "type").
    rewrite Hprop4, Hanim by done. cbn [is_str String.eqb Ascii.eqb Bool.eqb].
    rewrite bind_read. change (prop s3 st "animation") with (prop s4 st "animation").
    rewrite Hprop4, Hanimation by done.
    rewrite call_method_core
      by first [by rewrite (intact_frame s2 s3 a Hf3) | intact_tac].
    fold s4. unfold self. rewrite (prepare_text (S fuel)); cycle 1.
    + by rewrite (intact_frame _ s4 a Hf4).
    + by rewrite Hprop4.
    + by rewrite Hprop4.
    + change (prop s4 a "__old_text") with (prop s3 a "__old_text"). by rewrite Hold3.
    + rewrite Hprop4, Hlate by done. cbn [andb]. unfold StepCtrl.move_to.
      rewrite Z.max_l by lia. by replace (i + 1 - 1) with i by lia.
  - done.
  - intros e' He'. change (content (set_currentStep i (prepared a s4)))
      with (content (prepared a s4)).
    rewrite content_prepared.
    change (prop s4 a "__old_text") with (prop s3 a "__old_text"). rewrite Hold3.
    rewrite Hprop4 by done. fold target.
    rewrite (frame_host _ _ Hf4). change (host (set_currentStep (i + 1) s)) with (host s).
    rewrite Hjq. by apply markup_fill.
Qed.

Lemma step_onto_text_and_back_witness :
  ∃ s', (StepCtrl.nextStep (Animation.invoke 3) ;; StepCtrl.previousStep (Animation.invoke 3))
          (Sample.deck 1) = (Ok tt, s') ∧
        currentStep s' = 1 ∧ markup (content s') 1%nat = "old"%string.
Proof.
  destruct (step_onto_text_and_back 0 (Sample.deck 1) 3%positive 11%positive 1%nat []
              ltac:(cbn; lia) ltac:(cbn; lia) eq_refl eq_refl eq_refl eq_refl eq_refl
              eq_refl eq_refl eq_refl eq_refl eq_refl) as (s' & Hrun & Hcursor & Hshown).
  exists s'. split; [exact Hrun|]. split; [exact Hcursor|].
  apply Hshown, elem_of_cons. by left.
Defined.

(** ** The boundary steps on the way they are not meant for *)

Lemma is_str_eq (v : value) (lit : string) : is_str v lit = true → v = VStr lit.
Proof. destruct v; try done. cbn. by intros ->%String.eqb_eq. Qed.

Lemma step_type_ref (s : state) (step : value) (lit : string) :
  is_str (step_type s step) lit = true →
  ∃ l, step = VRef l ∧ prop s l "type" = VStr lit.
Proof.
  destruct step as [| | | | | |l|]; try done. cbn [step_type].
  intros Hl%is_str_eq. by exists l.
Qed.

Lemma bind_ext_keeps {A B} (m : M A) (f g : A → M B) (s : state) :
  keeps m → (∀ a s1, frame s s1 → f a s1 = g a s1) → bind m f s = bind m g s.
Proof.
  intros Hm Hfg. specialize (Hm s). unfold bind.
  destruct (m s) as [[a|e| |] s1]; try done. by apply Hfg.
Qed.

(** X23.  [previousStep()] with the cursor on a nextPage step, and
    [nextStep()] that reaches a prevPage step (the cases the comments of
    the source call impossible): the branch is empty.  Nothing is called
    and nothing is written to the console; [previousStep()] only moves
    the cursor down, [nextStep()] only leaves the step it was on and
    moves the cursor up. *)
Theorem boundary_steps_the_wrong_way (fuel : nat) (s : state) :
  let self := Animation.invoke fuel in
  let here := StepCtrl.nth_step (steps s) (currentStep s) in
  let up := Z.min (currentStep s + 1) (Z.of_nat (length (steps s)) - 1) in
  let down := Z.max (currentStep s - 1) 0 in
  (is_str (step_type s here) "nextPage" = true →
   StepCtrl.previousStep self s = (Ok tt, set_currentStep down s)) ∧
  (is_str (step_type s (StepCtrl.nth_step (steps s) up)) "prevPage" = true →
   StepCtrl.nextStep self s = (StepCtrl.leave self here ;; StepCtrl.move_to up) s).
Proof.
  intros self here up down.
  assert (∀ m l, keeps (self m l)) as Hself by (intros; apply keeps_invoke).
  split.
  - intros (l & Hhere & Htype)%step_type_ref.
    rewrite previousStep_unfold by done. fold here down. rewrite Hhere.
    unfold bind at 1, StepCtrl.reverse. cbn [StepCtrl.get].
    by rewrite bind_read, Htype.
  - intros (l & Hnext & Htype)%step_type_ref.
    rewrite nextStep_unfold by done. fold here up. rewrite Hnext.
    apply bind_ext_keeps; [by apply keeps_leave|]. intros _ s1 Hf.
    unfold bind at 1, StepCtrl.move_to, StepCtrl.execute. cbn [StepCtrl.get].
    rewrite bind_read.
    change (prop (set_currentStep up s1) l "type") with (prop s1 l "type").
    by rewrite (frame_prop s s1), Htype.
Qed.

Lemma boundary_steps_the_wrong_way_witness :
  let reversed :=
    Sample.page_with
      [(1%positive, Sample.plain [("type", VStr "nextPage")]);
       (2%positive, Sample.plain [("type", VStr "prevPage")])]
      [VRef 1%positive; VRef 2%positive] 0 in
  StepCtrl.previousStep (Animation.invoke 3) (Sample.deck 3) =
    (Ok tt, set_currentStep 2 (Sample.deck 3)) ∧
  StepCtrl.nextStep (Animation.invoke 3) reversed = (Ok tt, set_currentStep 1 reversed).
Proof.
  intros reversed.
  destruct (boundary_steps_the_wrong_way 3 (Sample.deck 3)) as [Hback _].
  destruct (boundary_steps_the_wrong_way 3 reversed) as [_ Hforth].
  split; [exact (Hback eq_refl)|]. rewrite (Hforth eq_refl). reflexivity.
Defined.

(** ** The phases of a navigation call *)

Lemma bind_cong_keeps {A B} (m m' : M A) (f g : A → M B) (s : state) :
  m s = m' s → keeps m → (∀ a s1, frame s s1 → f a s1 = g a s1) → bind m f s = bind m' g s.
Proof.
  intros Hm Hk Hfg. specialize (Hk s). unfold bind. rewrite <- Hm.
  destruct (m s) as [[a|e| |] s1]; try done. by apply Hfg.
Qed.

Lemma leave_ref (self : meth → loc → M unit) (step : loc) (s : state) :
  StepCtrl.leave self (VRef step) s =
  when (is_str (prop s step "type") "anim")
    (call_method self (prop s step "animation") Finish) s.
Proof.
  unfold StepCtrl.leave. cbn [StepCtrl.get]. rewrite bind_read.
  destruct (is_str _ _); [|done]. cbn [when]. by rewrite bind_read.
Qed.

Lemma execute_ref (self : meth → loc → M unit) (step : loc) (s : state) :
  StepCtrl.execute self (VRef step) s =
  (if is_str (prop s step "type") "prevPage" then ret tt
   else if is_str (prop s step "type") "nextPage" then emit NextPage
   else if is_str (prop s step "type") "anim"
        then call_method self (prop s step "animation") Play
        else (emit (ConsoleError "Unsupported step operation: ") ;;
              emit (ConsoleLog (VRef step)))) s.
Proof.
  unfold StepCtrl.execute. cbn [StepCtrl.get]. rewrite bind_read.
  destruct (is_str _ "prevPage"); [done|]. destruct (is_str _ "nextPage"); [done|].
  destruct (is_str _ "anim"); [|done]. by rewrite bind_read.
Qed.

Lemma reverse_ref (self : meth → loc → M unit) (step : loc) (s : state) :
  StepCtrl.reverse self (VRef step) s =
  (if is_str (prop s step "type") "prevPage" then emit PreviousPage
   else if is_str (prop s step "type") "nextPage" then ret tt
   else if is_str (prop s step "type") "anim"
        then call_method self (prop s step "animation") Prepare
        else (emit (ConsoleError "Unsupported step operation: ") ;;
              emit (ConsoleLog (VRef step)))) s.
Proof.
  unfold StepCtrl.reverse. cbn [StepCtrl.get]. rewrite bind_read.
  destruct (is_str _ "prevPage"); [done|]. destruct (is_str _ "nextPage"); [done|].
  destruct (is_str _ "anim"); [|done]. by rewrite bind_read.
Qed.

(** C3.  [previousStep] runs the reverse action of the step at the
    cursor (for a prevPage step the call of the page navigation, for an
    animation step [prepare()] on its animation, for an unknown kind the
    report) and only then moves the cursor down, to 0 at the least: when
    the reverse action raises, the cursor has not moved.  [nextStep]
    first calls [finish()] on the animation of the step at the cursor,
    when that step is an animation step, then moves the cursor up, to
    the last index at the most, then executes the step the cursor has
    reached (for a nextPage step the call of the page navigation, for an
    animation step [play()] on its animation): when [finish()] raises,
    the cursor has not moved and nothing is executed; once [finish()]
    has returned the cursor has moved, whatever the execution does. *)
Theorem navigation_order (fuel : nat) (s : state) (here : loc) :
  let self := Animation.invoke fuel in
  let i := currentStep s in
  let up := Z.min (i + 1) (Z.of_nat (length (steps s)) - 1) in
  let down := Z.max (i - 1) 0 in
  let ty := prop s here "type" in
  let animation := prop s here "animation" in
  StepCtrl.nth_step (steps s) i = VRef here →
  StepCtrl.previousStep self s =
    (if is_str ty "prevPage" then (Ok tt, set_currentStep down (log PreviousPage s))
     else if is_str ty "nextPage" then (Ok tt, set_currentStep down s)
     else if is_str ty "anim"
          then (call_method self animation Prepare ;; StepCtrl.move_to down) s
          else (Ok tt, set_currentStep down (report (VRef here) s))) ∧
  currentStep (StepCtrl.previousStep self s).2 =
    (match (StepCtrl.previousStep self s).1 with
     | Ok _ => down
     | _ => i
     end) ∧
  (∀ there : loc,
     StepCtrl.nth_step (steps s) up = VRef there →
     StepCtrl.nextStep self s =
       (when (is_str ty "anim") (call_method self animation Finish) ;;
        StepCtrl.move_to up ;;
        if is_str (prop s there "type") "prevPage" then ret tt
        else if is_str (prop s there "type") "nextPage" then emit NextPage
        else if is_str (prop s there "type") "anim"
             then call_method self (prop s there "animation") Play
             else (emit (ConsoleError "Unsupported step operation: ") ;;
                   emit (ConsoleLog (VRef there)))) s) ∧
  currentStep (StepCtrl.nextStep self s).2 =
    (if is_str ty "anim"
     then match (call_method self animation Finish s).1 with
          | Ok _ => up
          | _ => i
          end
     else up).
Proof.
  intros self i up down ty animation Hhere.
  assert (∀ m l, keeps (self m l)) as Hself by (intros; apply keeps_invoke).
  split; [|split; [|split]].
  - rewrite previousStep_unfold by done. fold i down. rewrite Hhere.
    unfold bind at 1. rewrite reverse_ref. fold ty animation.
    destruct (is_str ty "prevPage"); [done|]. destruct (is_str ty "nextPage"); [done|].
    by destruct (is_str ty "anim").
  - unfold self. rewrite previousStep_cursor, previousStep_unfold by apply keeps_invoke.
    fold self i down. unfold bind.
    by destruct (StepCtrl.reverse self _ s) as [[[]|e| |] s1].
  - intros there Hthere. rewrite nextStep_unfold by done. fold i up.
    rewrite Hhere, Hthere.
    apply bind_cong_keeps; [apply leave_ref|by apply keeps_leave|].
    intros _ s1 Hf. unfold bind, StepCtrl.move_to. rewrite execute_ref.
    change (prop (set_currentStep up s1) there) with (prop s1 there).
    by rewrite !(frame_prop s s1) by done.
  - unfold self. rewrite nextStep_cursor. fold self i up. rewrite Hhere, leave_ref.
    fold ty animation. by destruct (is_str ty "anim").
Qed.

Lemma navigation_order_witness :
  let back := StepCtrl.previousStep (Animation.invoke 3) (Sample.deck 2) in
  let forth := StepCtrl.nextStep (Animation.invoke 3) (Sample.deck 1) in
  StepCtrl.nth_step (steps (Sample.deck 2)) 2 = VRef 3%positive ∧
  StepCtrl.nth_step (steps (Sample.deck 1)) 1 = VRef 2%positive ∧
  back.1 = Ok tt ∧
  trace back.2 = [Invoke 11%positive Prepare; Invoke 11%positive Finish;
                  JqFinish (VStr "#b")] ∧
  currentStep back.2 = 1 ∧
  forth.1 = Ok tt ∧
  trace forth.2 = [Invoke 10%positive Finish; JqFinish (VStr "#a");
                   Invoke 11%positive Play; Invoke 11%positive BeforePlay;
                   JqHtml (VStr "#b") "hi";
                   JqRemoveClass ".prettyprinted" "prettyprinted"; PrettyPrint;
                   Invoke 11%positive AfterPlay] ∧
  currentStep forth.2 = 2.
Proof.
  intros back forth.
  destruct (navigation_order 3 (Sample.deck 2) 3%positive eq_refl) as (Hback & _).
  destruct (navigation_order 3 (Sample.deck 1) 2%positive eq_refl) as (_ & _ & Hforth & _).
  specialize (Hforth 3%positive eq_refl).
  split; [reflexivity|]. split; [reflexivity|].
  unfold back, forth. rewrite Hback, Hforth.
  split; [vm_compute; reflexivity|]. split; [vm_compute; reflexivity|].
  split; [vm_compute; reflexivity|]. split; [vm_compute; reflexivity|].
  split; vm_compute; reflexivity.
Defined.

(** ** The two ends of the list *)

Lemma logs_log (e : event) (evs : list event) (s : state) :
  logs evs (log e s) = logs (e :: evs) s.
Proof. unfold logs, log, set_trace. cbn. by rewrite <- app_assoc. Qed.

Lemma run_prop (fuel : nat) (ns : list nav) (s : state) (l : loc) (k : string) :
  k ≠ "ready" → k ≠ "played" → k ≠ "__old_text" →
  prop (run fuel ns s) l k = prop s l k.
Proof.
  intros ???.
  destruct (respects_run same_configuration fuel same_configuration_refl
              same_configuration_trans (same_configuration_navigate fuel) ns s)
    as (_ & _ & Hk).
  unfold prop. by rewrite Hk.
Qed.

Lemma run_next_at_last (fuel n : nat) (s : state) :
  steps s ≠ [] →
  currentStep s = Z.of_nat (length (steps s)) - 1 →
  steps (run fuel (replicate n Next) s) = steps s ∧
  currentStep (run fuel (replicate n Next) s) = currentStep s.
Proof.
  revert s. induction n as [|n IH]; intros s Hne Hcur; [done|].
  cbn [replicate run navigate].
  assert (0 ≤ currentStep s) as H0.
  { rewrite Hcur. destruct (steps s); [done|]. cbn [length]. lia. }
  destruct (nextStep_in_range fuel s) as [Hst Hin]; [unfold in_range; lia|].
  assert (currentStep (StepCtrl.nextStep (Animation.invoke fuel) s).2 = currentStep s) as Hc.
  { rewrite nextStep_cursor. destruct (StepCtrl.leave _ _ s).1; try done. lia. }
  destruct (IH (StepCtrl.nextStep (Animation.invoke fuel) s).2) as [IH1 IH2].
  - by rewrite Hst.
  - by rewrite Hst, Hc.
  - split; congruence.
Qed.

Lemma run_previous_at_first (fuel n : nat) (s : state) :
  currentStep s = 0 →
  steps (run fuel (replicate n Previous) s) = steps s ∧
  currentStep (run fuel (replicate n Previous) s) = 0.
Proof.
  revert s. induction n as [|n IH]; intros s Hcur; [done|].
  cbn [replicate run navigate].
  assert (currentStep (StepCtrl.previousStep (Animation.invoke fuel) s).2 = 0) as Hc.
  { rewrite previousStep_cursor. destruct (StepCtrl.reverse _ _ s).1; try done. lia. }
  destruct (IH _ Hc) as [IH1 IH2]. split; [|done].
  rewrite IH1. apply previousStep_steps.
Qed.

(** [nextStep] with the cursor on the last step. *)
Lemma nextStep_on_last (fuel : nat) (s : state) (step : loc) :
  let self := Animation.invoke fuel in
  let ty := prop s step "type" in
  let animation := prop s step "animation" in
  currentStep s = Z.of_nat (length (steps s)) - 1 →
  StepCtrl.nth_step (steps s) (currentStep s) = VRef step →
  StepCtrl.nextStep self s =
    (if is_str ty "prevPage" then (Ok tt, s)
     else if is_str ty "nextPage" then (Ok tt, log NextPage s)
     else if is_str ty "anim"
          then (call_method self animation Finish ;; call_method self animation Play) s
          else (Ok tt, report (VRef step) s)).
Proof.
  intros self ty animation Hlast Hstep.
  assert (∀ m l, keeps (self m l)) as Hself by (intros; apply keeps_invoke).
  unfold self. rewrite nextStep_at_last by done. fold self. rewrite Hstep.
  destruct (is_str ty "anim") eqn:Hanim.
  - apply is_str_eq in Hanim as Hty. rewrite Hty.
    change (is_str (VStr "anim") "prevPage") with false.
    change (is_str (VStr "anim") "nextPage") with false.
    change (is_str (VStr "anim") "anim") with true. cbv iota.
    apply bind_cong_keeps; [|by apply keeps_leave|].
    + rewrite leave_ref. fold ty animation. by rewrite Hanim.
    + intros _ s1 Hf. rewrite execute_ref, !(frame_prop s s1) by done.
      fold ty animation. by rewrite Hty.
  - unfold bind. rewrite leave_ref. fold ty. rewrite Hanim. cbn [when ret].
    rewrite execute_ref. fold ty. rewrite Hanim.
    destruct (is_str ty "prevPage"); [done|]. by destruct (is_str ty "nextPage").
Qed.

(** [previousStep] with the cursor on the first step. *)
Lemma previousStep_on_first (fuel : nat) (s : state) (step : loc) :
  let self := Animation.invoke fuel in
  let ty := prop s step "type" in
  currentStep s = 0 →
  StepCtrl.nth_step (steps s) 0 = VRef step →
  StepCtrl.previousStep self s =
    (if is_str ty "prevPage" then (Ok tt, log PreviousPage s)
     else if is_str ty "nextPage" then (Ok tt, s)
     else if is_str ty "anim" then call_method self (prop s step "animation") Prepare s
     else (Ok tt, report (VRef step) s)).
Proof.
  intros self ty Hfirst Hstep. unfold self. rewrite previousStep_at_first by done.
  rewrite Hstep, reverse_ref. fold self ty.
  destruct (is_str ty "prevPage"); [done|]. destruct (is_str ty "nextPage"); [done|].
  by destruct (is_str ty "anim").
Qed.

(** C2, as the code has it.  With the cursor on the last index,
    [nextStep] leaves the cursor there and goes through the last step
    once more: for a nextPage step it calls the page navigation, for an
    animation step it calls [finish()] and then [play()] on the
    animation of that step, and [play()] only when [finish()] has
    returned.  With the cursor on 0, [previousStep] runs the reverse
    action of step 0 once more (for a prevPage step the call of the page
    navigation, for an animation step [prepare()] on its animation) and
    leaves the cursor on 0.  Both hold again after any number [n] of
    such calls, however each of them ended; [n] calls on a nextPage step
    at the end, or on a prevPage step at the start, are [n] calls of the
    page navigation and nothing else. *)
Theorem boundary_step_repeats (fuel n : nat) (s : state) (step : loc) :
  let self := Animation.invoke fuel in
  let last := Z.of_nat (length (steps s)) - 1 in
  let ty := prop s step "type" in
  let animation := prop s step "animation" in
  steps s ≠ [] →
  (currentStep s = last →
   StepCtrl.nth_step (steps s) last = VRef step →
   let s' := run fuel (replicate n Next) s in
   currentStep s' = last ∧
   StepCtrl.nextStep self s' =
     (if is_str ty "prevPage" then (Ok tt, s')
      else if is_str ty "nextPage" then (Ok tt, log NextPage s')
      else if is_str ty "anim"
           then (call_method self animation Finish ;; call_method self animation Play) s'
           else (Ok tt, report (VRef step) s')) ∧
   currentStep (StepCtrl.nextStep self s').2 = last ∧
   (is_str ty "nextPage" = true → s' = logs (replicate n NextPage) s)) ∧
  (currentStep s = 0 →
   StepCtrl.nth_step (steps s) 0 = VRef step →
   let s' := run fuel (replicate n Previous) s in
   currentStep s' = 0 ∧
   StepCtrl.previousStep self s' =
     (if is_str ty "prevPage" then (Ok tt, log PreviousPage s')
      else if is_str ty "nextPage" then (Ok tt, s')
      else if is_str ty "anim" then call_method self animation Prepare s'
      else (Ok tt, report (VRef step) s')) ∧
   currentStep (StepCtrl.previousStep self s').2 = 0 ∧
   (is_str ty "prevPage" = true → s' = logs (replicate n PreviousPage) s)).
Proof.
  intros self last ty animation Hne. split.
  - intros Hcur Hstep s'.
    destruct (run_next_at_last fuel n s Hne Hcur) as [Hst Hc]. fold s' in Hst, Hc.
    assert (currentStep s' = Z.of_nat (length (steps s')) - 1) as Hlast'
      by (by rewrite Hst, Hc).
    assert (StepCtrl.nth_step (steps s') (currentStep s') = VRef step) as Hstep'
      by (by rewrite Hst, Hc, Hcur).
    split; [by rewrite Hc|]. split; [|split].
    + unfold self. rewrite (nextStep_on_last fuel s' step Hlast' Hstep').
      unfold s'. by rewrite !run_prop by done.
    + destruct (run_next_at_last fuel 1 s') as [_ Hc1]; [by rewrite Hst|done|].
      cbn [replicate run navigate] in Hc1. fold self in Hc1. by rewrite Hc1, Hc.
    + intros Htype%is_str_eq. unfold s'. clear s' Hst Hc Hlast' Hstep'.
      subst ty animation last. revert s Hne Hcur Hstep Htype.
      induction n as [|n IH]; intros s Hne Hcur Hstep Htype.
      * cbn. unfold logs. by rewrite set_trace_nil.
      * cbn [replicate run navigate].
        rewrite (nextStep_on_last fuel s step) by (by rewrite ?Hcur).
        rewrite Htype. cbn [snd].
        change (is_str (VStr "nextPage") "prevPage") with false.
        change (is_str (VStr "nextPage") "nextPage") with true. cbv iota. cbn [snd].
        rewrite IH by done. apply logs_log.
  - intros Hcur Hstep s'.
    destruct (run_previous_at_first fuel n s Hcur) as [Hst Hc]. fold s' in Hst, Hc.
    assert (StepCtrl.nth_step (steps s') 0 = VRef step) as Hstep' by (by rewrite Hst).
    split; [done|]. split; [|split].
    + unfold self. rewrite (previousStep_on_first fuel s' step Hc Hstep').
      unfold s'. by rewrite !run_prop by done.
    + destruct (run_previous_at_first fuel 1 s' Hc) as [_ Hc1].
      cbn [replicate run navigate] in Hc1. exact Hc1.
    + intros Htype%is_str_eq. unfold s'. clear s' Hst Hc Hstep'.
      subst ty animation last. revert s Hne Hcur Hstep Htype.
      induction n as [|n IH]; intros s Hne Hcur Hstep Htype.
      * cbn. unfold logs. by rewrite set_trace_nil.
      * cbn [replicate run navigate].
        rewrite (previousStep_on_first fuel s step) by done.
        rewrite Htype.
        change (is_str (VStr "prevPage") "prevPage") with true. cbv iota. cbn [snd].
        rewrite IH by done. apply logs_log.
Qed.

Lemma boundary_step_repeats_witness :
  let at_end := run 4 (replicate 2 Next) (Sample.deck 3) in
  let at_start := run 4 (replicate 2 Previous) (Sample.deck 0) in
  let once := (StepCtrl.nextStep (Animation.invoke 4) Sample.single_deck).2 in
  at_end = logs [NextPage; NextPage] (Sample.deck 3) ∧
  StepCtrl.nextStep (Animation.invoke 4) at_end = (Ok tt, log NextPage at_end) ∧
  currentStep (StepCtrl.nextStep (Animation.invoke 4) at_end).2 = 3 ∧
  at_start = logs [PreviousPage; PreviousPage] (Sample.deck 0) ∧
  StepCtrl.previousStep (Animation.invoke 4) at_start = (Ok tt, log PreviousPage at_start) ∧
  currentStep (StepCtrl.previousStep (Animation.invoke 4) at_start).2 = 0 ∧
  trace once =
    [Invoke 10%positive Finish; JqFinish (VStr "#b");
     Invoke 10%positive Play; Invoke 10%positive BeforePlay; JqHtml (VStr "#b") "hi";
     JqRemoveClass ".prettyprinted" "prettyprinted"; PrettyPrint;
     Invoke 10%positive AfterPlay] ∧
  trace (StepCtrl.nextStep (Animation.invoke 4) once).2 = trace once ++ trace once ∧
  currentStep (StepCtrl.nextStep (Animation.invoke 4) once).2 = 0.
Proof.
  intros at_end at_start once.
  destruct (boundary_step_repeats 4 2 (Sample.deck 3) 4%positive ltac:(done)) as [Hlast _].
  destruct (boundary_step_repeats 4 2 (Sample.deck 0) 1%positive ltac:(done)) as [_ Hfirst].
  destruct (boundary_step_repeats 4 1 Sample.single_deck 1%positive ltac:(done))
    as [Hsingle _].
  destruct (Hlast eq_refl eq_refl) as (_ & H1 & H2 & H3).
  destruct (Hfirst eq_refl eq_refl) as (_ & H4 & H5 & H6).
  destruct (Hsingle eq_refl eq_refl) as (_ & H7 & H8 & _).
  split; [exact (H3 eq_refl)|]. split; [exact H1|]. split; [exact H2|].
  split; [exact (H6 eq_refl)|]. split; [exact H4|]. split; [exact H5|].
  split; [vm_compute; reflexivity|].
  split; [|exact H8].
  change (run 4 (replicate 1 Next) Sample.single_deck) with once in H7.
  rewrite H7. vm_compute. reflexivity.
Defined.

(** C2 as stated fails: the last step is an animation step whose
    [finish()] raises (an SVG animation of an element the page does not
    have).  [nextStep] with the cursor on that step ends in the
    [finish()] of its first phase: the step is not executed again,
    [play()] is not called. *)
Lemma boundary_step_cut_short_by_finish :
  let s := Sample.svg_deck 1 in
  let s' := (StepCtrl.nextStep (Animation.invoke 4) s).2 in
  currentStep s = Z.of_nat (length (steps s)) - 1 ∧
  StepCtrl.nth_step (steps s) (currentStep s) = VRef 2%positive ∧
  prop s 2%positive "type" = VStr "anim" ∧
  prop s 2%positive "animation" = VRef 10%positive ∧
  StepCtrl.nextStep (Animation.invoke 4) s = (Throw TypeError, s') ∧
  trace s' = [Invoke 10%positive Finish] ∧
  ¬ (Invoke 10%positive Play ∈ trace s') ∧
  prop s' 10%positive "played" = VBool false ∧
  currentStep s' = 1.
Proof.
  intros s s'.
  assert (trace s' = [Invoke 10%positive Finish]) as Htrace by (vm_compute; reflexivity).
  split; [reflexivity|]. split; [reflexivity|]. split; [reflexivity|].
  split; [reflexivity|]. split; [vm_compute; reflexivity|]. split; [exact Htrace|].
  split; [|split; vm_compute; reflexivity].
  rewrite Htrace. intros Hin%list_elem_of_singleton. discriminate Hin.
Qed.

(** ** SVG animations on their element *)

(** X24.  An SVG animation whose target is an element of the drawing.
    [prepare()], past its guards, stops what runs on the element and
    then hides it (svg.fadeIn) or puts it at (fromX, fromY) (svg.move);
    [play()] fades it in, or moves it to (toX, toY), over [duration].
    The [easing] of the animation is handed to none of these calls. *)
Theorem svg_life_cycle (fuel : nat) (s : state) (this : loc) (e : elem) :
  intact s this = true →
  prop s this "type" = VStr "svg.fadeIn" ∨ prop s this "type" = VStr "svg.move" →
  snap (host s) (prop s this "target") = Some e →
  let fade := is_str (prop s this "type") "svg.fadeIn" in
  let precondition :=
    if fade then SnapHide e
    else SnapTranslate e (prop s this "fromX") (prop s this "fromY") in
  let transition :=
    if fade then SnapFadeIn e (prop s this "duration")
    else SnapAnimateTranslate e (prop s this "toX") (prop s this "toY")
           (prop s this "duration") in
  (prepares s this = true →
   Animation.invoke (S (S fuel)) Prepare this s =
     (Ok tt, store this "ready" (VBool true)
               (log precondition (log (SnapStopAll e) (log (Invoke this Finish) s))))) ∧
  (truthy (prop s this "late_prepare") = false →
   Animation.invoke (S (S fuel)) Play this s =
     (Ok tt, hooked this AfterPlay
               (store this "played" (VBool true)
                  (log transition (hooked this BeforePlay s))))).
Proof.
  intros Hintact Htype Hsnap fade precondition transition.
  assert (svg_kind (prop s this "type") = true) as Hsvg by (by destruct Htype as [-> | ->]).
  split.
  - intros Hopen. rewrite prepare_starts_with_finish by done.
    unfold Animation.prepare_unguarded. unfold bind at 1.
    rewrite call_method_core by intact_tac.
    set (s0 := log (Invoke this Finish) s).
    assert (Animation.invoke (S fuel) Finish this s0 = (Ok tt, log (SnapStopAll e) s0))
      as ->.
    { rewrite invoke_S. cbn [Animation.body]. unfold Animation.finish.
      rewrite bind_read. change (prop s0 this "type") with (prop s this "type").
      destruct (prop s this "type") as [| | | |x| | |]; try done.
      cbn in Hsvg. rewrite bind_ret, Hsvg, bind_read.
      unfold bind, snap_select. change (host s0) with (host s).
      change (prop s0 this "target") with (prop s this "target"). by rewrite Hsnap. }
    rewrite bind_read, prop_log. change (prop s0 this "type") with (prop s this "type").
    unfold precondition, fade.
    destruct Htype as [-> | ->].
    + change (kind_of (VStr "svg.fadeIn")) with KSvgFadeIn. cbv iota.
      rewrite bind_assoc, bind_read, bind_assoc. unfold bind at 1, snap_select.
      rewrite prop_log. change (prop s0 this "target") with (prop s this "target").
      change (host (log (SnapStopAll e) s0)) with (host s). by rewrite Hsnap.
    + change (kind_of (VStr "svg.move")) with KSvgMove. cbv iota.
      rewrite bind_assoc, bind_read, bind_assoc. unfold bind at 1, snap_select.
      rewrite prop_log. change (prop s0 this "target") with (prop s this "target").
      change (host (log (SnapStopAll e) s0)) with (host s). by rewrite Hsnap.
  - intros Hlate. rewrite play_not_late by done.
    unfold bind at 1, Animation.play_switch. rewrite bind_read, prop_hooked.
    unfold transition, fade.
    destruct Htype as [Ht | Ht]; rewrite Ht.
    + change (kind_of (VStr "svg.fadeIn")) with KSvgFadeIn. cbv iota.
      rewrite bind_read, prop_hooked. unfold bind at 1, snap_select.
      rewrite host_hooked, Hsnap. rewrite bind_read, prop_hooked.
      unfold emit. by apply play_tail.
    + change (kind_of (VStr "svg.move")) with KSvgMove. cbv iota.
      rewrite bind_read, prop_hooked. unfold bind at 1, snap_select.
      rewrite host_hooked, Hsnap. rewrite !bind_read, !prop_hooked.
      unfold emit. by apply play_tail.
Qed.

Lemma svg_life_cycle_witness :
  let s := Sample.with_drawing Sample.svg_fade in
  trace (Animation.invoke 2 Prepare 1%positive s).2 =
    [Invoke 1%positive Finish; SnapStopAll 5%nat; SnapHide 5%nat] ∧
  trace (Animation.invoke 2 Play 1%positive s).2 =
    [Invoke 1%positive BeforePlay; SnapFadeIn 5%nat (VNum 500); Invoke 1%positive AfterPlay].
Proof.
  intros s.
  destruct (svg_life_cycle 0 s 1%positive 5%nat eq_refl (or_introl eq_refl) eq_refl)
    as [Hprepare Hplay].
  rewrite (Hprepare eq_refl), (Hplay eq_refl). split; reflexivity.
Defined.
